(** * A shallow embedding of [js/particles.js]

    The HTML5 canvas particle system: a pool of particles that is aged by
    an animator, refilled by a spawn loop and trimmed to a population cap
    on every tick, and painted through a renderer.

    Conventions of the embedding.

    - JavaScript numbers are exact rationals ([Q]): [+], [-], [*] are the
      field operations, and the rounding of IEEE doubles is not part of
      the model.  Counts ([maxParticles], [particlesPerUpdate]) and the
      integer attributes of the DOM are in [Z].
    - The object literals [{x, y}] and [{r, g, b, a}] live in a store, one
      list per shape, and are referred to by location, so that sharing
      between particles and templates is visible:
      [jQuery.extend(true, {}, o)] allocates a new object, an assignment
      to a field writes the store.  Nothing is ever freed, so a location
      also tells when its object was allocated.
    - Every function of the source is a computation in a state monad over
      the [World]; it either returns, throws (a [TypeError] on
      [undefined], an [IndexSizeError] of the canvas) or never returns.
    - [Math.random()] reads the next cell of a tape held by the host.
    - There is one system and one canvas: the methods are closures over
      the variables of the constructor, and the 2D context is the global
      variable [context]. *)

From Stdlib Require Import QArith Qround Qpower Qabs ZArith Lia Lqa.
From stdpp Require Import base list option sets.

Set Default Proof Using "Type".
Set Warnings "-clear-no-such-hyp".

(** ** Objects and the store *)

(** A location of the store. *)
Abbreviation loc := nat (only parsing).

(** [{ x : .., y : .. }] *)
Record vec2 : Type := Vec2 { x : Q; y : Q }.

(** [{ r : .., g : .., b : .., a : .. }] *)
Record rgba : Type := Rgba { r : Q; g : Q; b : Q; a : Q }.

(** A [Particle] object: its four fields are references that no code
    reassigns after construction. *)
Record Particle : Type := mkParticle {
  pos : loc;
  size : loc;
  color : loc;
  velocity : loc
}.

Inductive Renderer : Type := SquareParticleRenderer | RoundParticleRenderer.
Inductive Animator : Type := DefaultParticleAnimator | FancyParticleAnimator.

(** ** The canvas host *)

(** [context.globalCompositeOperation] *)
Inductive Composite : Type := source_over | lighter.

(** The value of [rgbaToString]: the text
    ['rgba(' + R + ', ' + G + ', ' + B + ', ' + A + ')'], kept as the four
    numbers it prints. *)
Record CssColor : Type := RgbaString { sr : Z; sg : Z; sb : Z; sa : Q }.

(** What [save()] records and [restore()] brings back. *)
Record DrawingState : Type := mkDrawingState {
  fillStyle : CssColor;
  globalCompositeOperation : Composite
}.

(** One call of [arc(cx, cy, radius, 0, 2 * Math.PI, false)]. *)
Record Circle : Type := mkCircle { cx : Q; cy : Q; radius : Q }.

(** What has been painted on the bitmap, oldest first. *)
Inductive Paint : Type :=
| ClearRect (px py pw ph : Q)
| FillRect (style : CssColor) (op : Composite) (px py pw ph : Q)
| FillPath (style : CssColor) (op : Composite) (p : list Circle).

(** The canvas element together with its 2D context. *)
Record Canvas : Type := mkCanvas {
  canvas_width : Z;
  canvas_height : Z;
  offsetLeft : Z;
  offsetTop : Z;
  state : DrawingState;
  saved : list DrawingState;
  path : list Circle;
  painted : list Paint
}.

Record Host : Type := mkHost {
  element : option Canvas;   (* [document.getElementById(canvasId || 'canvas')] *)
  innerWidth : Z;            (* [window.innerWidth] *)
  innerHeight : Z;           (* [window.innerHeight] *)
  random_tape : nat -> Q;    (* the values [Math.random()] will return *)
  random_next : nat          (* how many of them have been consumed *)
}.

(** ** The particle system object *)

Record ParticleSystem : Type := mkParticleSystem {
  (* this.* *)
  autoResize : bool;
  backgroundColor : loc;
  maxParticles : Z;
  particlesPerUpdate : Z;
  particleSpeed : Q;
  particleSize : loc;
  particleColor : loc;
  particleOrigin : loc;
  particleRenderer : Renderer;
  particleAnimator : Animator;
  (* the variables of the constructor's closure *)
  particles : list Particle;
  var_particleOrigin : loc;
  height : Q;
  width : Q
}.

Record World : Type := mkWorld {
  vecs : list vec2;       (* the [{x, y}] objects *)
  cols : list rgba;       (* the [{r, g, b, a}] objects *)
  host : Host;
  context : bool;         (* the global [context] has been assigned *)
  this : ParticleSystem
}.

(** ** The monad of the embedding *)

Inductive Outcome (A : Type) : Type :=
| Returns (v : A)
| Throws
| Loops.
Arguments Returns {A} v.
Arguments Throws {A}.
Arguments Loops {A}.

Definition M (A : Type) : Type := World -> Outcome (A * World).

#[global] Instance M_ret : MRet M := fun A v w => Returns (v, w).
#[global] Instance M_bind : MBind M := fun A B f m w =>
  match m w with
  | Returns (v, w') => f v w'
  | Throws => Throws
  | Loops => Loops
  end.

Definition throw {A : Type} : M A := fun _ => Throws.
Definition get : M World := fun w => Returns (w, w).
Definition modify (f : World -> World) : M unit := fun w => Returns (tt, f w).

(** ** Record updates *)

Definition set_vecs (f : list vec2 -> list vec2) (w : World) : World :=
  mkWorld (f (vecs w)) (cols w) (host w) (context w) (this w).
Definition set_cols (f : list rgba -> list rgba) (w : World) : World :=
  mkWorld (vecs w) (f (cols w)) (host w) (context w) (this w).
Definition set_host (f : Host -> Host) (w : World) : World :=
  mkWorld (vecs w) (cols w) (f (host w)) (context w) (this w).
Definition set_context (c : bool) (w : World) : World :=
  mkWorld (vecs w) (cols w) (host w) c (this w).
Definition set_this (f : ParticleSystem -> ParticleSystem) (w : World) : World :=
  mkWorld (vecs w) (cols w) (host w) (context w) (f (this w)).

Definition set_particles (f : list Particle -> list Particle)
    (s : ParticleSystem) : ParticleSystem :=
  mkParticleSystem (autoResize s) (backgroundColor s) (maxParticles s)
    (particlesPerUpdate s) (particleSpeed s) (particleSize s) (particleColor s)
    (particleOrigin s) (particleRenderer s) (particleAnimator s)
    (f (particles s)) (var_particleOrigin s) (height s) (width s).
Definition set_var_particleOrigin (l : loc) (s : ParticleSystem) : ParticleSystem :=
  mkParticleSystem (autoResize s) (backgroundColor s) (maxParticles s)
    (particlesPerUpdate s) (particleSpeed s) (particleSize s) (particleColor s)
    (particleOrigin s) (particleRenderer s) (particleAnimator s)
    (particles s) l (height s) (width s).
Definition set_dimensions (wd hg : Q) (s : ParticleSystem) : ParticleSystem :=
  mkParticleSystem (autoResize s) (backgroundColor s) (maxParticles s)
    (particlesPerUpdate s) (particleSpeed s) (particleSize s) (particleColor s)
    (particleOrigin s) (particleRenderer s) (particleAnimator s)
    (particles s) (var_particleOrigin s) hg wd.

(** ** Objects: literals, field reads and field writes *)

(** An object literal [{ x : .., y : .. }]. *)
Definition new_vec (v : vec2) : M loc := fun w =>
  Returns (length (vecs w), set_vecs (fun h => h ++ [v]) w).

(** An object literal [{ r : .., g : .., b : .., a : .. }]. *)
Definition new_rgba (c : rgba) : M loc := fun w =>
  Returns (length (cols w), set_cols (fun h => h ++ [c]) w).

(** Reading through a reference that holds no object is a [TypeError]. *)
Definition read_vec (l : loc) : M vec2 := fun w =>
  match vecs w !! l with
  | Some v => Returns (v, w)
  | None => Throws
  end.

Definition read_rgba (l : loc) : M rgba := fun w =>
  match cols w !! l with
  | Some c => Returns (c, w)
  | None => Throws
  end.

Definition write_vec (l : loc) (v : vec2) : M unit :=
  _ ← read_vec l; modify (set_vecs (fun h => <[l := v]> h)).

Definition write_rgba (l : loc) (c : rgba) : M unit :=
  _ ← read_rgba l; modify (set_cols (fun h => <[l := c]> h)).

Definition get_x (l : loc) : M Q := v ← read_vec l; mret (x v).
Definition get_y (l : loc) : M Q := v ← read_vec l; mret (y v).
Definition set_x (l : loc) (q : Q) : M unit :=
  v ← read_vec l; write_vec l (Vec2 q (y v)).
Definition set_y (l : loc) (q : Q) : M unit :=
  v ← read_vec l; write_vec l (Vec2 (x v) q).

Definition get_r (l : loc) : M Q := c ← read_rgba l; mret (r c).
Definition get_g (l : loc) : M Q := c ← read_rgba l; mret (g c).
Definition get_b (l : loc) : M Q := c ← read_rgba l; mret (b c).
Definition get_a (l : loc) : M Q := c ← read_rgba l; mret (a c).
Definition set_r (l : loc) (q : Q) : M unit :=
  c ← read_rgba l; write_rgba l (Rgba q (g c) (b c) (a c)).
Definition set_g (l : loc) (q : Q) : M unit :=
  c ← read_rgba l; write_rgba l (Rgba (r c) q (b c) (a c)).
Definition set_b (l : loc) (q : Q) : M unit :=
  c ← read_rgba l; write_rgba l (Rgba (r c) (g c) q (a c)).
Definition set_a (l : loc) (q : Q) : M unit :=
  c ← read_rgba l; write_rgba l (Rgba (r c) (g c) (b c) q).

(** [jQuery.extend(true, {}, o)]: a new object with the fields of [o]. *)
Definition extend_vec (o : loc) : M loc := v ← read_vec o; new_vec v.
Definition extend_rgba (o : loc) : M loc := c ← read_rgba o; new_rgba c.

(** [Math.random()] *)
Definition Math_random : M Q := fun w =>
  let h := host w in
  Returns (random_tape h (random_next h),
           set_host (fun h => mkHost (element h) (innerWidth h) (innerHeight h)
                                (random_tape h) (S (random_next h))) w).

(** A loop body run over an array, in index order. *)
Fixpoint for_each {A : Type} (f : A -> M unit) (l : list A) : M unit :=
  match l with
  | [] => mret tt
  | e :: l' => f e ;; for_each f l'
  end.

(** A body run [n] times. *)
Fixpoint repeat_M (n : nat) (m : M unit) : M unit :=
  match n with
  | O => mret tt
  | S n' => m ;; repeat_M n' m
  end.

(** ** Particle *)

(** [new Particle(xypos, xysize, rgbacolor, speed)] *)
Definition new_Particle (xypos xysize rgbacolor : loc) (speed : Q) : M Particle :=
  rx ← Math_random;
  ry ← Math_random;
  v ← new_vec (Vec2 ((rx - 0.5) * speed) ((ry - 0.5) * speed));
  mret (mkParticle xypos xysize rgbacolor v).

(** ** Particle animators *)

(** The body of the loop of [DefaultParticleAnimator.prototype.update]. *)
Definition default_update_particle (p : Particle) : M unit :=
  px ← get_x (pos p); vx ← get_x (velocity p); set_x (pos p) (px + vx);;
  py ← get_y (pos p); vy ← get_y (velocity p); set_y (pos p) (py + vy);;
  sx ← get_x (size p); set_x (size p) (sx * 0.98);;
  sy ← get_y (size p); set_y (size p) (sy * 0.98).

Definition DefaultParticleAnimator_update (ps : list Particle) : M unit :=
  for_each default_update_particle ps.

(** The body of the loop of [FancyParticleAnimator.prototype.update]. *)
Definition fancy_update_particle (p : Particle) : M unit :=
  px ← get_x (pos p); vx ← get_x (velocity p); set_x (pos p) (px + vx);;
  py ← get_y (pos p); vy ← get_y (velocity p); set_y (pos p) (py + vy);;
  sx ← get_x (size p); set_x (size p) (sx * 0.98);;
  sy ← get_y (size p); set_y (size p) (sy * 0.98);;
  ca ← get_a (color p); set_a (color p) (ca * 0.99);;
  cr ← get_r (color p); set_r (color p) (cr * 1.02);;
  cb ← get_b (color p); set_b (color p) (cb * 0.98);;
  cg ← get_g (color p); set_g (color p) (cg * 0.98).

Definition FancyParticleAnimator_update (ps : list Particle) : M unit :=
  for_each fancy_update_particle ps.

Definition animator_update (an : Animator) (ps : list Particle) : M unit :=
  match an with
  | DefaultParticleAnimator => DefaultParticleAnimator_update ps
  | FancyParticleAnimator => FancyParticleAnimator_update ps
  end.

(** ** The 2D context *)

Definition set_element (f : Canvas -> Canvas) (h : Host) : Host :=
  mkHost (f <$> element h) (innerWidth h) (innerHeight h)
    (random_tape h) (random_next h).

(** Any use of the global [context] before [initialize] has assigned it is
    a [TypeError]. *)
Definition read_canvas : M Canvas := fun w =>
  if context w then
    match element (host w) with
    | Some c => Returns (c, w)
    | None => Throws
    end
  else Throws.

Definition modify_canvas (f : Canvas -> Canvas) : M unit :=
  _ ← read_canvas; modify (set_host (set_element f)).

Definition set_state (f : DrawingState -> DrawingState) (c : Canvas) : Canvas :=
  mkCanvas (canvas_width c) (canvas_height c) (offsetLeft c) (offsetTop c)
    (f (state c)) (saved c) (path c) (painted c).
Definition set_painted (f : list Paint -> list Paint) (c : Canvas) : Canvas :=
  mkCanvas (canvas_width c) (canvas_height c) (offsetLeft c) (offsetTop c)
    (state c) (saved c) (path c) (f (painted c)).
Definition set_path (f : list Circle -> list Circle) (c : Canvas) : Canvas :=
  mkCanvas (canvas_width c) (canvas_height c) (offsetLeft c) (offsetTop c)
    (state c) (saved c) (f (path c)) (painted c).

(** [context.save()] *)
Definition context_save : M unit :=
  modify_canvas (fun c =>
    mkCanvas (canvas_width c) (canvas_height c) (offsetLeft c) (offsetTop c)
      (state c) (state c :: saved c) (path c) (painted c)).

(** [context.restore()]: nothing happens when no state has been saved. *)
Definition context_restore : M unit :=
  modify_canvas (fun c =>
    match saved c with
    | [] => c
    | s :: rest =>
        mkCanvas (canvas_width c) (canvas_height c) (offsetLeft c) (offsetTop c)
          s rest (path c) (painted c)
    end).

(** [context.fillStyle = s] *)
Definition context_set_fillStyle (s : CssColor) : M unit :=
  modify_canvas (set_state (fun d => mkDrawingState s (globalCompositeOperation d))).

(** [context.globalCompositeOperation = op] *)
Definition context_set_globalCompositeOperation (op : Composite) : M unit :=
  modify_canvas (set_state (fun d => mkDrawingState (fillStyle d) op)).

(** [context.clearRect(x, y, w, h)] *)
Definition context_clearRect (px py pw ph : Q) : M unit :=
  modify_canvas (set_painted (fun l => l ++ [ClearRect px py pw ph])).

(** [context.fillRect(x, y, w, h)] *)
Definition context_fillRect (px py pw ph : Q) : M unit :=
  modify_canvas (fun c =>
    set_painted (fun l =>
      l ++ [FillRect (fillStyle (state c)) (globalCompositeOperation (state c))
              px py pw ph]) c).

(** [context.beginPath()] *)
Definition context_beginPath : M unit :=
  modify_canvas (set_path (fun _ => [])).

(** [context.arc(cx, cy, radius, 0, 2 * Math.PI, false)]: the canvas throws
    an [IndexSizeError] on a negative radius. *)
Definition context_arc (ccx ccy rad : Q) : M unit :=
  if Qle_bool 0 rad
  then modify_canvas (set_path (fun l => l ++ [mkCircle ccx ccy rad]))
  else throw.

(** [context.fill()] *)
Definition context_fill : M unit :=
  modify_canvas (fun c =>
    set_painted (fun l =>
      l ++ [FillPath (fillStyle (state c)) (globalCompositeOperation (state c))
              (path c)]) c).

(** The state of a context that has just been created or reset. *)
Definition default_state : DrawingState :=
  mkDrawingState (RgbaString 0 0 0 1) source_over.

(** [context.canvas.width = v; context.canvas.height = v']: the attributes
    hold integers (window dimensions are never negative), and assigning
    them resets the context and clears the bitmap. *)
Definition context_canvas_set_width (v : Q) : M unit :=
  modify_canvas (fun c =>
    mkCanvas (Qfloor v) (canvas_height c) (offsetLeft c) (offsetTop c)
      default_state [] [] []).
Definition context_canvas_set_height (v : Q) : M unit :=
  modify_canvas (fun c =>
    mkCanvas (canvas_width c) (Qfloor v) (offsetLeft c) (offsetTop c)
      default_state [] [] []).

(** ** Help functions *)

(** [Math.round]: the nearest integer, halves towards plus infinity. *)
Definition Math_round (q : Q) : Z := Qfloor (q + 0.5).

(** [Math.max] of two numbers. *)
Definition Math_max (p q : Q) : Q := if Qle_bool p q then q else p.

Definition rgbaToString (c : rgba) : CssColor :=
  RgbaString (Math_round (r c)) (Math_round (g c)) (Math_round (b c)) (a c).

(** A mouse event. *)
Record MouseEvent : Type := mkMouseEvent { clientX : Q; clientY : Q }.

(** A quotient of two numbers; [None] where JavaScript yields [Infinity],
    [-Infinity] or [NaN], which are no rationals. *)
Definition quotient (p q : Q) : option Q :=
  if Qeq_bool q 0 then None else Some (p / q)%Q.

(** [getCanvasPos(mouseevent, canvas)]: the function writes the fields [x]
    and [y] of its [this] and returns a new object; the result is the
    pair of the final [this] and the two fields of the object returned. *)
Definition getCanvasPos (mouseevent : MouseEvent) (canvas : Canvas)
    : vec2 * (option Q * option Q) :=
  let this_x := clientX mouseevent in
  let this_y := clientY mouseevent in
  let this_x := (this_x - inject_Z (offsetLeft canvas))%Q in
  let this_y := (this_y - inject_Z (offsetTop canvas))%Q in
  (Vec2 this_x this_y,
   (quotient this_x (inject_Z (canvas_width canvas)),
    quotient this_y (inject_Z (canvas_height canvas)))).

(** ** Particle renderers *)

Definition SquareParticleRenderer_draw (particle : Particle) : M unit :=
  c ← read_rgba (color particle);
  context_set_fillStyle (rgbaToString c);;
  px ← get_x (pos particle); py ← get_y (pos particle);
  sx ← get_x (size particle); sy ← get_y (size particle);
  context_fillRect px py sx sy.

Definition RoundParticleRenderer_draw (particle : Particle) : M unit :=
  context_beginPath;;
  c ← read_rgba (color particle);
  context_set_fillStyle (rgbaToString c);;
  sx ← get_x (size particle); sy ← get_y (size particle);
  let radius := (Math_max sx sy / 2)%Q in
  px ← get_x (pos particle); py ← get_y (pos particle);
  context_arc (px + radius) (py + radius) radius;;
  context_fill.

Definition renderer_draw (rd : Renderer) (particle : Particle) : M unit :=
  match rd with
  | SquareParticleRenderer => SquareParticleRenderer_draw particle
  | RoundParticleRenderer => RoundParticleRenderer_draw particle
  end.

(** ** Animators: drawing *)

Definition DefaultParticleAnimator_draw (ps : list Particle)
    (particleRenderer : Renderer) : M unit :=
  for_each (renderer_draw particleRenderer) ps.

Definition FancyParticleAnimator_draw (ps : list Particle)
    (particleRenderer : Renderer) : M unit :=
  context_set_globalCompositeOperation lighter;;
  for_each (renderer_draw particleRenderer) ps.

Definition animator_draw (an : Animator) (ps : list Particle)
    (particleRenderer : Renderer) : M unit :=
  match an with
  | DefaultParticleAnimator => DefaultParticleAnimator_draw ps particleRenderer
  | FancyParticleAnimator => FancyParticleAnimator_draw ps particleRenderer
  end.

(** ** ParticleSystem *)

(** [new ParticleSystem(canvasId)] in a page described by [h]: the object
    literals of the constructor are allocated in source order. *)
Definition new_ParticleSystem (h : Host) : World :=
  mkWorld
    [ Vec2 1 1; Vec2 0.5 0.5; Vec2 0 0 ]
    [ Rgba 0 0 0 1; Rgba 255 255 255 1 ]
    h false
    (mkParticleSystem false 0%nat 500 1 0 0%nat 1%nat 1%nat
       RoundParticleRenderer DefaultParticleAnimator [] 2%nat 0 0).

(** [ParticleSystem.prototype.resize] *)
Definition ParticleSystem_resize : M unit :=
  w ← get;
  (if autoResize (this w) then
     context_canvas_set_width (inject_Z (innerWidth (host w)) * 0.99);;
     context_canvas_set_height (inject_Z (innerHeight (host w)) * 0.99)
   else mret tt);;
  c ← read_canvas;
  modify (set_this (set_dimensions (inject_Z (canvas_width c))
                      (inject_Z (canvas_height c)))).

(** [ParticleSystem.prototype.initialize]: [getContext] is called on
    [null] when the page has no such element. *)
Definition ParticleSystem_initialize : M unit :=
  w ← get;
  match element (host w) with
  | None => throw
  | Some _ =>
      modify (set_context true);;
      ParticleSystem_resize;;
      w ← get;
      bg ← read_rgba (backgroundColor (this w));
      context_set_fillStyle (rgbaToString bg);;
      context_save
  end.

(** The body of the spawn loop of [update]. *)
Definition spawn : M unit :=
  w ← get;
  xypos ← extend_vec (var_particleOrigin (this w));
  xysize ← extend_vec (particleSize (this w));
  rgbacolor ← extend_rgba (particleColor (this w));
  particle ← new_Particle xypos xysize rgbacolor (particleSpeed (this w));
  modify (set_this (set_particles (fun ps => ps ++ [particle]))).

(** [particles.shift()] *)
Definition shift (ps : list Particle) : list Particle := tail ps.

(** [while (particles.length > maxParticles) particles.shift();] on an
    array [ps]: shifting an empty array leaves it empty, so the loop never
    ends once the array is empty and its length still exceeds the cap. *)
Fixpoint shift_while_over (cap : Z) (ps : list Particle) : Outcome (list Particle) :=
  match ps with
  | [] => if (Z.of_nat (length ps) >? cap)%Z then Loops else Returns ps
  | _ :: ps' =>          (* [ps'] is [shift ps] *)
      if (Z.of_nat (length ps) >? cap)%Z
      then shift_while_over cap ps'
      else Returns ps
  end.

Definition trim : M unit := fun w =>
  match shift_while_over (maxParticles (this w)) (particles (this w)) with
  | Returns ps => Returns (tt, set_this (set_particles (fun _ => ps)) w)
  | Throws => Throws
  | Loops => Loops
  end.

(** The statements of [update] up to and including the spawn loop: the
    test [i < this.particlesPerUpdate] holds for [i] from 0 to
    [particlesPerUpdate - 1], and never when the rate is not positive. *)
Definition age_and_spawn : M unit :=
  w ← get;
  animator_update (particleAnimator (this w)) (particles (this w));;
  w ← get;
  o ← read_vec (particleOrigin (this w));
  l ← new_vec (Vec2 (width (this w) * x o) (height (this w) * y o));
  modify (set_this (set_var_particleOrigin l));;
  w ← get;
  repeat_M (Z.to_nat (particlesPerUpdate (this w))) spawn.

(** [ParticleSystem.prototype.update] *)
Definition ParticleSystem_update : M unit :=
  age_and_spawn;; trim.

(** The first four statements of [draw]. *)
Definition repaint_background : M unit :=
  context_restore;;
  w ← get;
  context_clearRect 0 0 (width (this w)) (height (this w));;
  context_fillRect 0 0 (width (this w)) (height (this w));;
  context_save.

(** [ParticleSystem.prototype.draw] *)
Definition ParticleSystem_draw : M unit :=
  repaint_background;;
  w ← get;
  animator_draw (particleAnimator (this w)) (particles (this w))
    (particleRenderer (this w)).

(** The callback [loop] given to [setInterval]. *)
Definition loop : M unit :=
  ParticleSystem_draw;; ParticleSystem_update.

(** [ParticleSystem.prototype.run], observed after the timer has fired
    [ticks] times. *)
Definition ParticleSystem_run (ticks : nat) : M unit :=
  ParticleSystem_initialize;; repeat_M ticks loop.

(** ** The owner of the system

    Between two ticks the page that owns the system may call its methods
    and assign its public fields, either with a new object literal
    ([Set_*]) or by writing the fields of the object already there
    ([Write_*]).  The array [particles] is a variable of the closure: the
    owner holds no reference into it. *)

Inductive Op : Type :=
| Initialize
| Resize
| Draw
| Update
| Set_autoResize (v : bool)
| Set_maxParticles (v : Z)
| Set_particlesPerUpdate (v : Z)
| Set_particleSpeed (v : Q)
| Set_particleRenderer (v : Renderer)
| Set_particleAnimator (v : Animator)
| Set_backgroundColor (v : rgba)
| Set_particleSize (v : vec2)
| Set_particleColor (v : rgba)
| Set_particleOrigin (v : vec2)
| Write_backgroundColor (v : rgba)
| Write_particleSize (v : vec2)
| Write_particleColor (v : rgba)
| Write_particleOrigin (v : vec2).

Definition with_autoResize (v : bool) (s : ParticleSystem) : ParticleSystem :=
  mkParticleSystem v (backgroundColor s) (maxParticles s)
    (particlesPerUpdate s) (particleSpeed s) (particleSize s) (particleColor s)
    (particleOrigin s) (particleRenderer s) (particleAnimator s)
    (particles s) (var_particleOrigin s) (height s) (width s).
Definition with_backgroundColor (v : loc) (s : ParticleSystem) : ParticleSystem :=
  mkParticleSystem (autoResize s) v (maxParticles s)
    (particlesPerUpdate s) (particleSpeed s) (particleSize s) (particleColor s)
    (particleOrigin s) (particleRenderer s) (particleAnimator s)
    (particles s) (var_particleOrigin s) (height s) (width s).
Definition with_maxParticles (v : Z) (s : ParticleSystem) : ParticleSystem :=
  mkParticleSystem (autoResize s) (backgroundColor s) v
    (particlesPerUpdate s) (particleSpeed s) (particleSize s) (particleColor s)
    (particleOrigin s) (particleRenderer s) (particleAnimator s)
    (particles s) (var_particleOrigin s) (height s) (width s).
Definition with_particlesPerUpdate (v : Z) (s : ParticleSystem) : ParticleSystem :=
  mkParticleSystem (autoResize s) (backgroundColor s) (maxParticles s)
    v (particleSpeed s) (particleSize s) (particleColor s)
    (particleOrigin s) (particleRenderer s) (particleAnimator s)
    (particles s) (var_particleOrigin s) (height s) (width s).
Definition with_particleSpeed (v : Q) (s : ParticleSystem) : ParticleSystem :=
  mkParticleSystem (autoResize s) (backgroundColor s) (maxParticles s)
    (particlesPerUpdate s) v (particleSize s) (particleColor s)
    (particleOrigin s) (particleRenderer s) (particleAnimator s)
    (particles s) (var_particleOrigin s) (height s) (width s).
Definition with_particleSize (v : loc) (s : ParticleSystem) : ParticleSystem :=
  mkParticleSystem (autoResize s) (backgroundColor s) (maxParticles s)
    (particlesPerUpdate s) (particleSpeed s) v (particleColor s)
    (particleOrigin s) (particleRenderer s) (particleAnimator s)
    (particles s) (var_particleOrigin s) (height s) (width s).
Definition with_particleColor (v : loc) (s : ParticleSystem) : ParticleSystem :=
  mkParticleSystem (autoResize s) (backgroundColor s) (maxParticles s)
    (particlesPerUpdate s) (particleSpeed s) (particleSize s) v
    (particleOrigin s) (particleRenderer s) (particleAnimator s)
    (particles s) (var_particleOrigin s) (height s) (width s).
Definition with_particleOrigin (v : loc) (s : ParticleSystem) : ParticleSystem :=
  mkParticleSystem (autoResize s) (backgroundColor s) (maxParticles s)
    (particlesPerUpdate s) (particleSpeed s) (particleSize s) (particleColor s)
    v (particleRenderer s) (particleAnimator s)
    (particles s) (var_particleOrigin s) (height s) (width s).
Definition with_particleRenderer (v : Renderer) (s : ParticleSystem) : ParticleSystem :=
  mkParticleSystem (autoResize s) (backgroundColor s) (maxParticles s)
    (particlesPerUpdate s) (particleSpeed s) (particleSize s) (particleColor s)
    (particleOrigin s) v (particleAnimator s)
    (particles s) (var_particleOrigin s) (height s) (width s).
Definition with_particleAnimator (v : Animator) (s : ParticleSystem) : ParticleSystem :=
  mkParticleSystem (autoResize s) (backgroundColor s) (maxParticles s)
    (particlesPerUpdate s) (particleSpeed s) (particleSize s) (particleColor s)
    (particleOrigin s) (particleRenderer s) v
    (particles s) (var_particleOrigin s) (height s) (width s).

Definition step (o : Op) : M unit :=
  match o with
  | Initialize => ParticleSystem_initialize
  | Resize => ParticleSystem_resize
  | Draw => ParticleSystem_draw
  | Update => ParticleSystem_update
  | Set_autoResize v => modify (set_this (with_autoResize v))
  | Set_maxParticles v => modify (set_this (with_maxParticles v))
  | Set_particlesPerUpdate v => modify (set_this (with_particlesPerUpdate v))
  | Set_particleSpeed v => modify (set_this (with_particleSpeed v))
  | Set_particleRenderer v => modify (set_this (with_particleRenderer v))
  | Set_particleAnimator v => modify (set_this (with_particleAnimator v))
  | Set_backgroundColor v =>
      l ← new_rgba v; modify (set_this (with_backgroundColor l))
  | Set_particleSize v =>
      l ← new_vec v; modify (set_this (with_particleSize l))
  | Set_particleColor v =>
      l ← new_rgba v; modify (set_this (with_particleColor l))
  | Set_particleOrigin v =>
      l ← new_vec v; modify (set_this (with_particleOrigin l))
  | Write_backgroundColor v =>
      w ← get; write_rgba (backgroundColor (this w)) v
  | Write_particleSize v =>
      w ← get; write_vec (particleSize (this w)) v
  | Write_particleColor v =>
      w ← get; write_rgba (particleColor (this w)) v
  | Write_particleOrigin v =>
      w ← get; write_vec (particleOrigin (this w)) v
  end.

Definition run_ops (l : list Op) : M unit := for_each step l.

(** ** Well-formed worlds *)

(** The objects written by an animator through a particle. *)
Definition aged_locs (p : Particle) : list loc := [pos p; size p].

(** All the [{x, y}] objects of a particle. *)
Definition vec_locs (p : Particle) : list loc := [pos p; size p; velocity p].

(** Every reference of the particle holds an object. *)
Definition valid_particle (w : World) (p : Particle) : Prop :=
  (pos p < length (vecs w) /\ size p < length (vecs w) /\
   velocity p < length (vecs w) /\ color p < length (cols w))%nat.

(** No object is shared between two particles, nor between two fields of
    one particle. *)
Definition separated (ps : list Particle) : Prop :=
  NoDup (ps ≫= vec_locs) /\ NoDup (color <$> ps).

(** The particles are in the order their position objects were
    allocated.  The store only grows, and [update] allocates the position
    object of a particle when it spawns it: this is the order of spawning. *)
Definition spawn_order (ps : list Particle) : Prop :=
  forall (i j : nat) (p q : Particle),
    ps !! i = Some p -> ps !! j = Some q -> (i < j)%nat -> (pos p < pos q)%nat.

(** The worlds the system is meant to be in, and is in as long as only
    its own methods and its owner's assignments act on it: the particles
    are valid, share nothing with each other or with the templates, and
    are in spawn order. *)
Record wf (w : World) : Prop := mk_wf {
  wf_valid : Forall (valid_particle w) (particles (this w));
  wf_separated : separated (particles (this w));
  wf_order : spawn_order (particles (this w));
  wf_background : (backgroundColor (this w) < length (cols w))%nat;
  wf_size : (particleSize (this w) < length (vecs w))%nat;
  wf_color : (particleColor (this w) < length (cols w))%nat;
  wf_origin : (particleOrigin (this w) < length (vecs w))%nat;
  wf_size_private :
    particleSize (this w) ∉ particles (this w) ≫= vec_locs;
  wf_origin_private :
    particleOrigin (this w) ∉ particles (this w) ≫= vec_locs;
  wf_color_private :
    particleColor (this w) ∉ color <$> particles (this w);
  wf_background_private :
    backgroundColor (this w) ∉ color <$> particles (this w)
}.

(** ** What one pass of an animator does to the objects of a particle *)

(** [pos.x += velocity.x; pos.y += velocity.y] *)
Definition moved (P V : vec2) : vec2 := Vec2 (x P + x V) (y P + y V).

(** [size.x *= 0.98; size.y *= 0.98] *)
Definition shrunk (S : vec2) : vec2 := Vec2 (x S * 0.98) (y S * 0.98).

(** [color.a *= 0.99; color.r *= 1.02; color.b *= 0.98; color.g *= 0.98] *)
Definition shifted (C : rgba) : rgba :=
  Rgba (r C * 1.02) (g C * 0.98) (b C * 0.98) (a C * 0.99).

Definition aged_color (an : Animator) (C : rgba) : rgba :=
  match an with
  | DefaultParticleAnimator => C
  | FancyParticleAnimator => shifted C
  end.

(** The loop body of the [update] of an animator. *)
Definition update_particle (an : Animator) : Particle -> M unit :=
  match an with
  | DefaultParticleAnimator => default_update_particle
  | FancyParticleAnimator => fancy_update_particle
  end.

(** The objects a world holds for a particle. *)
Definition pos_of (w : World) (p : Particle) : option vec2 := vecs w !! pos p.
Definition size_of (w : World) (p : Particle) : option vec2 := vecs w !! size p.
Definition velocity_of (w : World) (p : Particle) : option vec2 :=
  vecs w !! velocity p.
Definition color_of (w : World) (p : Particle) : option rgba := cols w !! color p.

(** [aged an ps w w']: the world [w'] is the world [w] after one pass of
    the animator [an] over the particles [ps]. *)
Record aged (an : Animator) (ps : list Particle) (w w' : World) : Prop := mk_aged {
  aged_host : host w' = host w;
  aged_context : context w' = context w;
  aged_this : this w' = this w;
  aged_vecs_length : length (vecs w') = length (vecs w);
  aged_cols_length : length (cols w') = length (cols w);
  aged_vecs_frame :
    forall l : loc, l ∉ ps ≫= aged_locs -> vecs w' !! l = vecs w !! l;
  aged_cols_frame :
    forall l : loc, l ∉ color <$> ps -> cols w' !! l = cols w !! l;
  aged_particle :
    forall p : Particle, p ∈ ps ->
      exists (P S V : vec2) (C : rgba),
        pos_of w p = Some P /\ size_of w p = Some S /\
        velocity_of w p = Some V /\ color_of w p = Some C /\
        pos_of w' p = Some (moved P V) /\ size_of w' p = Some (shrunk S) /\
        velocity_of w' p = Some V /\ color_of w' p = Some (aged_color an C)
}.

(** ** What the spawn loop and the trimming loop do *)

(** The velocity object given to the particle spawned when [n] values of
    the random tape have been consumed. *)
Definition spawn_velocity (h : Host) (n : nat) (speed : Q) : vec2 :=
  Vec2 ((random_tape h n - 0.5) * speed) ((random_tape h (S n) - 0.5) * speed).

(** The page after [n] more calls of [Math.random()]. *)
Definition consume (n : nat) (h : Host) : Host :=
  mkHost (element h) (innerWidth h) (innerHeight h) (random_tape h)
    (n + random_next h).

(** The world after one pass of the body of the spawn loop, when the
    current origin object holds [O] and the templates hold [T] and [K]. *)
Definition after_spawn (w : World) (O T : vec2) (K : rgba) : World :=
  mkWorld
    (((vecs w ++ [O]) ++ [T]) ++
       [spawn_velocity (host w) (random_next (host w)) (particleSpeed (this w))])
    (cols w ++ [K])
    (consume 2 (host w))
    (context w)
    (set_particles (fun ps =>
       ps ++ [mkParticle (length (vecs w)) (S (length (vecs w)))
                (length (cols w)) (S (S (length (vecs w))))]) (this w)).

(** [spawned w w' new]: the world [w'] is the world [w] after the spawn
    loop has pushed the particles [new]. *)
Record spawned (w w' : World) (new : list Particle) : Prop := mk_spawned {
  spawned_vecs : vecs w `prefix_of` vecs w';
  spawned_cols : cols w `prefix_of` cols w';
  spawned_this : this w' = set_particles (fun ps => ps ++ new) (this w);
  spawned_context : context w' = context w;
  spawned_host : host w' = consume (2 * length new) (host w);
  spawned_fresh :
    forall p : Particle, p ∈ new ->
      (length (vecs w) <= pos p /\ length (vecs w) <= size p /\
       length (vecs w) <= velocity p /\ length (cols w) <= color p)%nat;
  spawned_valid : Forall (valid_particle w') new;
  spawned_separated : separated new;
  spawned_order : spawn_order new;
  spawned_contents :
    forall p : Particle, p ∈ new ->
      pos_of w' p = vecs w !! var_particleOrigin (this w) /\
      size_of w' p = vecs w !! particleSize (this w) /\
      color_of w' p = cols w !! particleColor (this w);
  spawned_velocity :
    forall (i : nat) (p : Particle), new !! i = Some p ->
      velocity_of w' p =
        Some (spawn_velocity (host w) (2 * i + random_next (host w))
                (particleSpeed (this w)))
}.

(** The public fields and the cached dimensions are the same. *)
Definition same_config (s s' : ParticleSystem) : Prop :=
  autoResize s' = autoResize s /\
  backgroundColor s' = backgroundColor s /\
  maxParticles s' = maxParticles s /\
  particlesPerUpdate s' = particlesPerUpdate s /\
  particleSpeed s' = particleSpeed s /\
  particleSize s' = particleSize s /\
  particleColor s' = particleColor s /\
  particleOrigin s' = particleOrigin s /\
  particleRenderer s' = particleRenderer s /\
  particleAnimator s' = particleAnimator s /\
  height s' = height s /\
  width s' = width s.

(** [updated w w' new]: the world [w'] is the world [w] after one call of
    [update] that spawned the particles [new]. *)
Record updated (w w' : World) (new : list Particle) : Prop := mk_updated {
  updated_config : same_config (this w) (this w');
  updated_context : context w' = context w;
  updated_host : host w' = consume (2 * length new) (host w);
  updated_batch : length new = Z.to_nat (particlesPerUpdate (this w));
  updated_particles :
    particles (this w') =
      drop (length (particles (this w) ++ new) - Z.to_nat (maxParticles (this w)))
        (particles (this w) ++ new);
  updated_separated : separated (particles (this w) ++ new);
  updated_order : spawn_order (particles (this w) ++ new);
  updated_vecs_length : (length (vecs w) <= length (vecs w'))%nat;
  updated_cols_length : (length (cols w) <= length (cols w'))%nat;
  updated_vecs_frame :
    forall l : loc,
      (l < length (vecs w))%nat ->
      (l ∉ particles (this w) ≫= aged_locs) ->
      vecs w' !! l = vecs w !! l;
  updated_cols_frame :
    forall l : loc,
      (l < length (cols w))%nat ->
      (l ∉ color <$> particles (this w)) ->
      cols w' !! l = cols w !! l;
  updated_old :
    forall p : Particle, p ∈ particles (this w) ->
      exists (P S V : vec2) (C : rgba),
        pos_of w p = Some P /\ size_of w p = Some S /\
        velocity_of w p = Some V /\ color_of w p = Some C /\
        pos_of w' p = Some (moved P V) /\ size_of w' p = Some (shrunk S) /\
        velocity_of w' p = Some V /\
        color_of w' p = Some (aged_color (particleAnimator (this w)) C);
  updated_fresh :
    forall p : Particle, p ∈ new ->
      (length (vecs w) <= pos p /\ length (vecs w) <= size p /\
       length (vecs w) <= velocity p /\ length (cols w) <= color p)%nat;
  updated_new :
    forall (i : nat) (p : Particle), new !! i = Some p ->
      exists O : vec2,
        vecs w !! particleOrigin (this w) = Some O /\
        pos_of w' p =
          Some (Vec2 (width (this w) * x O) (height (this w) * y O)) /\
        size_of w' p = vecs w !! particleSize (this w) /\
        color_of w' p = cols w !! particleColor (this w) /\
        velocity_of w' p =
          Some (spawn_velocity (host w) (2 * i + random_next (host w))
                  (particleSpeed (this w)))
}.

(** The world after [particleOrigin = { x : width * this.particleOrigin.x,
    y : height * this.particleOrigin.y }], when [this.particleOrigin]
    holds [O]. *)
Definition after_origin (w : World) (O : vec2) : World :=
  set_this (set_var_particleOrigin (length (vecs w)))
    (set_vecs (fun h =>
       h ++ [Vec2 (width (this w) * x O) (height (this w) * y O)]) w).

(** ** Frames *)

(** Every world a computation can leave behind is related to the world it
    started from. *)
Definition preserves {A : Type} (R : relation World) (m : M A) : Prop :=
  forall (w w' : World) (v : A), m w = Returns (v, w') -> R w w'.

(** The colour objects are the same. *)
Definition same_cols (w w' : World) : Prop := cols w' = cols w.

(** The store and the system are the same, the cached dimensions apart. *)
Definition same_store (w w' : World) : Prop :=
  vecs w' = vecs w /\ cols w' = cols w /\
  exists wd hg : Q, this w' = set_dimensions wd hg (this w).

(** The global [context] and the canvas it draws on are the same. *)
Definition same_canvas (w w' : World) : Prop :=
  context w' = context w /\ element (host w') = element (host w).

(** What painting may change of a canvas: the current drawing state, the
    path, and the bitmap, which is only painted over. *)
Definition painted_over (c c' : option Canvas) : Prop :=
  match c, c' with
  | Some cv, Some cv' =>
      saved cv' = saved cv /\ painted cv `prefix_of` painted cv'
  | None, None => True
  | _, _ => False
  end.

Definition paints (w w' : World) : Prop :=
  vecs w' = vecs w /\ cols w' = cols w /\ this w' = this w /\
  context w' = context w /\
  painted_over (element (host w)) (element (host w')).

(** [initialize] has run and no later call has reset the canvas: the
    state on top of the stack of saved states has the fill style [c]. *)
Definition primed (c : CssColor) (w : World) : Prop :=
  context w = true /\
  exists (cv : Canvas) (s : DrawingState) (rest : list DrawingState),
    element (host w) = Some cv /\ saved cv = s :: rest /\ fillStyle s = c.

(** The background that the next [draw] paints: the two entries it adds
    to the bitmap first. *)
Definition background_of (w w' : World) : option (Paint * Paint) :=
  match element (host w), element (host w') with
  | Some cv, Some cv' =>
      match drop (length (painted cv)) (painted cv') with
      | p1 :: p2 :: _ => Some (p1, p2)
      | _ => None
      end
  | _, _ => None
  end.

(** ** Reachable worlds *)

(** The worlds the page can bring a newly constructed system to. *)
Definition reachable (w : World) : Prop :=
  exists (h : Host) (l : list Op),
    run_ops l (new_ParticleSystem h) = Returns (tt, w).

(** The number of live particles. *)
Definition count (w : World) : Z := Z.of_nat (length (particles (this w))).

(** ** A concrete page, for examples *)

Definition example_canvas : Canvas :=
  mkCanvas 200 100 10 10 default_state [] [] [].

(** The random tape cycles through 0, 1/4, 1/2, 3/4. *)
Definition example_page : Host :=
  mkHost (Some example_canvas) 1000 800
    (fun n => inject_Z (Z.of_nat (n mod 4)) / 4)%Q 0.

(** The world of a system whose owner has set a cap of 3 particles, 5
    particles per update and a speed of 10, and has then called
    [initialize]. *)
Definition example_world : World :=
  mkWorld
    [ Vec2 1 1; Vec2 0.5 0.5; Vec2 0 0 ]
    [ Rgba 0 0 0 1; Rgba 255 255 255 1 ]
    (mkHost
       (Some (mkCanvas 200 100 10 10 default_state [default_state] [] []))
       1000 800 (random_tape example_page) 0)
    true
    (mkParticleSystem false 0%nat 3 5 10 0%nat 1%nat 1%nat
       RoundParticleRenderer DefaultParticleAnimator [] 2%nat 100 200).

(** Two particles in flight. *)
Definition example_particles : list Particle :=
  [ mkParticle 3 4 2 5; mkParticle 6 7 3 8 ].

(** A world in which the system of [example_world] holds them. *)
Definition example_flock : World :=
  mkWorld
    [ Vec2 1 1; Vec2 0.5 0.5; Vec2 100 50;
      Vec2 100 50; Vec2 1 1; Vec2 2.5 (-5);
      Vec2 97.5 50; Vec2 0.98 0.98; Vec2 (-2.5) 0 ]
    [ Rgba 0 0 0 1; Rgba 255 255 255 1; Rgba 255 255 255 1; Rgba 200 100 50 0.5 ]
    (host example_world)
    true
    (set_particles (fun _ => example_particles) (this example_world)).

(** ** Objects out of reach *)

(** No live particle has the object at [v] as its position or size, and
    [v] is neither of the two [{x, y}] templates: no statement of the
    system and no assignment of its owner writes it. *)
Definition untouchable (v : loc) (w : World) : Prop :=
  (v < length (vecs w))%nat /\
  (v ∉ particles (this w) ≫= aged_locs) /\
  v <> particleSize (this w) /\
  v <> particleOrigin (this w).

(** The operations that neither bind the context anew nor reset it. *)
Definition keeps_context (o : Op) : Prop :=
  match o with
  | Initialize | Resize => False
  | _ => True
  end.

(** The global [context] is the same and the canvas is still there. *)
Definition keeps_bound (w w' : World) : Prop :=
  context w' = context w /\
  (is_Some (element (host w)) -> is_Some (element (host w'))).

(** The world [example_world] before its owner called [initialize]. *)
Definition example_world_new : World :=
  set_this (fun s => with_maxParticles 3
                       (with_particlesPerUpdate 5 (with_particleSpeed 10 s)))
    (new_ParticleSystem example_page).

(** The world a run leaves behind, for runs that are known to return. *)
Definition world_of (o : Outcome (unit * World)) : World :=
  match o with
  | Returns (_, w) => w
  | _ => example_world
  end.

(** Two ticks of [example_world] between which the owner writes red into
    the background colour object. *)
Definition example_ticks : list Op :=
  [Update; Write_backgroundColor (Rgba 255 0 0 1); Draw; Update].

Definition example_after_ticks : World :=
  world_of (run_ops example_ticks example_world).

(** A new system on the example page that is initialized, and whose owner
    then turns the background red, by assignment or in place. *)
Definition example_red_assigned : World :=
  world_of (run_ops [Initialize; Set_backgroundColor (Rgba 255 0 0 1)]
              (new_ParticleSystem example_page)).

Definition example_red_written : World :=
  world_of (run_ops [Initialize; Write_backgroundColor (Rgba 255 0 0 1)]
              (new_ParticleSystem example_page)).

(** An array that holds the first example particle twice. *)
Definition example_shared : list Particle :=
  [ mkParticle 3 4 2 5; mkParticle 3 4 2 5 ].

(** What a reader of the bitmap and of the array sees after a run. *)
Definition observe (o : Outcome (unit * World)) : option (Z * list Paint) :=
  match o with
  | Returns (_, w) =>
      match element (host w) with
      | Some cv => Some (count w, painted cv)
      | None => None
      end
  | _ => None
  end.

(** ** More worlds, for examples *)

(** [example_world] after one call of [update]: three particles. *)
Definition example_populated : World :=
  world_of (run_ops [Update] example_world).

(** [example_world] after its owner has set a negative cap. *)
Definition example_uncapped : World :=
  set_this (with_maxParticles (-1)) example_world.



(** [example_world] after its owner has assigned a negative size and
    called [update]. *)
Definition example_negative : World :=
  world_of (run_ops [Set_particleSize (Vec2 (-1) (-1)); Update] example_world).

(** A system with a red background and [autoResize], initialized on the
    example page. *)
Definition example_red_auto : World :=
  world_of (run_ops [Set_backgroundColor (Rgba 255 0 0 1); Set_autoResize true;
                     Initialize] (new_ParticleSystem example_page)).

(** ** What is painted *)

(** The world in which the canvas is [cv]. *)
Definition with_canvas (cv : Canvas) (w : World) : World :=
  set_host (set_element (fun _ => cv)) w.

(** The state that [restore()] makes current. *)
Definition restored (cv : Canvas) : DrawingState :=
  match saved cv with
  | [] => state cv
  | s :: _ => s
  end.

(** The shape that a renderer paints for a particle whose position, size
    and colour objects hold [P], [S] and [C], under the compositing
    operation [op]. *)
Definition particle_paint (rd : Renderer) (op : Composite) (P S : vec2)
    (C : rgba) : Paint :=
  match rd with
  | SquareParticleRenderer =>
      FillRect (rgbaToString C) op (x P) (y P) (x S) (y S)
  | RoundParticleRenderer =>
      let radius := (Math_max (x S) (y S) / 2)%Q in
      FillPath (rgbaToString C) op [mkCircle (x P + radius) (y P + radius) radius]
  end.

Definition paint_of (w : World) (rd : Renderer) (op : Composite)
    (p : Particle) : option Paint :=
  P ← pos_of w p; S ← size_of w p; C ← color_of w p;
  Some (particle_paint rd op P S C).

(** The canvas after a renderer has drawn such a particle on [cv]. *)
Definition rendered (rd : Renderer) (P S : vec2) (C : rgba) (cv : Canvas)
    : Canvas :=
  mkCanvas (canvas_width cv) (canvas_height cv) (offsetLeft cv) (offsetTop cv)
    (mkDrawingState (rgbaToString C) (globalCompositeOperation (state cv)))
    (saved cv)
    (match rd with
     | SquareParticleRenderer => path cv
     | RoundParticleRenderer =>
         [mkCircle (x P + Math_max (x S) (y S) / 2)
            (y P + Math_max (x S) (y S) / 2) (Math_max (x S) (y S) / 2)]
     end)
    (painted cv ++
       [particle_paint rd (globalCompositeOperation (state cv)) P S C]).

(** The round renderer can draw the particle: its size is not negative on
    both axes.  The square renderer draws any particle. *)
Definition drawable (w : World) (rd : Renderer) (p : Particle) : Prop :=
  match rd with
  | SquareParticleRenderer => True
  | RoundParticleRenderer =>
      exists S : vec2, size_of w p = Some S /\ (0 <= x S \/ 0 <= y S)%Q
  end.

(** The canvas after the first four statements of [draw], when the cached
    dimensions are [W] and [H]. *)
Definition repainted (W H : Q) (cv : Canvas) : Canvas :=
  mkCanvas (canvas_width cv) (canvas_height cv) (offsetLeft cv) (offsetTop cv)
    (restored cv) (restored cv :: tail (saved cv)) (path cv)
    (painted cv ++
       [ ClearRect 0 0 W H;
         FillRect (fillStyle (restored cv))
           (globalCompositeOperation (restored cv)) 0 0 W H ]).

(** The compositing operation under which an animator has the particles
    drawn, when [op] is the current one. *)
Definition animator_composite (an : Animator) (op : Composite) : Composite :=
  match an with
  | DefaultParticleAnimator => op
  | FancyParticleAnimator => lighter
  end.

(** ** What the timer loop needs *)

(** A size that is negative on no axis. *)
Definition nonneg (S : vec2) : Prop := (0 <= x S /\ 0 <= y S)%Q.

(** No size is negative: neither the size template, which [update] copies
    for each particle it spawns, nor the size of a live particle. *)
Definition nonneg_sizes (w : World) : Prop :=
  (exists T : vec2, vecs w !! particleSize (this w) = Some T /\ nonneg T) /\
  forall p : Particle, p ∈ particles (this w) ->
    exists S : vec2, size_of w p = Some S /\ nonneg S.

(** What [loop] needs to return, and keeps. *)
Record running (w : World) : Prop := mk_running {
  running_wf : wf w;
  running_context : context w = true;
  running_element : is_Some (element (host w));
  running_sizes : nonneg_sizes w;
  running_cap : (0 <= maxParticles (this w))%Z
}.

(** The operations by which the owner assigns no negative size. *)
Definition keeps_sizes (o : Op) : Prop :=
  match o with
  | Set_particleSize v | Write_particleSize v => nonneg v
  | _ => True
  end.

(** What the system keeps as long as its owner assigns no negative size:
    the world is well-formed, no size is negative, the size template is
    not the origin template, and a bound context has its canvas. *)
Record sound (w : World) : Prop := mk_sound {
  sound_wf : wf w;
  sound_sizes : nonneg_sizes w;
  sound_templates : particleSize (this w) <> particleOrigin (this w);
  sound_bound : context w = true -> is_Some (element (host w))
}.

(** ** What [resize] and [initialize] leave *)

(** The canvas that [resize] leaves: with [autoResize] the canvas takes
    99% of the window, and assigning its dimensions resets the context. *)
Definition resized (w : World) (cv : Canvas) : Canvas :=
  if autoResize (this w) then
    mkCanvas (Qfloor (inject_Z (innerWidth (host w)) * 0.99))
      (Qfloor (inject_Z (innerHeight (host w)) * 0.99))
      (offsetLeft cv) (offsetTop cv) default_state [] [] []
  else cv.

(** The world after [resize], when the canvas is [cv]. *)
Definition after_resize (w : World) (cv : Canvas) : World :=
  set_this (set_dimensions (inject_Z (canvas_width (resized w cv)))
              (inject_Z (canvas_height (resized w cv))))
    (with_canvas (resized w cv) w).

(** The canvas after the last two statements of [initialize], which read
    the background colour [bg]. *)
Definition initialized (bg : rgba) (cv : Canvas) : Canvas :=
  mkCanvas (canvas_width cv) (canvas_height cv) (offsetLeft cv) (offsetTop cv)
    (mkDrawingState (rgbaToString bg) (globalCompositeOperation (state cv)))
    (mkDrawingState (rgbaToString bg) (globalCompositeOperation (state cv))
       :: saved cv)
    (path cv) (painted cv).

(** The world after [initialize], when the page has the canvas [cv] and
    the background colour object holds [bg]. *)
Definition after_initialize (w : World) (cv : Canvas) (bg : rgba) : World :=
  with_canvas (initialized bg (resized w cv))
    (after_resize (set_context true w) cv).

(** The operations other than [initialize]. *)
Definition not_Initialize (o : Op) : Prop :=
  match o with
  | Initialize => False
  | _ => True
  end.

(** * Properties *)

(** ** The monad *)

Lemma bind_Returns {A B : Type} (m : M A) (f : A -> M B) (w w' : World) (v : A) :
  m w = Returns (v, w') -> (m ≫= f) w = f v w'.
Proof. intros H. unfold mbind, M_bind. by rewrite H. Qed.

Lemma bind_inv {A B : Type} (m : M A) (f : A -> M B) (w : World) (o : B * World) :
  (m ≫= f) w = Returns o ->
  exists v w', m w = Returns (v, w') /\ f v w' = Returns o.
Proof.
  unfold mbind, M_bind. destruct (m w) as [[v w']| |]; try discriminate.
  intros H. by exists v, w'.
Qed.

(** ** Field reads and writes *)

Lemma read_vec_Returns (w : World) (l : loc) (v : vec2) :
  vecs w !! l = Some v -> read_vec l w = Returns (v, w).
Proof. unfold read_vec. by intros ->. Qed.

Lemma read_rgba_Returns (w : World) (l : loc) (c : rgba) :
  cols w !! l = Some c -> read_rgba l w = Returns (c, w).
Proof. unfold read_rgba. by intros ->. Qed.

Lemma write_vec_Returns (w : World) (l : loc) (v v' : vec2) :
  vecs w !! l = Some v ->
  write_vec l v' w = Returns (tt, set_vecs (fun h => <[l := v']> h) w).
Proof.
  intros H. unfold write_vec.
  by rewrite (bind_Returns _ _ _ _ _ (read_vec_Returns _ _ _ H)).
Qed.

Lemma write_rgba_Returns (w : World) (l : loc) (c c' : rgba) :
  cols w !! l = Some c ->
  write_rgba l c' w = Returns (tt, set_cols (fun h => <[l := c']> h) w).
Proof.
  intros H. unfold write_rgba.
  by rewrite (bind_Returns _ _ _ _ _ (read_rgba_Returns _ _ _ H)).
Qed.

Lemma get_x_Returns (w : World) (l : loc) (v : vec2) :
  vecs w !! l = Some v -> get_x l w = Returns (x v, w).
Proof.
  intros H. unfold get_x.
  by rewrite (bind_Returns _ _ _ _ _ (read_vec_Returns _ _ _ H)).
Qed.

Lemma get_y_Returns (w : World) (l : loc) (v : vec2) :
  vecs w !! l = Some v -> get_y l w = Returns (y v, w).
Proof.
  intros H. unfold get_y.
  by rewrite (bind_Returns _ _ _ _ _ (read_vec_Returns _ _ _ H)).
Qed.

Lemma set_x_Returns (w : World) (l : loc) (v : vec2) (q : Q) :
  vecs w !! l = Some v ->
  set_x l q w = Returns (tt, set_vecs (fun h => <[l := Vec2 q (y v)]> h) w).
Proof.
  intros H. unfold set_x.
  rewrite (bind_Returns _ _ _ _ _ (read_vec_Returns _ _ _ H)).
  by apply write_vec_Returns with v.
Qed.

Lemma set_y_Returns (w : World) (l : loc) (v : vec2) (q : Q) :
  vecs w !! l = Some v ->
  set_y l q w = Returns (tt, set_vecs (fun h => <[l := Vec2 (x v) q]> h) w).
Proof.
  intros H. unfold set_y.
  rewrite (bind_Returns _ _ _ _ _ (read_vec_Returns _ _ _ H)).
  by apply write_vec_Returns with v.
Qed.

Lemma vecs_set_vecs (f : list vec2 -> list vec2) (w : World) :
  vecs (set_vecs f w) = f (vecs w).
Proof. reflexivity. Qed.

Lemma cols_set_cols (f : list rgba -> list rgba) (w : World) :
  cols (set_cols f w) = f (cols w).
Proof. reflexivity. Qed.

Lemma get_r_Returns (w : World) (l : loc) (c : rgba) :
  cols w !! l = Some c -> get_r l w = Returns (r c, w).
Proof.
  intros H. unfold get_r.
  by rewrite (bind_Returns _ _ _ _ _ (read_rgba_Returns _ _ _ H)).
Qed.

Lemma get_g_Returns (w : World) (l : loc) (c : rgba) :
  cols w !! l = Some c -> get_g l w = Returns (g c, w).
Proof.
  intros H. unfold get_g.
  by rewrite (bind_Returns _ _ _ _ _ (read_rgba_Returns _ _ _ H)).
Qed.

Lemma get_b_Returns (w : World) (l : loc) (c : rgba) :
  cols w !! l = Some c -> get_b l w = Returns (b c, w).
Proof.
  intros H. unfold get_b.
  by rewrite (bind_Returns _ _ _ _ _ (read_rgba_Returns _ _ _ H)).
Qed.

Lemma get_a_Returns (w : World) (l : loc) (c : rgba) :
  cols w !! l = Some c -> get_a l w = Returns (a c, w).
Proof.
  intros H. unfold get_a.
  by rewrite (bind_Returns _ _ _ _ _ (read_rgba_Returns _ _ _ H)).
Qed.

Lemma set_r_Returns (w : World) (l : loc) (c : rgba) (q : Q) :
  cols w !! l = Some c ->
  set_r l q w =
    Returns (tt, set_cols (fun h => <[l := Rgba q (g c) (b c) (a c)]> h) w).
Proof.
  intros H. unfold set_r.
  rewrite (bind_Returns _ _ _ _ _ (read_rgba_Returns _ _ _ H)).
  by apply write_rgba_Returns with c.
Qed.

Lemma set_g_Returns (w : World) (l : loc) (c : rgba) (q : Q) :
  cols w !! l = Some c ->
  set_g l q w =
    Returns (tt, set_cols (fun h => <[l := Rgba (r c) q (b c) (a c)]> h) w).
Proof.
  intros H. unfold set_g.
  rewrite (bind_Returns _ _ _ _ _ (read_rgba_Returns _ _ _ H)).
  by apply write_rgba_Returns with c.
Qed.

Lemma set_b_Returns (w : World) (l : loc) (c : rgba) (q : Q) :
  cols w !! l = Some c ->
  set_b l q w =
    Returns (tt, set_cols (fun h => <[l := Rgba (r c) (g c) q (a c)]> h) w).
Proof.
  intros H. unfold set_b.
  rewrite (bind_Returns _ _ _ _ _ (read_rgba_Returns _ _ _ H)).
  by apply write_rgba_Returns with c.
Qed.

Lemma set_a_Returns (w : World) (l : loc) (c : rgba) (q : Q) :
  cols w !! l = Some c ->
  set_a l q w =
    Returns (tt, set_cols (fun h => <[l := Rgba (r c) (g c) (b c) q]> h) w).
Proof.
  intros H. unfold set_a.
  rewrite (bind_Returns _ _ _ _ _ (read_rgba_Returns _ _ _ H)).
  by apply write_rgba_Returns with c.
Qed.

(** The four colour statements of the fancy animator, in source order. *)
Lemma shift_color_Returns (w : World) (l : loc) (C : rgba) :
  cols w !! l = Some C ->
  (ca ← get_a l; set_a l (ca * 0.99);;
   cr ← get_r l; set_r l (cr * 1.02);;
   cb ← get_b l; set_b l (cb * 0.98);;
   cg ← get_g l; set_g l (cg * 0.98)) w =
    Returns (tt, set_cols (fun h => <[l := shifted C]> h) w).
Proof.
  intros HC. pose proof (lookup_lt_Some _ _ _ HC) as Hl.
  rewrite (bind_Returns _ _ _ _ _ (get_a_Returns _ _ _ HC)).
  rewrite (bind_Returns _ _ _ _ _ (set_a_Returns _ _ _ _ HC)).
  set (w1 := set_cols _ w).
  assert (H1 : cols w1 !! l = Some (Rgba (r C) (g C) (b C) (a C * 0.99)))
    by (apply list_lookup_insert_eq; done).
  rewrite (bind_Returns _ _ _ _ _ (get_r_Returns _ _ _ H1)).
  rewrite (bind_Returns _ _ _ _ _ (set_r_Returns _ _ _ _ H1)).
  set (w2 := set_cols _ w1).
  assert (H2 : cols w2 !! l = Some (Rgba (r C * 1.02) (g C) (b C) (a C * 0.99))).
  { apply list_lookup_insert_eq. unfold w1.
    rewrite cols_set_cols, length_insert. done. }
  rewrite (bind_Returns _ _ _ _ _ (get_b_Returns _ _ _ H2)).
  rewrite (bind_Returns _ _ _ _ _ (set_b_Returns _ _ _ _ H2)).
  set (w3 := set_cols _ w2).
  assert (H3 : cols w3 !! l =
               Some (Rgba (r C * 1.02) (g C) (b C * 0.98) (a C * 0.99))).
  { apply list_lookup_insert_eq. unfold w2, w1.
    rewrite !cols_set_cols, !length_insert. done. }
  rewrite (bind_Returns _ _ _ _ _ (get_g_Returns _ _ _ H3)).
  rewrite (set_g_Returns _ _ _ _ H3).
  unfold w3, w2, w1, set_cols, shifted. simpl.
  by rewrite !list_insert_insert_eq.
Qed.

(** The first seven statements of either loop body, run on a particle
    whose position object is neither its size nor its velocity; the goal
    is left at the last assignment to [size.y]. *)
Ltac move_and_shrink w p P S V HP HS HV Hps Hpv :=
  let HPl := fresh "HPl" in
  let HSl := fresh "HSl" in
  let w1 := fresh "w1" in
  let w2 := fresh "w2" in
  let w3 := fresh "w3" in
  let H1 := fresh "H1" in
  let H1v := fresh "H1v" in
  let H2 := fresh "H2" in
  let H3 := fresh "H3" in
  pose proof (lookup_lt_Some _ _ _ HP) as HPl;
  pose proof (lookup_lt_Some _ _ _ HS) as HSl;
  rewrite (bind_Returns _ _ _ _ _ (get_x_Returns _ _ _ HP));
  rewrite (bind_Returns _ _ _ _ _ (get_x_Returns _ _ _ HV));
  rewrite (bind_Returns _ _ _ _ _ (set_x_Returns _ _ _ _ HP));
  set (w1 := set_vecs _ w);
  assert (H1 : vecs w1 !! pos p = Some (Vec2 (x P + x V) (y P)))
    by (apply list_lookup_insert_eq; done);
  assert (H1v : vecs w1 !! velocity p = Some V)
    by (unfold w1; rewrite vecs_set_vecs, list_lookup_insert_ne; done);
  rewrite (bind_Returns _ _ _ _ _ (get_y_Returns _ _ _ H1));
  rewrite (bind_Returns _ _ _ _ _ (get_y_Returns _ _ _ H1v));
  rewrite (bind_Returns _ _ _ _ _ (set_y_Returns _ _ _ _ H1));
  set (w2 := set_vecs _ w1);
  assert (H2 : vecs w2 !! size p = Some S)
    by (unfold w2, w1; rewrite !vecs_set_vecs, !list_lookup_insert_ne; done);
  rewrite (bind_Returns _ _ _ _ _ (get_x_Returns _ _ _ H2));
  rewrite (bind_Returns _ _ _ _ _ (set_x_Returns _ _ _ _ H2));
  set (w3 := set_vecs _ w2);
  assert (H3 : vecs w3 !! size p = Some (Vec2 (x S * 0.98) (y S)))
    by (apply list_lookup_insert_eq; unfold w2, w1;
        rewrite !vecs_set_vecs, !length_insert; done);
  rewrite (bind_Returns _ _ _ _ _ (get_y_Returns _ _ _ H3));
  first [ rewrite (bind_Returns _ _ _ _ _ (set_y_Returns _ _ _ _ H3))
        | rewrite (set_y_Returns _ _ _ _ H3) ];
  replace (set_vecs _ w3)
    with (set_vecs (fun h => <[size p := shrunk S]> (<[pos p := moved P V]> h)) w)
    by (unfold w3, w2, w1, set_vecs, shrunk, moved; simpl;
        by rewrite !list_insert_insert_eq);
  clear H3 H2 H1v H1; clear w3 w2 w1.

Lemma default_update_particle_Returns (w : World) (p : Particle) (P S V : vec2) :
  vecs w !! pos p = Some P ->
  vecs w !! size p = Some S ->
  vecs w !! velocity p = Some V ->
  pos p <> size p ->
  pos p <> velocity p ->
  default_update_particle p w =
    Returns (tt, set_vecs (fun h =>
      <[size p := shrunk S]> (<[pos p := moved P V]> h)) w).
Proof.
  intros HP HS HV Hps Hpv. unfold default_update_particle.
  move_and_shrink w p P S V HP HS HV Hps Hpv. done.
Qed.

Lemma fancy_update_particle_Returns (w : World) (p : Particle)
    (P S V : vec2) (C : rgba) :
  vecs w !! pos p = Some P ->
  vecs w !! size p = Some S ->
  vecs w !! velocity p = Some V ->
  cols w !! color p = Some C ->
  pos p <> size p ->
  pos p <> velocity p ->
  fancy_update_particle p w =
    Returns (tt, set_cols (fun h => <[color p := shifted C]> h)
                   (set_vecs (fun h =>
                      <[size p := shrunk S]> (<[pos p := moved P V]> h)) w)).
Proof.
  intros HP HS HV HC Hps Hpv. unfold fancy_update_particle.
  move_and_shrink w p P S V HP HS HV Hps Hpv.
  by apply shift_color_Returns.
Qed.

Lemma update_particle_Returns (an : Animator) (w : World) (p : Particle)
    (P S V : vec2) (C : rgba) :
  vecs w !! pos p = Some P ->
  vecs w !! size p = Some S ->
  vecs w !! velocity p = Some V ->
  cols w !! color p = Some C ->
  pos p <> size p ->
  pos p <> velocity p ->
  update_particle an p w =
    Returns (tt, set_cols (fun h => <[color p := aged_color an C]> h)
                   (set_vecs (fun h =>
                      <[size p := shrunk S]> (<[pos p := moved P V]> h)) w)).
Proof.
  intros HP HS HV HC Hps Hpv. destruct an.
  - unfold update_particle, aged_color.
    rewrite (default_update_particle_Returns w p P S V) by done.
    unfold set_cols, set_vecs. cbn [vecs cols host context this].
    by rewrite (list_insert_id _ _ _ HC).
  - by apply fancy_update_particle_Returns.
Qed.

Lemma animator_update_for_each (an : Animator) (ps : list Particle) :
  animator_update an ps = for_each (update_particle an) ps.
Proof. by destruct an. Qed.

(** ** Separation *)

Lemma elem_of_vec_locs (ps : list Particle) (p : Particle) :
  p ∈ ps ->
  (pos p ∈ ps ≫= vec_locs) /\ (size p ∈ ps ≫= vec_locs) /\
  (velocity p ∈ ps ≫= vec_locs).
Proof.
  intros Hp. repeat split; apply list_elem_of_bind; exists p;
    (split; [unfold vec_locs; set_solver | done]).
Qed.

Lemma aged_locs_vec_locs (ps : list Particle) (l : loc) :
  l ∈ ps ≫= aged_locs -> l ∈ ps ≫= vec_locs.
Proof.
  rewrite !list_elem_of_bind. intros (p & Hl & Hp). exists p. split; [|done].
  unfold aged_locs, vec_locs in *. set_solver.
Qed.

Lemma elem_of_aged_locs (ps : list Particle) (l : loc) :
  l ∈ ps ≫= aged_locs <-> exists p, p ∈ ps /\ (l = pos p \/ l = size p).
Proof.
  rewrite list_elem_of_bind. unfold aged_locs. split.
  - intros (p & Hl & Hp). exists p. set_solver.
  - intros (p & Hp & Hl). exists p. set_solver.
Qed.

Lemma separated_cons (p : Particle) (ps : list Particle) :
  separated (p :: ps) ->
  pos p <> size p /\ pos p <> velocity p /\ size p <> velocity p /\
  (pos p ∉ ps ≫= vec_locs) /\ (size p ∉ ps ≫= vec_locs) /\
  (velocity p ∉ ps ≫= vec_locs) /\ (color p ∉ color <$> ps) /\ separated ps.
Proof.
  intros [Hv Hc]. rewrite bind_cons in Hv. unfold vec_locs at 1 in Hv.
  simpl in Hv. rewrite fmap_cons in Hc.
  apply NoDup_cons in Hc as [Hc1 Hc2].
  apply NoDup_cons in Hv as [Hv1 Hv2].
  apply NoDup_cons in Hv2 as [Hv2 Hv3].
  apply NoDup_cons in Hv3 as [Hv3 Hv4].
  unfold separated. set_solver.
Qed.

Lemma valid_particle_lengths (w w' : World) (p : Particle) :
  length (vecs w') = length (vecs w) ->
  length (cols w') = length (cols w) ->
  valid_particle w p -> valid_particle w' p.
Proof. unfold valid_particle. intros -> ->. done. Qed.

Lemma valid_particle_lookup (w : World) (p : Particle) :
  valid_particle w p ->
  exists (P S V : vec2) (C : rgba),
    vecs w !! pos p = Some P /\ vecs w !! size p = Some S /\
    vecs w !! velocity p = Some V /\ cols w !! color p = Some C.
Proof.
  intros (HP & HS & HV & HC).
  apply lookup_lt_is_Some_2 in HP as [P HP].
  apply lookup_lt_is_Some_2 in HS as [S HS].
  apply lookup_lt_is_Some_2 in HV as [V HV].
  apply lookup_lt_is_Some_2 in HC as [C HC].
  by exists P, S, V, C.
Qed.

(** ** One pass of an animator over a separated collection *)

Lemma animator_update_Returns (an : Animator) (ps : list Particle) :
  forall w : World,
    Forall (valid_particle w) ps ->
    separated ps ->
    exists w', animator_update an ps w = Returns (tt, w') /\ aged an ps w w'.
Proof.
  rewrite animator_update_for_each.
  induction ps as [|p ps IH]; intros w Hvalid Hsep.
  - exists w. split; [done|]. split; try done.
    intros p Hp. by apply elem_of_nil in Hp.
  - apply Forall_cons in Hvalid as [Hp Hvalid].
    apply separated_cons in Hsep
      as (Hps & Hpv & Hsv & HpN & HsN & HvN & HcN & Hsep).
    destruct (valid_particle_lookup w p Hp) as (P & S & V & C & HP & HS & HV & HC).
    pose proof (lookup_lt_Some _ _ _ HP) as HPl.
    pose proof (lookup_lt_Some _ _ _ HS) as HSl.
    pose proof (lookup_lt_Some _ _ _ HC) as HCl.
    pose proof (update_particle_Returns an w p P S V C HP HS HV HC Hps Hpv) as Hstep.
    set (w1 := set_cols _ _) in Hstep.
    assert (Hlv : length (vecs w1) = length (vecs w))
      by (unfold w1; simpl; by rewrite !length_insert).
    assert (Hlc : length (cols w1) = length (cols w))
      by (unfold w1; simpl; by rewrite !length_insert).
    assert (Hfv : forall l, l <> pos p -> l <> size p ->
                    vecs w1 !! l = vecs w !! l).
    { intros l H1 H2. unfold w1; simpl.
      by rewrite !list_lookup_insert_ne. }
    assert (Hfc : forall l, l <> color p -> cols w1 !! l = cols w !! l).
    { intros l H1. unfold w1; simpl. by rewrite list_lookup_insert_ne. }
    destruct (IH w1) as (w' & Hrun & Hw'); [|done|].
    { eapply Forall_impl; [exact Hvalid|].
      intros q. by apply valid_particle_lengths. }
    exists w'. split.
    { simpl. by rewrite (bind_Returns _ _ _ _ _ Hstep). }
    destruct Hw' as [Hh Hc Ht Hvl Hcl Hvf Hcf Hpart].
    split.
    + by rewrite Hh.
    + by rewrite Hc.
    + by rewrite Ht.
    + by rewrite Hvl.
    + by rewrite Hcl.
    + intros l Hl. rewrite bind_cons in Hl. unfold aged_locs at 1 in Hl.
      rewrite Hvf by set_solver. apply Hfv; set_solver.
    + intros l Hl. rewrite fmap_cons in Hl.
      rewrite Hcf by set_solver. apply Hfc; set_solver.
    + intros q Hq. apply elem_of_cons in Hq as [->|Hq].
      * exists P, S, V, C. unfold pos_of, size_of, velocity_of, color_of.
        repeat split; try done.
        -- rewrite Hvf by (intros H; apply aged_locs_vec_locs in H; done).
           unfold w1; simpl.
           rewrite list_lookup_insert_ne by done.
           by rewrite list_lookup_insert_eq.
        -- rewrite Hvf by (intros H; apply aged_locs_vec_locs in H; done).
           unfold w1; simpl.
           by rewrite list_lookup_insert_eq by (by rewrite length_insert).
        -- rewrite Hvf by (intros H; apply aged_locs_vec_locs in H; done).
           rewrite Hfv; done.
        -- rewrite Hcf by done. unfold w1; simpl.
           by rewrite list_lookup_insert_eq.
      * destruct (Hpart q Hq)
          as (P' & S' & V' & C' & H1 & H2 & H3 & H4 & H5 & H6 & H7 & H8).
        destruct (elem_of_vec_locs ps q Hq) as (Eq1 & Eq2 & Eq3).
        assert (Eq4 : color q ∈ color <$> ps) by (by apply list_elem_of_fmap_2).
        exists P', S', V', C'. unfold pos_of, size_of, velocity_of, color_of in *.
        rewrite Hfv in H1 by (intros E; rewrite E in Eq1; done).
        rewrite Hfv in H2 by (intros E; rewrite E in Eq2; done).
        rewrite Hfv in H3 by (intros E; rewrite E in Eq3; done).
        rewrite Hfc in H4 by (intros E; rewrite E in Eq4; done).
        done.
Qed.

(** ** Repeated passes *)







(** ** The spawn loop *)

Lemma extend_vec_Returns (w : World) (l : loc) (v : vec2) :
  vecs w !! l = Some v ->
  extend_vec l w = Returns (length (vecs w), set_vecs (fun h => h ++ [v]) w).
Proof.
  intros H. unfold extend_vec.
  by rewrite (bind_Returns _ _ _ _ _ (read_vec_Returns _ _ _ H)).
Qed.

Lemma extend_rgba_Returns (w : World) (l : loc) (c : rgba) :
  cols w !! l = Some c ->
  extend_rgba l w = Returns (length (cols w), set_cols (fun h => h ++ [c]) w).
Proof.
  intros H. unfold extend_rgba.
  by rewrite (bind_Returns _ _ _ _ _ (read_rgba_Returns _ _ _ H)).
Qed.

Lemma spawn_Returns (w : World) (O T : vec2) (K : rgba) :
  vecs w !! var_particleOrigin (this w) = Some O ->
  vecs w !! particleSize (this w) = Some T ->
  cols w !! particleColor (this w) = Some K ->
  spawn w = Returns (tt, after_spawn w O T K).
Proof.
  intros HO HT HK. unfold spawn, get.
  unfold mbind at 1, M_bind at 1.
  rewrite (bind_Returns _ _ _ _ _ (extend_vec_Returns _ _ _ HO)).
  set (w1 := set_vecs _ w).
  assert (HT1 : vecs w1 !! particleSize (this w) = Some T)
    by (by apply lookup_app_l_Some).
  rewrite (bind_Returns _ _ _ _ _ (extend_vec_Returns _ _ _ HT1)).
  set (w2 := set_vecs _ w1).
  assert (HK2 : cols w2 !! particleColor (this w) = Some K) by done.
  rewrite (bind_Returns _ _ _ _ _ (extend_rgba_Returns _ _ _ HK2)).
  unfold w2, w1, after_spawn, spawn_velocity, consume.
  unfold new_Particle, Math_random, new_vec, modify, mbind, M_bind, mret, M_ret.
  simpl. rewrite !length_app. simpl.
  unfold set_this, set_vecs, set_host, set_cols, set_particles. simpl.
  by rewrite !Nat.add_1_r.
Qed.

Lemma separated_cons_intro (p : Particle) (ps : list Particle) :
  pos p <> size p -> pos p <> velocity p -> size p <> velocity p ->
  (forall q : Particle, q ∈ ps ->
     forall l : loc, l ∈ vec_locs q -> l ∉ vec_locs p) ->
  (forall q : Particle, q ∈ ps -> color q <> color p) ->
  separated ps ->
  separated (p :: ps).
Proof.
  intros Hps Hpv Hsv Hfresh Hcol [Hv Hc]. split.
  - rewrite bind_cons. apply NoDup_app. split; [|split; [|done]].
    + unfold vec_locs. apply NoDup_cons. split; [set_solver|].
      apply NoDup_cons. split; [set_solver|]. apply NoDup_singleton.
    + intros l Hl Hin. apply list_elem_of_bind in Hin as (q & Hlq & Hq).
      by apply (Hfresh q Hq l Hlq).
  - rewrite fmap_cons. apply NoDup_cons. split; [|done].
    intros Hin. apply list_elem_of_fmap in Hin as (q & Heq & Hq).
    by apply (Hcol q Hq).
Qed.

Lemma spawn_order_nil : spawn_order [].
Proof. intros i j p q H. by rewrite lookup_nil in H. Qed.

Lemma spawn_order_cons (p : Particle) (ps : list Particle) :
  (forall q : Particle, q ∈ ps -> (pos p < pos q)%nat) ->
  spawn_order ps ->
  spawn_order (p :: ps).
Proof.
  intros Hp Hps i j q1 q2 H1 H2 Hij.
  destruct j as [|j]; [lia|]. simpl in H2.
  destruct i as [|i]; simpl in H1.
  - injection H1 as <-. apply Hp. by apply list_elem_of_lookup_2 in H2.
  - apply (Hps i j); [done|done|lia].
Qed.

Lemma set_particles_nil (s : ParticleSystem) :
  set_particles (fun ps => ps ++ []) s = s.
Proof. destruct s. unfold set_particles. simpl. by rewrite app_nil_r. Qed.

Lemma consume_0 (h : Host) : consume 0 h = h.
Proof. by destruct h. Qed.

(** The spawn loop run [n] times. *)
Lemma spawn_repeat (n : nat) :
  forall (w : World) (O T : vec2) (K : rgba),
    vecs w !! var_particleOrigin (this w) = Some O ->
    vecs w !! particleSize (this w) = Some T ->
    cols w !! particleColor (this w) = Some K ->
    exists (w' : World) (new : list Particle),
      repeat_M n spawn w = Returns (tt, w') /\
      length new = n /\ spawned w w' new.
Proof.
  induction n as [|n IH]; intros w O T K HO HT HK.
  - exists w, []. split; [done|]. split; [done|]. split.
    + done.
    + done.
    + by rewrite set_particles_nil.
    + done.
    + by rewrite consume_0.
    + intros p Hp. by apply elem_of_nil in Hp.
    + apply Forall_nil_2.
    + split; apply NoDup_nil_2.
    + apply spawn_order_nil.
    + intros p Hp. by apply elem_of_nil in Hp.
    + intros i p Hp. by rewrite lookup_nil in Hp.
  - pose proof (spawn_Returns w O T K HO HT HK) as Hstep.
    set (w1 := after_spawn w O T K) in Hstep.
    set (p0 := mkParticle (length (vecs w)) (S (length (vecs w)))
                 (length (cols w)) (S (S (length (vecs w))))).
    assert (Hv1 : vecs w1 =
              ((vecs w ++ [O]) ++ [T]) ++
                [spawn_velocity (host w) (random_next (host w))
                   (particleSpeed (this w))]) by done.
    assert (Hc1 : cols w1 = cols w ++ [K]) by done.
    assert (Hlv1 : length (vecs w1) = (3 + length (vecs w))%nat)
      by (rewrite Hv1, !length_app; simpl; lia).
    assert (Hlc1 : length (cols w1) = (1 + length (cols w))%nat)
      by (rewrite Hc1, !length_app; simpl; lia).
    assert (Hpv : vecs w `prefix_of` vecs w1)
      by (rewrite Hv1; do 3 apply prefix_app_r; done).
    assert (Hpc : cols w `prefix_of` cols w1)
      by (rewrite Hc1; by apply prefix_app_r).
    destruct (IH w1 O T K) as (w' & new & Hrun & Hlen & Hsp).
    { by apply prefix_lookup_Some with (vecs w). }
    { by apply prefix_lookup_Some with (vecs w). }
    { by apply prefix_lookup_Some with (cols w). }
    destruct Hsp as [Sv Sc St Sx Sh Sf Sval Ssep Sord Scon Svel].
    exists w', (p0 :: new). split.
    { simpl. by rewrite (bind_Returns _ _ _ _ _ Hstep). }
    split; [simpl; by rewrite Hlen|].
    pose proof (prefix_length _ _ Sv) as Hlv'.
    pose proof (prefix_length _ _ Sc) as Hlc'.
    assert (HP0 : vecs w' !! pos p0 = Some O).
    { apply prefix_lookup_Some with (vecs w1); [|done].
      rewrite Hv1. rewrite <- !app_assoc. simpl.
      by rewrite lookup_app_r, Nat.sub_diag by done. }
    assert (HS0 : vecs w' !! size p0 = Some T).
    { apply prefix_lookup_Some with (vecs w1); [|done].
      rewrite Hv1. rewrite <- !app_assoc. simpl.
      rewrite lookup_app_r by lia.
      by replace (S (length (vecs w)) - length (vecs w))%nat with 1%nat by lia. }
    assert (HV0 : vecs w' !! velocity p0 =
              Some (spawn_velocity (host w) (random_next (host w))
                      (particleSpeed (this w)))).
    { apply prefix_lookup_Some with (vecs w1); [|done].
      rewrite Hv1. rewrite <- !app_assoc. simpl.
      rewrite lookup_app_r by lia.
      by replace (S (S (length (vecs w))) - length (vecs w))%nat
        with 2%nat by lia. }
    assert (HC0 : cols w' !! color p0 = Some K).
    { apply prefix_lookup_Some with (cols w1); [|done].
      rewrite Hc1. by rewrite lookup_app_r, Nat.sub_diag by done. }
    split.
    + by transitivity (vecs w1).
    + by transitivity (cols w1).
    + rewrite St. unfold w1, after_spawn, set_particles. simpl.
      by rewrite <- app_assoc.
    + by rewrite Sx.
    + rewrite Sh. unfold w1, after_spawn, consume. simpl.
      f_equal. lia.
    + intros p Hp. apply elem_of_cons in Hp as [->|Hp].
      * simpl. lia.
      * specialize (Sf p Hp). lia.
    + apply Forall_cons. split; [|done].
      unfold valid_particle. simpl. lia.
    + apply separated_cons_intro; simpl; try lia; try done.
      * intros q Hq l Hl Hin. specialize (Sf q Hq).
        unfold vec_locs in Hl, Hin. simpl in Hin.
        set_unfold. lia.
      * intros q Hq. specialize (Sf q Hq). simpl in *. lia.
    + apply spawn_order_cons; [|done].
      intros q Hq. specialize (Sf q Hq). simpl. lia.
    + intros p Hp. apply elem_of_cons in Hp as [->|Hp].
      * unfold pos_of, size_of, color_of. by rewrite HP0, HS0, HC0, HO, HT, HK.
      * destruct (Scon p Hp) as (E1 & E2 & E3).
        rewrite E1, E2, E3.
        change (var_particleOrigin (this w1)) with (var_particleOrigin (this w)).
        change (particleSize (this w1)) with (particleSize (this w)).
        change (particleColor (this w1)) with (particleColor (this w)).
        rewrite HO, HT, HK.
        repeat split; by eapply prefix_lookup_Some.
    + intros i p Hi. destruct i as [|i]; simpl in Hi.
      * injection Hi as <-. unfold velocity_of. by rewrite HV0.
      * rewrite (Svel i p Hi).
        change (particleSpeed (this w1)) with (particleSpeed (this w)).
        change (random_next (host w1)) with (2 + random_next (host w))%nat.
        replace (2 * S i + random_next (host w))%nat
          with (2 * i + (2 + random_next (host w)))%nat by lia.
        reflexivity.
Qed.

(** ** The trimming loop *)

Lemma shift_while_over_Returns (cap : Z) (ps : list Particle) :
  (0 <= cap)%Z ->
  shift_while_over cap ps = Returns (drop (length ps - Z.to_nat cap) ps).
Proof.
  intros Hcap. induction ps as [|p ps IH].
  - cbn [shift_while_over]. change (Z.of_nat (length [])) with 0%Z.
    destruct (Z.gtb_spec 0 cap); [lia|done].
  - cbn [shift_while_over].
    destruct (Z.gtb_spec (Z.of_nat (length (p :: ps))) cap) as [Hgt|Hle].
    + rewrite IH. simpl length in *.
      replace (S (length ps) - Z.to_nat cap)%nat
        with (S (length ps - Z.to_nat cap))%nat by lia.
      done.
    + simpl length in *.
      replace (S (length ps) - Z.to_nat cap)%nat with 0%nat by lia.
      done.
Qed.

Lemma shift_while_over_Loops (cap : Z) (ps : list Particle) :
  (cap < 0)%Z -> shift_while_over cap ps = Loops.
Proof.
  intros Hcap. induction ps as [|p ps IH].
  - cbn [shift_while_over]. change (Z.of_nat (length [])) with 0%Z.
    destruct (Z.gtb_spec 0 cap); [done|lia].
  - cbn [shift_while_over].
    destruct (Z.gtb_spec (Z.of_nat (length (p :: ps))) cap) as [Hgt|Hle];
      [done|lia].
Qed.

Lemma trim_Returns (w : World) :
  (0 <= maxParticles (this w))%Z ->
  trim w =
    Returns (tt, set_this (set_particles (fun ps =>
      drop (length ps - Z.to_nat (maxParticles (this w))) ps)) w).
Proof.
  intros Hcap. unfold trim. by rewrite shift_while_over_Returns.
Qed.

(** ** Well-formedness is kept by growth, concatenation and trimming *)

Lemma separated_app (ps qs : list Particle) :
  separated ps -> separated qs ->
  (forall p q : Particle, p ∈ ps -> q ∈ qs ->
     (forall l : loc, l ∈ vec_locs p -> l ∉ vec_locs q) /\ color p <> color q) ->
  separated (ps ++ qs).
Proof.
  intros [Hv1 Hc1] [Hv2 Hc2] Hdis. split.
  - rewrite bind_app. apply NoDup_app. split; [done|split; [|done]].
    intros l Hl1 Hl2.
    apply list_elem_of_bind in Hl1 as (p & Hlp & Hp).
    apply list_elem_of_bind in Hl2 as (q & Hlq & Hq).
    by apply (proj1 (Hdis p q Hp Hq) l).
  - rewrite fmap_app. apply NoDup_app. split; [done|split; [|done]].
    intros c Hc Hc'.
    apply list_elem_of_fmap in Hc as (p & -> & Hp).
    apply list_elem_of_fmap in Hc' as (q & Heq & Hq).
    by apply (proj2 (Hdis p q Hp Hq)).
Qed.

Lemma separated_drop (n : nat) (ps : list Particle) :
  separated ps -> separated (drop n ps).
Proof.
  intros [Hv Hc]. rewrite <- (take_drop n ps) in Hv, Hc.
  rewrite bind_app in Hv. rewrite fmap_app in Hc.
  apply NoDup_app in Hv as (_ & _ & Hv).
  apply NoDup_app in Hc as (_ & _ & Hc). by split.
Qed.

Lemma elem_of_drop_1 {A : Type} (n : nat) (l : list A) (v : A) :
  v ∈ drop n l -> v ∈ l.
Proof.
  intros H. rewrite <- (take_drop n l). apply elem_of_app. by right.
Qed.

Lemma spawn_order_app (ps qs : list Particle) :
  spawn_order ps -> spawn_order qs ->
  (forall p q : Particle, p ∈ ps -> q ∈ qs -> (pos p < pos q)%nat) ->
  spawn_order (ps ++ qs).
Proof.
  intros H1 H2 H12 i j p q Hi Hj Hij.
  apply lookup_app_Some in Hi as [Hi|[Hil Hi]];
    apply lookup_app_Some in Hj as [Hj|[Hjl Hj]].
  - by apply (H1 i j).
  - apply H12; by eapply list_elem_of_lookup_2.
  - apply lookup_lt_Some in Hj. lia.
  - apply (H2 (i - length ps) (j - length ps))%nat; [done|done|lia].
Qed.

Lemma spawn_order_drop (n : nat) (ps : list Particle) :
  spawn_order ps -> spawn_order (drop n ps).
Proof.
  intros H i j p q Hi Hj Hij. rewrite lookup_drop in Hi, Hj.
  apply (H (n + i) (n + j))%nat; [done|done|lia].
Qed.

(** ** One call of [update] *)

Lemma template_not_aged (ps : list Particle) (l : loc) :
  (l ∉ ps ≫= vec_locs) -> (l ∉ ps ≫= aged_locs).
Proof. intros H Hl. by apply H, aged_locs_vec_locs. Qed.

Lemma age_and_spawn_Returns (w : World) :
  wf w ->
  exists (w1 wm : World) (O : vec2) (new : list Particle),
    animator_update (particleAnimator (this w)) (particles (this w)) w =
      Returns (tt, w1) /\
    aged (particleAnimator (this w)) (particles (this w)) w w1 /\
    vecs w !! particleOrigin (this w) = Some O /\
    age_and_spawn w = Returns (tt, wm) /\
    length new = Z.to_nat (particlesPerUpdate (this w)) /\
    spawned (after_origin w1 O) wm new.
Proof.
  intros Hwf.
  destruct (animator_update_Returns (particleAnimator (this w))
              (particles (this w)) w (wf_valid w Hwf) (wf_separated w Hwf))
    as (w1 & Hrun & Hage).
  pose proof Hage as [Hh Hc Ht Hvl Hcl Hvf Hcf Hpart].
  destruct (lookup_lt_is_Some_2 _ _ (wf_origin w Hwf)) as [O HO].
  destruct (lookup_lt_is_Some_2 _ _ (wf_size w Hwf)) as [T HT].
  destruct (lookup_lt_is_Some_2 _ _ (wf_color w Hwf)) as [K HK].
  assert (HO1 : vecs w1 !! particleOrigin (this w1) = Some O).
  { rewrite Ht, Hvf; [done|]. apply template_not_aged, (wf_origin_private w Hwf). }
  assert (HT1 : vecs w1 !! particleSize (this w1) = Some T).
  { rewrite Ht, Hvf; [done|]. apply template_not_aged, (wf_size_private w Hwf). }
  assert (HK1 : cols w1 !! particleColor (this w1) = Some K).
  { rewrite Ht, Hcf; [done|]. apply (wf_color_private w Hwf). }
  set (wo := after_origin w1 O).
  destruct (spawn_repeat (Z.to_nat (particlesPerUpdate (this w1))) wo
              (Vec2 (width (this w1) * x O) (height (this w1) * y O)) T K)
    as (wm & new & Hspawn & Hlen & Hsp).
  { unfold wo, after_origin. simpl.
    by rewrite lookup_app_r, Nat.sub_diag by done. }
  { unfold wo, after_origin. simpl. by apply lookup_app_l_Some. }
  { done. }
  exists w1, wm, O, new.
  split; [done|]. split; [done|]. split; [done|].
  split; [|split; [by rewrite <- Ht|done]].
  unfold age_and_spawn, get.
  unfold mbind at 1, M_bind at 1.
  rewrite (bind_Returns _ _ _ _ _ Hrun).
  unfold mbind at 1, M_bind at 1.
  rewrite (bind_Returns _ _ _ _ _ (read_vec_Returns _ _ _ HO1)).
  unfold new_vec, modify.
  unfold mbind at 1, M_bind at 1.
  unfold mbind at 1, M_bind at 1.
  unfold mbind at 1, M_bind at 1.
  exact Hspawn.
Qed.

Lemma not_in_vec_locs_drop_app (l : loc) (ps new : list Particle) (n : nat) :
  (l ∉ ps ≫= vec_locs) ->
  (forall q : Particle, q ∈ new -> l ∉ vec_locs q) ->
  (l ∉ drop n (ps ++ new) ≫= vec_locs).
Proof.
  intros Hps Hnew Hin.
  apply list_elem_of_bind in Hin as (q & Hl & Hq).
  apply elem_of_drop_1, elem_of_app in Hq as [Hq|Hq].
  - apply Hps, list_elem_of_bind. by exists q.
  - by apply (Hnew q Hq).
Qed.

Lemma not_in_colors_drop_app (l : loc) (ps new : list Particle) (n : nat) :
  (l ∉ color <$> ps) ->
  (forall q : Particle, q ∈ new -> l <> color q) ->
  (l ∉ color <$> drop n (ps ++ new)).
Proof.
  intros Hps Hnew Hin.
  apply list_elem_of_fmap in Hin as (q & Hl & Hq).
  apply elem_of_drop_1, elem_of_app in Hq as [Hq|Hq].
  - apply Hps, list_elem_of_fmap. by exists q.
  - by apply (Hnew q Hq).
Qed.

Lemma in_vec_locs_valid (w : World) (p : Particle) (l : loc) :
  valid_particle w p -> l ∈ vec_locs p -> (l < length (vecs w))%nat.
Proof.
  intros (H1 & H2 & H3 & _) Hl. unfold vec_locs in Hl.
  apply elem_of_cons in Hl as [E|Hl]; [by rewrite E|].
  apply elem_of_cons in Hl as [E|Hl]; [by rewrite E|].
  apply list_elem_of_singleton in Hl. by rewrite Hl.
Qed.

Lemma ParticleSystem_update_Returns (w : World) :
  wf w ->
  (0 <= maxParticles (this w))%Z ->
  exists (wm w' : World) (new : list Particle),
    age_and_spawn w = Returns (tt, wm) /\
    particles (this wm) = particles (this w) ++ new /\
    trim wm = Returns (tt, w') /\
    ParticleSystem_update w = Returns (tt, w') /\
    updated w w' new /\ wf w'.
Proof.
  intros Hwf Hcap.
  destruct (age_and_spawn_Returns w Hwf)
    as (w1 & wm & O & new & Hrun & Hage & HO & Hmid & Hlen & Hsp).
  destruct Hage as [Hh Hc Ht Hvl Hcl Hvf Hcf Hpart].
  destruct Hsp as [Sv Sc St Sx Sh Sf Sval Ssep Sord Scon Svel].
  set (wo := after_origin w1 O) in *.
  assert (Hto : this wo = set_var_particleOrigin (length (vecs w1)) (this w))
    by (unfold wo, after_origin; simpl; by rewrite Ht).
  assert (Hvo : vecs wo =
            vecs w1 ++ [Vec2 (width (this w1) * x O) (height (this w1) * y O)])
    by done.
  assert (Hco : cols wo = cols w1) by done.
  assert (Hlo : length (vecs wo) = S (length (vecs w)))
    by (rewrite Hvo, length_app, Hvl; simpl; lia).
  pose proof (prefix_length _ _ Sv) as Hlm.
  pose proof (prefix_length _ _ Sc) as Hlcm.
  rewrite Hco, Hcl in Hlcm.
  assert (Htm : this wm = set_particles (fun ps => ps ++ new)
                  (set_var_particleOrigin (length (vecs w1)) (this w)))
    by (by rewrite St, Hto).
  assert (Hpm : particles (this wm) = particles (this w) ++ new)
    by (by rewrite Htm).
  assert (Hcm : maxParticles (this wm) = maxParticles (this w))
    by (by rewrite Htm).
  pose proof (trim_Returns wm) as Htrim. rewrite Hcm in Htrim.
  specialize (Htrim Hcap).
  set (w' := set_this _ wm) in Htrim.
  assert (Hlift : forall l v, vecs w1 !! l = Some v -> vecs w' !! l = Some v).
  { intros l v Hl. apply prefix_lookup_Some with (vecs wo); [|done].
    rewrite Hvo. by apply lookup_app_l_Some. }
  assert (Hliftc : forall l v, cols w1 !! l = Some v -> cols w' !! l = Some v).
  { intros l v Hl. apply prefix_lookup_Some with (cols wo); done. }
  assert (Hfresh : forall p : Particle, p ∈ new ->
            (length (vecs w) < pos p /\ length (vecs w) < size p /\
             length (vecs w) < velocity p /\ length (cols w) <= color p)%nat).
  { intros p Hp. specialize (Sf p Hp). rewrite Hco, Hcl in Sf. lia. }
  assert (Hdis : forall p q : Particle,
            p ∈ particles (this w) -> q ∈ new ->
            (forall l : loc, l ∈ vec_locs p -> l ∉ vec_locs q) /\
            color p <> color q /\ (pos p < pos q)%nat).
  { intros p q Hp Hq. specialize (Hfresh q Hq).
    pose proof (wf_valid w Hwf) as Hval. rewrite Forall_forall in Hval.
    specialize (Hval p Hp).
    split; [|destruct Hval as (?&?&?&?); lia].
    intros l Hl Hlq. apply (in_vec_locs_valid w p l Hval) in Hl.
    unfold vec_locs in Hlq. set_unfold. lia. }
  exists wm, w', new.
  split; [done|]. split; [done|]. split; [done|].
  split.
  { unfold ParticleSystem_update.
    by rewrite (bind_Returns _ _ _ _ _ Hmid). }
  split.
  - (* the relation between the two worlds *)
    split.
    + unfold w'. simpl. rewrite Htm. repeat split.
    + unfold w'. simpl. by rewrite Sx, <- Hc.
    + unfold w'. simpl. by rewrite Sh, <- Hh.
    + done.
    + unfold w'. simpl. by rewrite Hpm.
    + apply separated_app; [apply (wf_separated w Hwf)|done|].
      intros p q Hp Hq. destruct (Hdis p q Hp Hq) as (?&?&?). done.
    + apply spawn_order_app; [apply (wf_order w Hwf)|done|].
      intros p q Hp Hq. by destruct (Hdis p q Hp Hq) as (?&?&?).
    + change (vecs w') with (vecs wm). lia.
    + change (cols w') with (cols wm). lia.
    + intros l Hl Hnot.
      destruct (lookup_lt_is_Some_2 (vecs w) l Hl) as [v Hv].
      rewrite Hv. apply Hlift. by rewrite Hvf.
    + intros l Hl Hnot.
      destruct (lookup_lt_is_Some_2 (cols w) l Hl) as [v Hv].
      rewrite Hv. apply Hliftc. by rewrite Hcf.
    + intros p Hp.
      destruct (Hpart p Hp)
        as (P & S & V & C & H1 & H2 & H3 & H4 & H5 & H6 & H7 & H8).
      exists P, S, V, C. unfold pos_of, size_of, velocity_of, color_of in *.
      repeat split; try done; by (apply Hlift || apply Hliftc).
    + intros p Hp. specialize (Hfresh p Hp). lia.
    + intros i p Hi.
      pose proof (list_elem_of_lookup_2 _ _ _ Hi) as Hp.
      destruct (Scon p Hp) as (E1 & E2 & E3).
      exists O. split; [done|].
      change (pos_of w' p) with (pos_of wm p).
      change (size_of w' p) with (size_of wm p).
      change (color_of w' p) with (color_of wm p).
      change (velocity_of w' p) with (velocity_of wm p).
      rewrite E1, E2, E3, (Svel i p Hi), Hto, Hvo, Hco.
      cbn [var_particleOrigin particleSize particleColor particleSpeed
           set_var_particleOrigin].
      rewrite lookup_app_r, Nat.sub_diag by done.
      rewrite lookup_app_l by (rewrite Hvl; apply (wf_size w Hwf)).
      rewrite Hvf by (apply template_not_aged, (wf_size_private w Hwf)).
      rewrite Hcf by (apply (wf_color_private w Hwf)).
      rewrite Ht. repeat split; try done.
      unfold wo, after_origin, spawn_velocity. simpl. by rewrite Hh.
  - (* well-formedness *)
    assert (Htemplate : forall l : loc, (l < length (vecs w))%nat ->
              forall q : Particle, q ∈ new -> l ∉ vec_locs q).
    { intros l Hl q Hq Hin. specialize (Hfresh q Hq).
      unfold vec_locs in Hin. set_unfold. lia. }
    assert (Htemplatec : forall l : loc, (l < length (cols w))%nat ->
              forall q : Particle, q ∈ new -> l <> color q).
    { intros l Hl q Hq. specialize (Hfresh q Hq). lia. }
    split; unfold w'; cbn [this set_this set_particles particles vecs cols
      backgroundColor particleSize particleColor particleOrigin];
      rewrite ?Htm; cbn [particles set_particles set_var_particleOrigin
      backgroundColor particleSize particleColor particleOrigin].
    + apply Forall_drop, Forall_app. split; [|done].
      eapply Forall_impl; [exact (wf_valid w Hwf)|].
      intros p (?&?&?&?). unfold valid_particle.
      change (vecs (set_this _ wm)) with (vecs wm).
      change (cols (set_this _ wm)) with (cols wm). lia.
    + apply separated_drop, separated_app; [apply (wf_separated w Hwf)|done|].
      intros p q Hp Hq. destruct (Hdis p q Hp Hq) as (?&?&?). done.
    + apply spawn_order_drop, spawn_order_app;
        [apply (wf_order w Hwf)|done|].
      intros p q Hp Hq. by destruct (Hdis p q Hp Hq) as (?&?&?).
    + pose proof (wf_background w Hwf). lia.
    + pose proof (wf_size w Hwf). lia.
    + pose proof (wf_color w Hwf). lia.
    + pose proof (wf_origin w Hwf). lia.
    + apply not_in_vec_locs_drop_app; [apply (wf_size_private w Hwf)|].
      apply Htemplate, (wf_size w Hwf).
    + apply not_in_vec_locs_drop_app; [apply (wf_origin_private w Hwf)|].
      apply Htemplate, (wf_origin w Hwf).
    + apply not_in_colors_drop_app; [apply (wf_color_private w Hwf)|].
      apply Htemplatec, (wf_color w Hwf).
    + apply not_in_colors_drop_app; [apply (wf_background_private w Hwf)|].
      apply Htemplatec, (wf_background w Hwf).
Qed.

(** ** Frame rules *)

Lemma preserves_bind {A B : Type} (R : relation World) `{!Transitive R}
    (m : M A) (f : A -> M B) :
  preserves R m -> (forall v : A, preserves R (f v)) -> preserves R (m ≫= f).
Proof.
  intros Hm Hf w w' v H.
  apply bind_inv in H as (u & w1 & H1 & H2).
  transitivity w1; [by eapply Hm|by eapply Hf].
Qed.

Lemma preserves_ret {A : Type} (R : relation World) `{!Reflexive R} (v : A) :
  preserves R (mret v).
Proof. intros w w' u [= _ <-]. reflexivity. Qed.

Lemma preserves_get (R : relation World) `{!Reflexive R} : preserves R get.
Proof. intros w w' u [= _ <-]. reflexivity. Qed.

Lemma preserves_throw {A : Type} (R : relation World) : preserves R (@throw A).
Proof. intros w w' u H. discriminate. Qed.

Lemma preserves_read_vec (R : relation World) `{!Reflexive R} (l : loc) :
  preserves R (read_vec l).
Proof.
  intros w w' u H. unfold read_vec in H.
  destruct (vecs w !! l); [|discriminate]. injection H as _ <-. reflexivity.
Qed.

Lemma preserves_read_rgba (R : relation World) `{!Reflexive R} (l : loc) :
  preserves R (read_rgba l).
Proof.
  intros w w' u H. unfold read_rgba in H.
  destruct (cols w !! l); [|discriminate]. injection H as _ <-. reflexivity.
Qed.

Lemma preserves_read_canvas (R : relation World) `{!Reflexive R} :
  preserves R read_canvas.
Proof.
  intros w w' u H. unfold read_canvas in H.
  destruct (context w); [|discriminate].
  destruct (element (host w)); [|discriminate].
  injection H as _ <-. reflexivity.
Qed.

Lemma preserves_modify (R : relation World) (f : World -> World) :
  (forall w : World, R w (f w)) -> preserves R (modify f).
Proof. intros Hf w w' u [= _ <-]. apply Hf. Qed.

Lemma preserves_for_each {A : Type} (R : relation World)
    `{!Reflexive R} `{!Transitive R} (f : A -> M unit) (l : list A) :
  (forall v : A, preserves R (f v)) -> preserves R (for_each f l).
Proof.
  intros Hf. induction l as [|e l IH]; simpl.
  - by apply preserves_ret.
  - apply preserves_bind; [done|apply Hf|done].
Qed.

Lemma preserves_repeat_M (R : relation World)
    `{!Reflexive R} `{!Transitive R} (m : M unit) (n : nat) :
  preserves R m -> preserves R (repeat_M n m).
Proof.
  intros Hm. induction n as [|n IH]; simpl.
  - by apply preserves_ret.
  - by apply preserves_bind.
Qed.

#[global] Instance same_cols_preorder : PreOrder same_cols.
Proof.
  split; [done|]. unfold same_cols. intros w1 w2 w3 H1 H2. congruence.
Qed.

Lemma set_dimensions_id (s : ParticleSystem) :
  set_dimensions (width s) (height s) s = s.
Proof. by destruct s. Qed.

#[global] Instance same_store_preorder : PreOrder same_store.
Proof.
  split.
  - intros w. repeat split. exists (width (this w)), (height (this w)).
    by rewrite set_dimensions_id.
  - intros w1 w2 w3 (H1 & H2 & wd & hg & H3) (G1 & G2 & wd' & hg' & G3).
    repeat split; [congruence|congruence|].
    exists wd', hg'. by rewrite G3, H3.
Qed.

#[global] Instance same_canvas_preorder : PreOrder same_canvas.
Proof.
  split; [done|].
  intros w1 w2 w3 [H1 H2] [G1 G2]. split; congruence.
Qed.

#[global] Instance painted_over_preorder : PreOrder painted_over.
Proof.
  split.
  - intros [cv|]; simpl; done.
  - intros [c1|] [c2|] [c3|]; simpl; try done.
    intros [H1 H2] [G1 G2]. split; [congruence|by transitivity (painted c2)].
Qed.

#[global] Instance paints_preorder : PreOrder paints.
Proof.
  split.
  - intros w. by repeat split.
  - intros w1 w2 w3 (H1 & H2 & H3 & H4 & H5) (G1 & G2 & G3 & G4 & G5).
    repeat split; try congruence.
    by transitivity (element (host w2)).
Qed.

Ltac frame :=
  repeat first
    [ progress intros
    | apply preserves_ret
    | apply preserves_get
    | apply preserves_throw
    | apply preserves_read_vec
    | apply preserves_read_rgba
    | apply preserves_read_canvas
    | apply preserves_for_each
    | apply preserves_repeat_M
    | apply preserves_bind
    | apply preserves_modify
    | typeclasses eauto ].

(** ** What the functions of the source leave alone *)

Lemma default_update_same_cols (ps : list Particle) :
  preserves same_cols (DefaultParticleAnimator_update ps).
Proof.
  unfold DefaultParticleAnimator_update. apply preserves_for_each; try apply _.
  intros p. unfold default_update_particle, get_x, get_y, set_x, set_y, write_vec.
  frame; done.
Qed.

Lemma same_store_set_host (g : Host -> Host) (w : World) :
  same_store w (set_host g w).
Proof.
  repeat split. exists (width (this w)), (height (this w)).
  simpl. by rewrite set_dimensions_id.
Qed.

Lemma same_store_set_context (c : bool) (w : World) :
  same_store w (set_context c w).
Proof.
  repeat split. exists (width (this w)), (height (this w)).
  simpl. by rewrite set_dimensions_id.
Qed.

Lemma same_store_set_dimensions (wd hg : Q) (w : World) :
  same_store w (set_this (set_dimensions wd hg) w).
Proof. repeat split. by exists wd, hg. Qed.

Lemma renderer_draw_same_store (rd : Renderer) (p : Particle) :
  preserves same_store (renderer_draw rd p).
Proof.
  destruct rd; simpl;
    unfold SquareParticleRenderer_draw, RoundParticleRenderer_draw,
      context_set_fillStyle, context_fillRect, context_beginPath, context_arc,
      context_fill, modify_canvas, get_x, get_y;
    frame; try apply same_store_set_host.
  destruct (Qle_bool _ _); frame. apply same_store_set_host.
Qed.

Lemma animator_draw_same_store (an : Animator) (ps : list Particle)
    (rd : Renderer) :
  preserves same_store (animator_draw an ps rd).
Proof.
  destruct an; simpl;
    unfold DefaultParticleAnimator_draw, FancyParticleAnimator_draw,
      context_set_globalCompositeOperation, modify_canvas;
    frame; try apply same_store_set_host; apply renderer_draw_same_store.
Qed.

Lemma repaint_background_same_store : preserves same_store repaint_background.
Proof.
  unfold repaint_background, context_restore, context_clearRect,
    context_fillRect, context_save, modify_canvas.
  frame; apply same_store_set_host.
Qed.

Lemma draw_same_store : preserves same_store ParticleSystem_draw.
Proof.
  unfold ParticleSystem_draw. apply preserves_bind; [apply _| |].
  - apply repaint_background_same_store.
  - frame. apply animator_draw_same_store.
Qed.

Ltac same_store_leaf :=
  first [ apply same_store_set_host
        | apply same_store_set_context
        | apply same_store_set_dimensions ].

Lemma resize_same_store : preserves same_store ParticleSystem_resize.
Proof.
  unfold ParticleSystem_resize. frame; try same_store_leaf.
  destruct (autoResize _); frame; same_store_leaf.
Qed.

Lemma initialize_same_store : preserves same_store ParticleSystem_initialize.
Proof.
  unfold ParticleSystem_initialize. frame.
  destruct (element (host v)); [|frame].
  frame; try same_store_leaf.
  destruct (autoResize _); frame; same_store_leaf.
Qed.

(** ** Well-formedness is an invariant *)

Lemma wf_change (w w' : World) :
  particles (this w') = particles (this w) ->
  (length (vecs w) <= length (vecs w'))%nat ->
  (length (cols w) <= length (cols w'))%nat ->
  (backgroundColor (this w') = backgroundColor (this w) \/
   length (cols w) <= backgroundColor (this w') < length (cols w'))%nat ->
  (particleSize (this w') = particleSize (this w) \/
   length (vecs w) <= particleSize (this w') < length (vecs w'))%nat ->
  (particleColor (this w') = particleColor (this w) \/
   length (cols w) <= particleColor (this w') < length (cols w'))%nat ->
  (particleOrigin (this w') = particleOrigin (this w) \/
   length (vecs w) <= particleOrigin (this w') < length (vecs w'))%nat ->
  wf w -> wf w'.
Proof.
  intros Hp Hv Hc Hbg Hsz Hcl Hor [H1 H2 H3 H4 H5 H6 H7 H8 H9 H10 H11].
  assert (Hfv : forall l : loc, (length (vecs w) <= l)%nat ->
                  l ∉ particles (this w) ≫= vec_locs).
  { intros l Hl Hin. apply list_elem_of_bind in Hin as (q & Hlq & Hq).
    rewrite Forall_forall in H1.
    pose proof (in_vec_locs_valid w q l (H1 q Hq) Hlq). lia. }
  assert (Hfc : forall l : loc, (length (cols w) <= l)%nat ->
                  l ∉ color <$> particles (this w)).
  { intros l Hl Hin. apply list_elem_of_fmap in Hin as (q & -> & Hq).
    rewrite Forall_forall in H1. destruct (H1 q Hq) as (_ & _ & _ & ?). lia. }
  split; rewrite ?Hp; try done.
  - eapply Forall_impl; [exact H1|].
    intros p (?&?&?&?). unfold valid_particle. lia.
  - destruct Hbg as [->|?]; lia.
  - destruct Hsz as [->|?]; lia.
  - destruct Hcl as [->|?]; lia.
  - destruct Hor as [->|?]; lia.
  - destruct Hsz as [->|?]; [done|]. apply Hfv. lia.
  - destruct Hor as [->|?]; [done|]. apply Hfv. lia.
  - destruct Hcl as [->|?]; [done|]. apply Hfc. lia.
  - destruct Hbg as [->|?]; [done|]. apply Hfc. lia.
Qed.

Lemma wf_same_store (w w' : World) : same_store w w' -> wf w -> wf w'.
Proof.
  intros (Hv & Hc & wd & hg & Ht).
  apply wf_change; rewrite ?Ht, ?Hv, ?Hc; simpl; auto.
Qed.

Lemma update_Loops (w : World) :
  wf w -> (maxParticles (this w) < 0)%Z -> ParticleSystem_update w = Loops.
Proof.
  intros Hwf Hcap.
  destruct (age_and_spawn_Returns w Hwf)
    as (w1 & wm & O & new & _ & Hage & _ & Hmid & _ & Hsp).
  unfold ParticleSystem_update. rewrite (bind_Returns _ _ _ _ _ Hmid).
  unfold trim. rewrite shift_while_over_Loops; [done|].
  rewrite (spawned_this _ _ _ Hsp). simpl.
  by rewrite (aged_this _ _ _ _ Hage).
Qed.

Lemma update_Returns_cap (w w' : World) :
  wf w -> ParticleSystem_update w = Returns (tt, w') ->
  (0 <= maxParticles (this w))%Z.
Proof.
  intros Hwf H. destruct (Z.le_gt_cases 0 (maxParticles (this w))); [done|].
  rewrite update_Loops in H by done. discriminate.
Qed.

Lemma step_wf (o : Op) (w w' : World) :
  wf w -> step o w = Returns (tt, w') -> wf w'.
Proof.
  intros Hwf H. destruct o; simpl in H.
  - eapply wf_same_store; [|done]. by eapply initialize_same_store.
  - eapply wf_same_store; [|done]. by eapply resize_same_store.
  - eapply wf_same_store; [|done]. by eapply draw_same_store.
  - pose proof (update_Returns_cap w w' Hwf H) as Hcap.
    destruct (ParticleSystem_update_Returns w Hwf Hcap)
      as (wm & w2 & new & _ & _ & _ & Hupd & _ & Hwf2).
    rewrite Hupd in H. by injection H as <-.
  - injection H as <-. revert Hwf. apply wf_change; simpl; auto.
  - injection H as <-. revert Hwf. apply wf_change; simpl; auto.
  - injection H as <-. revert Hwf. apply wf_change; simpl; auto.
  - injection H as <-. revert Hwf. apply wf_change; simpl; auto.
  - injection H as <-. revert Hwf. apply wf_change; simpl; auto.
  - injection H as <-. revert Hwf. apply wf_change; simpl; auto.
  - injection H as <-. revert Hwf.
    apply wf_change; simpl; rewrite ?length_app; simpl; auto; try lia.
  - injection H as <-. revert Hwf.
    apply wf_change; simpl; rewrite ?length_app; simpl; auto; try lia.
  - injection H as <-. revert Hwf.
    apply wf_change; simpl; rewrite ?length_app; simpl; auto; try lia.
  - injection H as <-. revert Hwf.
    apply wf_change; simpl; rewrite ?length_app; simpl; auto; try lia.
  - unfold write_rgba, read_rgba, modify, get, mbind, M_bind in H.
    destruct (cols w !! backgroundColor (this w)); [|discriminate].
    injection H as <-. revert Hwf.
    apply wf_change; simpl; rewrite ?length_insert; auto.
  - unfold write_vec, read_vec, modify, get, mbind, M_bind in H.
    destruct (vecs w !! particleSize (this w)); [|discriminate].
    injection H as <-. revert Hwf.
    apply wf_change; simpl; rewrite ?length_insert; auto.
  - unfold write_rgba, read_rgba, modify, get, mbind, M_bind in H.
    destruct (cols w !! particleColor (this w)); [|discriminate].
    injection H as <-. revert Hwf.
    apply wf_change; simpl; rewrite ?length_insert; auto.
  - unfold write_vec, read_vec, modify, get, mbind, M_bind in H.
    destruct (vecs w !! particleOrigin (this w)); [|discriminate].
    injection H as <-. revert Hwf.
    apply wf_change; simpl; rewrite ?length_insert; auto.
Qed.

Lemma run_ops_wf (l : list Op) :
  forall w w' : World, wf w -> run_ops l w = Returns (tt, w') -> wf w'.
Proof.
  induction l as [|o l IH]; intros w w' Hwf H.
  - by injection H as <-.
  - apply bind_inv in H as ([] & w1 & H1 & H2).
    apply (IH w1 w'); [by apply (step_wf o w)|done].
Qed.

Lemma wf_new_ParticleSystem (h : Host) : wf (new_ParticleSystem h).
Proof.
  split; simpl; try lia.
  - apply Forall_nil_2.
  - split; apply NoDup_nil_2.
  - apply spawn_order_nil.
  - apply not_elem_of_nil.
  - apply not_elem_of_nil.
  - apply not_elem_of_nil.
  - apply not_elem_of_nil.
Qed.

Lemma reachable_wf (w : World) : reachable w -> wf w.
Proof.
  intros (h & l & H). eapply run_ops_wf; [|exact H].
  apply wf_new_ParticleSystem.
Qed.

(** ** Counting *)

Lemma same_config_refl (s : ParticleSystem) : same_config s s.
Proof. by repeat split. Qed.

Lemma same_config_trans (s1 s2 s3 : ParticleSystem) :
  same_config s1 s2 -> same_config s2 s3 -> same_config s1 s3.
Proof.
  intros (E1 & E2 & E3 & E4 & E5 & E6 & E7 & E8 & E9 & E10 & E11 & E12)
         (G1 & G2 & G3 & G4 & G5 & G6 & G7 & G8 & G9 & G10 & G11 & G12).
  repeat split; congruence.
Qed.

Lemma updated_count (w w' : World) (new : list Particle) :
  updated w w' new ->
  (0 <= maxParticles (this w))%Z ->
  count w' =
    Z.min (count w + Z.max 0 (particlesPerUpdate (this w)))
      (maxParticles (this w)).
Proof.
  intros Hupd Hcap. unfold count.
  rewrite (updated_particles _ _ _ Hupd), length_drop, length_app.
  rewrite (updated_batch _ _ _ Hupd). lia.
Qed.

Lemma updates_count (n : nat) :
  forall w : World,
    wf w ->
    (0 <= particlesPerUpdate (this w))%Z ->
    (0 <= maxParticles (this w))%Z ->
    (count w <= maxParticles (this w))%Z ->
    exists w' : World,
      repeat_M n ParticleSystem_update w = Returns (tt, w') /\
      wf w' /\ same_config (this w) (this w') /\
      count w' =
        Z.min (count w + Z.of_nat n * particlesPerUpdate (this w))
          (maxParticles (this w)).
Proof.
  induction n as [|n IH]; intros w Hwf Hppu Hcap Hc.
  - exists w. split; [done|]. split; [done|]. split; [apply same_config_refl|].
    change (Z.of_nat 0) with 0%Z. lia.
  - destruct (ParticleSystem_update_Returns w Hwf Hcap)
      as (wm & w1 & new & _ & _ & _ & Hupd & Hrel & Hwf1).
    pose proof (updated_count w w1 new Hrel Hcap) as Hc1.
    destruct (updated_config _ _ _ Hrel)
      as (E1 & E2 & E3 & E4 & E5 & E6 & E7 & E8 & E9 & E10 & E11 & E12).
    destruct (IH w1) as (w' & Hrun & Hwf' & Hcfg & Hc'); try done.
    { by rewrite E4. }
    { by rewrite E3. }
    { rewrite E3. lia. }
    exists w'. split; [|split; [done|split]].
    + simpl. by rewrite (bind_Returns _ _ _ _ _ Hupd).
    + by apply same_config_trans with (this w1).
    + rewrite Hc', Hc1, E3, E4, Nat2Z.inj_succ, Z.mul_succ_l. lia.
Qed.

Lemma reachable_example_world : reachable example_world.
Proof.
  exists example_page,
    [Set_particleSpeed 10; Set_particlesPerUpdate 5; Set_maxParticles 3;
     Initialize].
  vm_compute. reflexivity.
Qed.

Lemma wf_example_world : wf example_world.
Proof.
  split; simpl; try lia.
  - apply Forall_nil_2.
  - split; apply NoDup_nil_2.
  - apply spawn_order_nil.
  - apply not_elem_of_nil.
  - apply not_elem_of_nil.
  - apply not_elem_of_nil.
  - apply not_elem_of_nil.
Qed.

Lemma wf_example_flock : wf example_flock.
Proof.
  split; simpl; try lia.
  - repeat constructor; simpl; lia.
  - split; apply (bool_decide_unpack _); by vm_compute.
  - intros i j p q Hi Hj Hij.
    destruct i as [|[|i]]; destruct j as [|[|j]]; simpl in Hi, Hj;
      try discriminate; try lia.
    injection Hi as <-. injection Hj as <-. simpl. lia.
  - apply (bool_decide_unpack _). by vm_compute.
  - apply (bool_decide_unpack _). by vm_compute.
  - apply (bool_decide_unpack _). by vm_compute.
  - apply (bool_decide_unpack _). by vm_compute.
Qed.

(** * The population of particles *)

(** C1. From an empty collection, with a spawn rate and a cap that are
    non-negative integers and that nobody changes, [n] calls of [update]
    in a row return and leave [min (n * particlesPerUpdate) maxParticles]
    live particles. *)
Theorem count_after_updates (w : World) (n : nat) :
  wf w ->
  particles (this w) = [] ->
  (0 <= particlesPerUpdate (this w))%Z ->
  (0 <= maxParticles (this w))%Z ->
  exists w' : World,
    repeat_M n ParticleSystem_update w = Returns (tt, w') /\
    count w' =
      Z.min (Z.of_nat n * particlesPerUpdate (this w)) (maxParticles (this w)).
Proof.
  intros Hwf Hnil Hppu Hcap.
  assert (H0 : count w = 0%Z) by (unfold count; by rewrite Hnil).
  destruct (updates_count n w Hwf Hppu Hcap) as (w' & Hrun & _ & _ & Hc);
    [lia|].
  exists w'. split; [done|]. rewrite Hc, H0. f_equal.
Qed.

Lemma count_after_updates_witness :
  wf example_world /\
  particles (this example_world) = [] /\
  (0 <= particlesPerUpdate (this example_world))%Z /\
  (0 <= maxParticles (this example_world))%Z /\
  exists w' : World,
    repeat_M 4 ParticleSystem_update example_world = Returns (tt, w') /\
    count w' = Z.min (Z.of_nat 4 * 5) 3.
Proof.
  split; [apply wf_example_world|].
  split; [reflexivity|]. split; [simpl; lia|]. split; [simpl; lia|].
  apply (count_after_updates example_world 4).
  - apply wf_example_world.
  - reflexivity.
  - simpl. lia.
  - simpl. lia.
Defined.

(** C2. In every reachable world whose cap is not negative a call of
    [update] returns and leaves at most [maxParticles] live particles.
    The spawn loop itself does not look at the cap: when it ends the
    array holds the old particles and the whole batch, and only the
    trimming loop that follows brings the count down. *)
Theorem cap_after_update (w : World) :
  reachable w ->
  (0 <= maxParticles (this w))%Z ->
  exists wm w' : World,
    age_and_spawn w = Returns (tt, wm) /\
    count wm = (count w + Z.max 0 (particlesPerUpdate (this w)))%Z /\
    trim wm = Returns (tt, w') /\
    ParticleSystem_update w = Returns (tt, w') /\
    (count w' <= maxParticles (this w'))%Z.
Proof.
  intros Hr Hcap. apply reachable_wf in Hr.
  destruct (ParticleSystem_update_Returns w Hr Hcap)
    as (wm & w' & new & Hmid & Hps & Htrim & Hupd & Hrel & _).
  exists wm, w'. split; [done|]. split; [|split; [done|split; [done|]]].
  - unfold count. rewrite Hps, length_app, (updated_batch _ _ _ Hrel). lia.
  - rewrite (updated_count w w' new Hrel Hcap).
    destruct (updated_config _ _ _ Hrel) as (_ & _ & -> & _). lia.
Qed.

Lemma cap_after_update_witness :
  reachable example_world /\
  (0 <= maxParticles (this example_world))%Z /\
  exists wm w' : World,
    age_and_spawn example_world = Returns (tt, wm) /\
    count wm = (count example_world + Z.max 0 5)%Z /\
    trim wm = Returns (tt, w') /\
    ParticleSystem_update example_world = Returns (tt, w') /\
    (count w' <= maxParticles (this w'))%Z.
Proof.
  split; [apply reachable_example_world|]. split; [simpl; lia|].
  apply (cap_after_update example_world).
  - apply reachable_example_world.
  - simpl. lia.
Defined.

(** * Eviction *)

Lemma elem_of_take_drop {A : Type} (d : nat) (l : list A) (e : A) :
  e ∈ l -> e ∉ drop d l -> exists i : nat, (i < d)%nat /\ l !! i = Some e.
Proof.
  intros He Hn. rewrite <- (take_drop d l) in He.
  apply elem_of_app in He as [He|He]; [|done].
  apply list_elem_of_lookup in He as [i Hi].
  exists i. apply lookup_take_Some in Hi as [Hi Hlt]. done.
Qed.

(** C3. The array is kept in the order of spawning: [update] pushes the
    particles it spawns at the end, and each step of the trimming loop
    removes the first element.  So after a call of [update] in a
    well-formed world (every reachable world is one, [reachable_wf]) the
    live particles are a suffix of the old particles followed by the
    batch, every particle removed was spawned before every particle kept,
    and none is removed unless the old particles and the batch together
    exceed the cap: the number of particles alone decides. *)
Theorem eviction_is_fifo (w : World) :
  wf w ->
  (0 <= maxParticles (this w))%Z ->
  exists (w' : World) (new : list Particle),
    ParticleSystem_update w = Returns (tt, w') /\
    length new = Z.to_nat (particlesPerUpdate (this w)) /\
    (forall q : Particle, q ∈ new -> (length (vecs w) <= pos q)%nat) /\
    spawn_order (particles (this w) ++ new) /\
    particles (this w') =
      drop (length (particles (this w) ++ new) - Z.to_nat (maxParticles (this w)))
        (particles (this w) ++ new) /\
    (forall e s : Particle,
       e ∈ particles (this w) ++ new ->
       e ∉ particles (this w') ->
       s ∈ particles (this w') ->
       (pos e < pos s)%nat) /\
    ((Z.of_nat (length (particles (this w) ++ new)) <= maxParticles (this w))%Z ->
     particles (this w') = particles (this w) ++ new) /\
    (forall (p : Particle) (ps : list Particle),
       (Z.of_nat (length (p :: ps)) > maxParticles (this w))%Z ->
       shift_while_over (maxParticles (this w)) (p :: ps) =
       shift_while_over (maxParticles (this w)) (shift (p :: ps))).
Proof.
  intros Hwf Hcap.
  destruct (ParticleSystem_update_Returns w Hwf Hcap)
    as (wm & w' & new & _ & _ & _ & Hupd & Hrel & _).
  exists w', new.
  pose proof (updated_particles _ _ _ Hrel) as Hps.
  pose proof (updated_order _ _ _ Hrel) as Hord.
  split; [done|]. split; [apply (updated_batch _ _ _ Hrel)|].
  split; [intros q Hq; by destruct (updated_fresh _ _ _ Hrel q Hq)|].
  split; [done|]. split; [done|]. split; [|split].
  - intros e s He Hne Hs. rewrite Hps in Hne, Hs.
    destruct (elem_of_take_drop _ _ _ He Hne) as (i & Hi & Hei).
    apply list_elem_of_lookup in Hs as [j Hj]. rewrite lookup_drop in Hj.
    apply (Hord i _ e s Hei Hj). lia.
  - intros Hfit. rewrite Hps.
    replace (length (particles (this w) ++ new) -
             Z.to_nat (maxParticles (this w)))%nat with 0%nat by lia.
    done.
  - intros p ps Hover. cbn [shift_while_over shift tail].
    destruct (Z.gtb_spec (Z.of_nat (length (p :: ps))) (maxParticles (this w)));
      [done|lia].
Qed.

Lemma eviction_is_fifo_witness :
  wf example_flock /\
  (0 <= maxParticles (this example_flock))%Z /\
  exists (w' : World) (new : list Particle),
    ParticleSystem_update example_flock = Returns (tt, w') /\
    length new = 5%nat /\
    particles (this w') =
      drop (length (example_particles ++ new) - 3) (example_particles ++ new) /\
    (forall e s : Particle,
       e ∈ example_particles ++ new ->
       e ∉ particles (this w') -> s ∈ particles (this w') ->
       (pos e < pos s)%nat).
Proof.
  split; [apply wf_example_flock|]. split; [simpl; lia|].
  destruct (eviction_is_fifo example_flock)
    as (w' & new & H1 & H2 & _ & _ & H4 & H5 & _).
  - apply wf_example_flock.
  - simpl. lia.
  - exists w', new. split; [exact H1|]. split; [exact H2|].
    split; [exact H4|exact H5].
Defined.

(** * Ageing and spawning within one call *)

(** C6. In a call of [update] in a well-formed world the animator runs
    over the particles that were in the array before the call, each of
    which is aged once.  The
    objects of the particles spawned by the call are allocated after the
    animator has run; when the call ends each of these particles has the
    recomputed origin as its position and the contents of the size and
    colour templates as its size and colour, and the templates are what
    they were when the call began. *)
Theorem spawned_particles_not_aged (w : World) :
  wf w ->
  (0 <= maxParticles (this w))%Z ->
  exists (w' : World) (new : list Particle) (O : vec2),
    ParticleSystem_update w = Returns (tt, w') /\
    length new = Z.to_nat (particlesPerUpdate (this w)) /\
    particles (this w') =
      drop (length (particles (this w) ++ new) - Z.to_nat (maxParticles (this w)))
        (particles (this w) ++ new) /\
    vecs w' !! particleOrigin (this w') = Some O /\
    vecs w' !! particleOrigin (this w') = vecs w !! particleOrigin (this w) /\
    vecs w' !! particleSize (this w') = vecs w !! particleSize (this w) /\
    cols w' !! particleColor (this w') = cols w !! particleColor (this w) /\
    (forall p : Particle, p ∈ new ->
       (length (vecs w) <= pos p)%nat /\ (length (vecs w) <= size p)%nat /\
       (length (cols w) <= color p)%nat /\
       pos_of w' p =
         Some (Vec2 (width (this w) * x O) (height (this w) * y O)) /\
       size_of w' p = vecs w' !! particleSize (this w') /\
       color_of w' p = cols w' !! particleColor (this w')) /\
    (forall p : Particle, p ∈ particles (this w) ->
       exists (P S V : vec2) (C : rgba),
         pos_of w p = Some P /\ size_of w p = Some S /\
         velocity_of w p = Some V /\ color_of w p = Some C /\
         pos_of w' p = Some (Vec2 (x P + x V) (y P + y V)) /\
         size_of w' p = Some (Vec2 (x S * 0.98) (y S * 0.98)) /\
         color_of w' p = Some (aged_color (particleAnimator (this w)) C)).
Proof.
  intros Hwf Hcap.
  destruct (ParticleSystem_update_Returns w Hwf Hcap)
    as (wm & w' & new & _ & _ & _ & Hupd & Hrel & _).
  destruct (updated_config _ _ _ Hrel)
    as (E1 & E2 & E3 & E4 & E5 & E6 & E7 & E8 & E9 & E10 & E11 & E12).
  assert (HfO : vecs w' !! particleOrigin (this w') =
                vecs w !! particleOrigin (this w)).
  { rewrite E8. apply (updated_vecs_frame _ _ _ Hrel).
    - apply (wf_origin w Hwf).
    - apply template_not_aged, (wf_origin_private w Hwf). }
  assert (HfS : vecs w' !! particleSize (this w') =
                vecs w !! particleSize (this w)).
  { rewrite E6. apply (updated_vecs_frame _ _ _ Hrel).
    - apply (wf_size w Hwf).
    - apply template_not_aged, (wf_size_private w Hwf). }
  assert (HfC : cols w' !! particleColor (this w') =
                cols w !! particleColor (this w)).
  { rewrite E7. apply (updated_cols_frame _ _ _ Hrel).
    - apply (wf_color w Hwf).
    - apply (wf_color_private w Hwf). }
  destruct (lookup_lt_is_Some_2 _ _ (wf_origin w Hwf)) as [O HO].
  exists w', new, O.
  split; [done|]. split; [apply (updated_batch _ _ _ Hrel)|].
  split; [apply (updated_particles _ _ _ Hrel)|].
  split; [by rewrite HfO|]. split; [done|]. split; [done|]. split; [done|].
  split.
  - intros p Hp.
    destruct (updated_fresh _ _ _ Hrel p Hp) as (F1 & F2 & F3 & F4).
    apply list_elem_of_lookup in Hp as [i Hi].
    destruct (updated_new _ _ _ Hrel i p Hi) as (O' & HO' & N1 & N2 & N3 & _).
    rewrite HO in HO'. injection HO' as <-.
    rewrite HfS, HfC. done.
  - intros p Hp.
    destruct (updated_old _ _ _ Hrel p Hp)
      as (P & S & V & C & H1 & H2 & H3 & H4 & H5 & H6 & H7 & H8).
    by exists P, S, V, C.
Qed.

Lemma spawned_particles_not_aged_witness :
  wf example_flock /\
  (0 <= maxParticles (this example_flock))%Z /\
  exists (w' : World) (new : list Particle),
    ParticleSystem_update example_flock = Returns (tt, w') /\
    length new = 5%nat /\
    (forall p : Particle, p ∈ new ->
       pos_of w' p = Some (Vec2 (200 * 0.5) (100 * 0.5)) /\
       size_of w' p = Some (Vec2 1 1) /\
       color_of w' p = Some (Rgba 255 255 255 1)) /\
    size_of w' (mkParticle 6 7 3 8) = Some (Vec2 (0.98 * 0.98) (0.98 * 0.98)).
Proof.
  split; [apply wf_example_flock|]. split; [simpl; lia|].
  destruct (spawned_particles_not_aged example_flock)
    as (w' & new & O & H1 & H2 & _ & H4 & H5 & H6 & H7 & H8 & H9).
  - apply wf_example_flock.
  - simpl. lia.
  - exists w', new. split; [exact H1|]. split; [exact H2|]. split.
    + intros p Hp. destruct (H8 p Hp) as (_ & _ & _ & N1 & N2 & N3).
      rewrite N1, N2, N3, H6, H7. rewrite H5 in H4.
      injection H4 as <-. repeat split.
    + destruct (H9 (mkParticle 6 7 3 8))
        as (P & S & V & C & G1 & G2 & _ & _ & _ & G6 & _).
      * apply elem_of_cons. right. apply elem_of_cons. by left.
      * rewrite G6. injection G2 as <-. reflexivity.
Defined.

(** * Ageing over several ticks *)


(** * The animators *)



Lemma example_particles_valid :
  Forall (valid_particle example_flock) example_particles.
Proof. repeat constructor; simpl; lia. Qed.

Lemma example_particles_separated : separated example_particles.
Proof. split; apply (bool_decide_unpack _); by vm_compute. Qed.


(** The size of the first example particle after three passes. *)
Example default_animator_three_passes :
  match repeat_M 3 (DefaultParticleAnimator_update example_particles)
          example_flock with
  | Returns (_, w) => vecs w !! 4%nat
  | _ => None
  end = Some (Vec2 (1 * 0.98 * 0.98 * 0.98) (1 * 0.98 * 0.98 * 0.98)).
Proof. reflexivity. Qed.




(** Red is not clamped: a white particle is redder than 255 after one
    pass of the fancy animator. *)
Example fancy_animator_red_unbounded :
  match FancyParticleAnimator_update example_particles example_flock with
  | Returns (_, w) => cols w !! 2%nat
  | _ => None
  end = Some (Rgba (255 * 1.02) (255 * 0.98) (255 * 0.98) (1 * 0.99)).
Proof. reflexivity. Qed.


(** C10. Whatever the collection, a pass of the default animator that
    returns leaves every colour object as it was, all four channels; it
    does return on a collection of valid particles that share no object;
    and a pass of an animator that changes a colour is a pass of the fancy
    animator. *)
Theorem default_animator_keeps_colors (ps : list Particle) (w : World) :
  (forall w' : World,
     DefaultParticleAnimator_update ps w = Returns (tt, w') ->
     cols w' = cols w /\
     forall p : Particle, color_of w' p = color_of w p) /\
  (Forall (valid_particle w) ps -> separated ps ->
   exists w' : World, DefaultParticleAnimator_update ps w = Returns (tt, w')) /\
  (forall (an : Animator) (w' : World),
     animator_update an ps w = Returns (tt, w') ->
     cols w' <> cols w -> an = FancyParticleAnimator).
Proof.
  assert (Hframe : forall w' : World,
            DefaultParticleAnimator_update ps w = Returns (tt, w') ->
            cols w' = cols w).
  { intros w' H. by apply (default_update_same_cols ps w w' tt). }
  split; [|split].
  - intros w' H. split; [by apply Hframe|].
    intros p. unfold color_of. by rewrite (Hframe w' H).
  - intros Hvalid Hsep.
    destruct (animator_update_Returns DefaultParticleAnimator ps w Hvalid Hsep)
      as (w' & Hrun & _).
    by exists w'.
  - intros an w' H Hne. destruct an; [|done].
    destruct Hne. by apply Hframe.
Qed.

Lemma default_animator_keeps_colors_witness :
  exists w' : World,
    DefaultParticleAnimator_update example_particles example_flock =
      Returns (tt, w') /\
    cols w' = cols example_flock.
Proof.
  destruct (default_animator_keeps_colors example_particles example_flock)
    as (Hframe & Htotal & _).
  destruct (Htotal example_particles_valid example_particles_separated)
    as (w' & Hrun).
  exists w'. split; [exact Hrun|]. exact (proj1 (Hframe w' Hrun)).
Defined.

(** * Velocities *)

Lemma untouchable_change (v : loc) (w w' : World) :
  (forall q : Particle, q ∈ particles (this w') ->
     q ∈ particles (this w) \/
     (length (vecs w) <= pos q /\ length (vecs w) <= size q)%nat) ->
  (length (vecs w) <= length (vecs w'))%nat ->
  (particleSize (this w') = particleSize (this w) \/
   length (vecs w) <= particleSize (this w'))%nat ->
  (particleOrigin (this w') = particleOrigin (this w) \/
   length (vecs w) <= particleOrigin (this w'))%nat ->
  untouchable v w -> untouchable v w'.
Proof.
  intros Hps Hlen Hsz Hor (Hv & Hnot & Hs & Ho).
  split; [lia|]. split; [|split].
  - intros Hin. apply elem_of_aged_locs in Hin as (q & Hq & Hl).
    destruct (Hps q Hq) as [Hold|Hnew].
    + apply Hnot, elem_of_aged_locs. by exists q.
    + destruct Hl as [-> | ->]; lia.
  - destruct Hsz as [->|?]; [done|lia].
  - destruct Hor as [->|?]; [done|lia].
Qed.

Lemma separated_velocity (l : list Particle) :
  separated l ->
  forall p : Particle, p ∈ l -> velocity p ∉ l ≫= aged_locs.
Proof.
  induction l as [|e l IH]; intros Hsep p Hp Hin.
  - by apply elem_of_nil in Hp.
  - apply separated_cons in Hsep
      as (Hps & Hpv & Hsv & HpN & HsN & HvN & _ & Hsep).
    rewrite bind_cons in Hin. unfold aged_locs at 1 in Hin.
    apply elem_of_app in Hin as [Hin|Hin].
    + apply elem_of_cons in Hp as [->|Hp]; [set_solver|].
      destruct (elem_of_vec_locs l p Hp) as (_ & _ & Hvl). set_solver.
    + apply elem_of_cons in Hp as [->|Hp].
      * by apply HvN, aged_locs_vec_locs.
      * by apply (IH Hsep p Hp).
Qed.

Lemma step_untouchable (o : Op) (v : loc) (w w' : World) :
  wf w -> untouchable v w -> step o w = Returns (tt, w') ->
  untouchable v w' /\ vecs w' !! v = vecs w !! v.
Proof.
  intros Hwf Hun H.
  assert (Hstore : same_store w w' ->
                   untouchable v w' /\ vecs w' !! v = vecs w !! v).
  { intros (Hv & Hc & wd & hg & Ht). split; [|by rewrite Hv].
    revert Hun. apply untouchable_change; rewrite ?Ht, ?Hv; simpl; auto. }
  destruct o; simpl in H.
  - apply Hstore. by eapply initialize_same_store.
  - apply Hstore. by eapply resize_same_store.
  - apply Hstore. by eapply draw_same_store.
  - pose proof (update_Returns_cap w w' Hwf H) as Hcap.
    destruct (ParticleSystem_update_Returns w Hwf Hcap)
      as (wm & w2 & new & _ & _ & _ & Hupd & Hrel & _).
    rewrite Hupd in H. injection H as <-.
    destruct (updated_config _ _ _ Hrel)
      as (E1 & E2 & E3 & E4 & E5 & E6 & E7 & E8 & E9 & E10 & E11 & E12).
    pose proof Hun as (Hv & Hnot & _).
    split; [|by apply (updated_vecs_frame _ _ _ Hrel)].
    revert Hun. apply untouchable_change; auto.
    + intros q Hq. rewrite (updated_particles _ _ _ Hrel) in Hq.
      apply elem_of_drop_1, elem_of_app in Hq as [Hq|Hq]; [by left|right].
      destruct (updated_fresh _ _ _ Hrel q Hq) as (? & ? & _). lia.
    + apply (updated_vecs_length _ _ _ Hrel).
  - injection H as <-. by split.
  - injection H as <-. by split.
  - injection H as <-. by split.
  - injection H as <-. by split.
  - injection H as <-. by split.
  - injection H as <-. by split.
  - injection H as <-. by split.
  - injection H as <-. destruct Hun as (Hv & Hnot & Hs & Ho). split.
    + split; [simpl; rewrite length_app; lia|]. split; [done|].
      split; [simpl; lia|done].
    + simpl. by rewrite lookup_app_l.
  - injection H as <-. by split.
  - injection H as <-. destruct Hun as (Hv & Hnot & Hs & Ho). split.
    + split; [simpl; rewrite length_app; lia|]. split; [done|].
      split; [done|simpl; lia].
    + simpl. by rewrite lookup_app_l.
  - unfold write_rgba, read_rgba, modify, get, mbind, M_bind in H.
    destruct (cols w !! backgroundColor (this w)); [|discriminate].
    injection H as <-. by split.
  - unfold write_vec, read_vec, modify, get, mbind, M_bind in H.
    destruct (vecs w !! particleSize (this w)); [|discriminate].
    injection H as <-. destruct Hun as (Hv & Hnot & Hs & Ho). split.
    + split; [simpl; by rewrite length_insert|]. by split.
    + simpl. by rewrite list_lookup_insert_ne.
  - unfold write_rgba, read_rgba, modify, get, mbind, M_bind in H.
    destruct (cols w !! particleColor (this w)); [|discriminate].
    injection H as <-. by split.
  - unfold write_vec, read_vec, modify, get, mbind, M_bind in H.
    destruct (vecs w !! particleOrigin (this w)); [|discriminate].
    injection H as <-. destruct Hun as (Hv & Hnot & Hs & Ho). split.
    + split; [simpl; by rewrite length_insert|]. by split.
    + simpl. by rewrite list_lookup_insert_ne.
Qed.

Lemma run_ops_untouchable (l : list Op) (v : loc) :
  forall w w' : World,
    wf w -> untouchable v w -> run_ops l w = Returns (tt, w') ->
    vecs w' !! v = vecs w !! v.
Proof.
  induction l as [|o l IH]; intros w w' Hwf Hun H.
  - by injection H as <-.
  - apply bind_inv in H as ([] & w1 & H1 & H2).
    destruct (step_untouchable o v w w1 Hwf Hun H1) as (Hun1 & Heq).
    rewrite <- Heq. apply (IH w1 w'); [|done|done].
    by apply (step_wf o w).
Qed.

Lemma live_velocity_untouchable (w : World) (p : Particle) :
  wf w -> p ∈ particles (this w) -> untouchable (velocity p) w.
Proof.
  intros Hwf Hp.
  pose proof (wf_valid w Hwf) as Hval. rewrite Forall_forall in Hval.
  destruct (Hval p Hp) as (_ & _ & Hv & _).
  destruct (elem_of_vec_locs _ p Hp) as (_ & _ & Hin).
  split; [done|]. split; [|split].
  - by apply separated_velocity; [apply (wf_separated w Hwf)|].
  - intros E. apply (wf_size_private w Hwf). by rewrite <- E.
  - intros E. apply (wf_origin_private w Hwf). by rewrite <- E.
Qed.

Lemma velocity_untouchable_after_update (w w1 : World) (new : list Particle)
    (p : Particle) :
  wf w -> updated w w1 new -> p ∈ particles (this w) ++ new ->
  untouchable (velocity p) w1.
Proof.
  intros Hwf Hrel Hp.
  destruct (updated_config _ _ _ Hrel)
    as (E1 & E2 & E3 & E4 & E5 & E6 & E7 & E8 & E9 & E10 & E11 & E12).
  pose proof (updated_vecs_length _ _ _ Hrel) as Hlen.
  pose proof (wf_size w Hwf) as Hsz. pose proof (wf_origin w Hwf) as Hor.
  assert (Hnot : velocity p ∉ particles (this w1) ≫= aged_locs).
  { intros Hin. apply elem_of_aged_locs in Hin as (q & Hq & Hl).
    rewrite (updated_particles _ _ _ Hrel) in Hq. apply elem_of_drop_1 in Hq.
    apply (separated_velocity _ (updated_separated _ _ _ Hrel) p Hp).
    apply elem_of_aged_locs. by exists q. }
  apply elem_of_app in Hp as [Hp|Hp].
  - destruct (live_velocity_untouchable w p Hwf Hp) as (Hv & _ & Hs & Ho).
    split; [lia|]. split; [done|]. by rewrite E6, E8.
  - destruct (updated_fresh _ _ _ Hrel p Hp) as (_ & _ & Hv & _).
    apply list_elem_of_lookup in Hp as [i Hi].
    destruct (updated_new _ _ _ Hrel i p Hi) as (O & _ & _ & _ & _ & Hvel).
    apply lookup_lt_Some in Hvel.
    split; [done|]. split; [done|]. rewrite E6, E8. lia.
Qed.

(** C7. The velocity object of a particle is written once, by the
    constructor that [update] calls to spawn it: its two fields are
    [(Math.random() - 0.5) * particleSpeed] for two successive values of
    the random tape and the speed of that moment.  Whatever the system
    and its owner do afterwards (calls of [update] and [draw] under either
    animator and either renderer, [initialize], [resize], assignments to
    the public fields) leaves the object as it is, also after the
    particle has been evicted. *)
Theorem velocity_is_immutable (w : World) :
  wf w ->
  (0 <= maxParticles (this w))%Z ->
  exists (w1 : World) (new : list Particle),
    ParticleSystem_update w = Returns (tt, w1) /\
    length new = Z.to_nat (particlesPerUpdate (this w)) /\
    (forall (i : nat) (p : Particle), new !! i = Some p ->
       velocity_of w1 p =
         Some (Vec2
                 ((random_tape (host w) (2 * i + random_next (host w)) - 0.5) *
                  particleSpeed (this w))
                 ((random_tape (host w) (S (2 * i + random_next (host w))) - 0.5) *
                  particleSpeed (this w)))) /\
    (forall p : Particle, p ∈ particles (this w) ->
       velocity_of w1 p = velocity_of w p) /\
    (forall (p : Particle) (l : list Op) (w2 : World),
       p ∈ particles (this w) ++ new ->
       run_ops l w1 = Returns (tt, w2) ->
       velocity_of w2 p = velocity_of w1 p).
Proof.
  intros Hwf Hcap.
  destruct (ParticleSystem_update_Returns w Hwf Hcap)
    as (wm & w1 & new & _ & _ & _ & Hupd & Hrel & Hwf1).
  exists w1, new. split; [done|]. split; [apply (updated_batch _ _ _ Hrel)|].
  split; [|split].
  - intros i p Hi.
    destruct (updated_new _ _ _ Hrel i p Hi) as (O & _ & _ & _ & _ & Hvel).
    exact Hvel.
  - intros p Hp.
    destruct (updated_old _ _ _ Hrel p Hp)
      as (P & S & V & C & H1 & H2 & H3 & H4 & H5 & H6 & H7 & H8).
    by rewrite H7, H3.
  - intros p l w2 Hp Hrun. unfold velocity_of.
    apply (run_ops_untouchable l (velocity p) w1 w2); [done| |done].
    by apply (velocity_untouchable_after_update w w1 new p).
Qed.

Lemma velocity_is_immutable_witness :
  wf example_flock /\
  (0 <= maxParticles (this example_flock))%Z /\
  exists (w1 : World) (new : list Particle),
    ParticleSystem_update example_flock = Returns (tt, w1) /\
    length new = 5%nat /\
    (forall p : Particle, new !! 1%nat = Some p ->
       velocity_of w1 p =
         Some (Vec2 (((2 # 4) - 0.5) * 10) (((3 # 4) - 0.5) * 10))) /\
    (forall p : Particle, p ∈ example_particles ->
       velocity_of w1 p = velocity_of example_flock p) /\
    (forall (p : Particle) (w2 : World),
       p ∈ example_particles ++ new ->
       run_ops [Set_particleAnimator FancyParticleAnimator; Draw; Update; Draw]
         w1 = Returns (tt, w2) ->
       velocity_of w2 p = velocity_of w1 p).
Proof.
  split; [apply wf_example_flock|]. split; [simpl; lia|].
  destruct (velocity_is_immutable example_flock)
    as (w1 & new & H1 & H2 & H3 & H4 & H5).
  - apply wf_example_flock.
  - simpl. lia.
  - exists w1, new. split; [exact H1|]. split; [exact H2|]. split; [|split].
    + intros p Hp. rewrite (H3 1%nat p Hp). reflexivity.
    + exact H4.
    + intros p w2 Hp Hrun. exact (H5 p _ w2 Hp Hrun).
Defined.

(** * The background *)

Lemma modify_canvas_Returns (f : Canvas -> Canvas) (w : World) (cv : Canvas) :
  context w = true ->
  element (host w) = Some cv ->
  modify_canvas f w = Returns (tt, set_host (set_element f) w).
Proof.
  intros Hc He. unfold modify_canvas, read_canvas, mbind, M_bind.
  by rewrite Hc, He.
Qed.

Lemma element_set_element (f : Canvas -> Canvas) (w : World) (cv : Canvas) :
  element (host w) = Some cv ->
  element (host (set_host (set_element f) w)) = Some (f cv).
Proof. intros He. simpl. by rewrite He. Qed.

Lemma paints_set_element (f : Canvas -> Canvas) (w : World) :
  (forall cv : Canvas,
     saved (f cv) = saved cv /\ painted cv `prefix_of` painted (f cv)) ->
  paints w (set_host (set_element f) w).
Proof.
  intros Hf. repeat split. simpl.
  destruct (element (host w)) as [cv|]; simpl; [apply Hf|done].
Qed.

Ltac paints_leaf :=
  apply paints_set_element; intros ?; simpl; split;
    [ reflexivity | first [ reflexivity | by apply prefix_app_r ] ].

Lemma renderer_draw_paints (rd : Renderer) (p : Particle) :
  preserves paints (renderer_draw rd p).
Proof.
  destruct rd; simpl;
    unfold SquareParticleRenderer_draw, RoundParticleRenderer_draw,
      context_set_fillStyle, context_fillRect, context_beginPath, context_arc,
      context_fill, modify_canvas, get_x, get_y;
    frame; try paints_leaf.
  destruct (Qle_bool _ _); frame. paints_leaf.
Qed.

Lemma animator_draw_paints (an : Animator) (ps : list Particle) (rd : Renderer) :
  preserves paints (animator_draw an ps rd).
Proof.
  destruct an; simpl;
    unfold DefaultParticleAnimator_draw, FancyParticleAnimator_draw,
      context_set_globalCompositeOperation, modify_canvas;
    frame; try paints_leaf; apply renderer_draw_paints.
Qed.

Lemma primed_paints (c : CssColor) (w w' : World) :
  primed c w -> paints w w' -> primed c w'.
Proof.
  intros (Hc & cv & s & rest & He & Hs & Hf) (_ & _ & _ & Hc' & Hp).
  split; [congruence|]. rewrite He in Hp.
  destruct (element (host w')) as [cv'|] eqn:He'; [|done].
  destruct Hp as [Hsaved _].
  exists cv', s, rest. split; [done|]. split; [congruence|done].
Qed.

Lemma primed_same_canvas (c : CssColor) (w w' : World) :
  primed c w -> same_canvas w w' -> primed c w'.
Proof.
  intros (Hc & cv & s & rest & He & Hs & Hf) (Hc' & He').
  split; [congruence|].
  exists cv, s, rest. split; [congruence|]. done.
Qed.

(** The first four statements of [draw] in a primed world. *)
Lemma repaint_background_Returns (w : World) (cv : Canvas) (s : DrawingState)
    (rest : list DrawingState) :
  context w = true ->
  element (host w) = Some cv ->
  saved cv = s :: rest ->
  repaint_background w =
    Returns (tt, set_host (set_element (fun _ =>
      mkCanvas (canvas_width cv) (canvas_height cv) (offsetLeft cv) (offsetTop cv)
        s (s :: rest) (path cv)
        ((painted cv ++ [ClearRect 0 0 (width (this w)) (height (this w))]) ++
         [FillRect (fillStyle s) (globalCompositeOperation s)
            0 0 (width (this w)) (height (this w))]))) w).
Proof.
  intros Hc He Hs. unfold repaint_background.
  unfold context_restore, context_clearRect, context_fillRect, context_save.
  rewrite (bind_Returns _ _ _ _ _ (modify_canvas_Returns _ w cv Hc He)).
  set (w1 := set_host _ w).
  assert (He1 := element_set_element _ w cv He : element (host w1) = Some _).
  unfold get. unfold mbind at 1, M_bind at 1.
  rewrite (bind_Returns _ _ _ _ _ (modify_canvas_Returns _ w1 _ Hc He1)).
  set (w2 := set_host _ w1).
  assert (He2 := element_set_element _ w1 _ He1 : element (host w2) = Some _).
  rewrite (bind_Returns _ _ _ _ _ (modify_canvas_Returns _ w2 _ Hc He2)).
  set (w3 := set_host _ w2).
  assert (He3 := element_set_element _ w2 _ He2 : element (host w3) = Some _).
  rewrite (modify_canvas_Returns _ w3 _ Hc He3).
  unfold w3, w2, w1, set_host, set_element. simpl.
  rewrite He. simpl. rewrite Hs. reflexivity.
Qed.

Lemma new_vec_same_canvas (v : vec2) : preserves same_canvas (new_vec v).
Proof. intros w w' l [= _ <-]. done. Qed.

Lemma new_rgba_same_canvas (c : rgba) : preserves same_canvas (new_rgba c).
Proof. intros w w' l [= _ <-]. done. Qed.

Lemma Math_random_same_canvas : preserves same_canvas Math_random.
Proof. intros w w' l [= _ <-]. done. Qed.

Lemma trim_same_canvas : preserves same_canvas trim.
Proof.
  intros w w' u H. unfold trim in H.
  destruct (shift_while_over _ _); try discriminate.
  injection H as _ <-. done.
Qed.

Ltac same_canvas_leaf :=
  first [ apply new_vec_same_canvas
        | apply new_rgba_same_canvas
        | apply Math_random_same_canvas
        | apply trim_same_canvas
        | done ].

Lemma update_particle_same_canvas (an : Animator) (p : Particle) :
  preserves same_canvas (update_particle an p).
Proof.
  destruct an; simpl;
    unfold default_update_particle, fancy_update_particle,
      get_x, get_y, set_x, set_y, write_vec,
      get_r, get_g, get_b, get_a, set_r, set_g, set_b, set_a, write_rgba;
    frame; done.
Qed.

Lemma spawn_same_canvas : preserves same_canvas spawn.
Proof.
  unfold spawn, extend_vec, extend_rgba, new_Particle.
  frame; same_canvas_leaf.
Qed.

Lemma update_same_canvas : preserves same_canvas ParticleSystem_update.
Proof.
  unfold ParticleSystem_update, age_and_spawn.
  apply preserves_bind; [apply _| |intros; apply trim_same_canvas].
  apply preserves_bind; [apply _|apply preserves_get; apply _|intros w0].
  apply preserves_bind; [apply _| |intros].
  { rewrite animator_update_for_each. apply preserves_for_each; try apply _.
    apply update_particle_same_canvas. }
  apply preserves_bind; [apply _|apply preserves_get; apply _|intros w1].
  apply preserves_bind; [apply _|apply preserves_read_vec; apply _|intros o].
  apply preserves_bind; [apply _|apply new_vec_same_canvas|intros l].
  apply preserves_bind; [apply _|by apply preserves_modify|intros].
  apply preserves_bind; [apply _|apply preserves_get; apply _|intros w2].
  apply preserves_repeat_M; try apply _. apply spawn_same_canvas.
Qed.

Lemma step_primed (c : CssColor) (o : Op) (w w' : World) :
  keeps_context o -> primed c w -> step o w = Returns (tt, w') -> primed c w'.
Proof.
  intros Hk Hp H. destruct o; simpl in H; try done.
  - (* draw *)
    unfold ParticleSystem_draw in H.
    apply bind_inv in H as ([] & w1 & H1 & H2).
    unfold get in H2. unfold mbind at 1, M_bind at 1 in H2.
    pose proof Hp as (Hc & cv & s & rest & He & Hs & Hf).
    rewrite (repaint_background_Returns w cv s rest Hc He Hs) in H1.
    injection H1 as Hw1.
    assert (Hp1 : primed c w1).
    { rewrite <- Hw1. split; [done|]. eexists _, s, rest.
      split; [by apply element_set_element|]. done. }
    apply (primed_paints c w1 w' Hp1).
    exact (animator_draw_paints _ _ _ w1 w' tt H2).
  - apply (primed_same_canvas c w); [done|by eapply update_same_canvas].
  - injection H as <-. by apply (primed_same_canvas c w).
  - injection H as <-. by apply (primed_same_canvas c w).
  - injection H as <-. by apply (primed_same_canvas c w).
  - injection H as <-. by apply (primed_same_canvas c w).
  - injection H as <-. by apply (primed_same_canvas c w).
  - injection H as <-. by apply (primed_same_canvas c w).
  - injection H as <-. by apply (primed_same_canvas c w).
  - injection H as <-. by apply (primed_same_canvas c w).
  - injection H as <-. by apply (primed_same_canvas c w).
  - injection H as <-. by apply (primed_same_canvas c w).
  - unfold write_rgba, read_rgba, modify, get, mbind, M_bind in H.
    destruct (cols w !! backgroundColor (this w)); [|discriminate].
    injection H as <-. by apply (primed_same_canvas c w).
  - unfold write_vec, read_vec, modify, get, mbind, M_bind in H.
    destruct (vecs w !! particleSize (this w)); [|discriminate].
    injection H as <-. by apply (primed_same_canvas c w).
  - unfold write_rgba, read_rgba, modify, get, mbind, M_bind in H.
    destruct (cols w !! particleColor (this w)); [|discriminate].
    injection H as <-. by apply (primed_same_canvas c w).
  - unfold write_vec, read_vec, modify, get, mbind, M_bind in H.
    destruct (vecs w !! particleOrigin (this w)); [|discriminate].
    injection H as <-. by apply (primed_same_canvas c w).
Qed.

Lemma run_ops_primed (c : CssColor) (l : list Op) :
  forall w w' : World,
    Forall keeps_context l -> primed c w ->
    run_ops l w = Returns (tt, w') -> primed c w'.
Proof.
  induction l as [|o l IH]; intros w w' Hk Hp H.
  - by injection H as <-.
  - apply Forall_cons in Hk as [Hko Hk].
    apply bind_inv in H as ([] & w1 & H1 & H2).
    apply (IH w1 w'); [done|by apply (step_primed c o w)|done].
Qed.

#[global] Instance keeps_bound_preorder : PreOrder keeps_bound.
Proof.
  split; [done|].
  intros w1 w2 w3 [H1 H2] [G1 G2]. split; [congruence|auto].
Qed.

Lemma keeps_bound_set_element (f : Canvas -> Canvas) (w : World) :
  keeps_bound w (set_host (set_element f) w).
Proof.
  split; [done|]. simpl. intros [cv ->]. by eexists.
Qed.

Lemma resize_keeps_bound : preserves keeps_bound ParticleSystem_resize.
Proof.
  unfold ParticleSystem_resize. frame; try done.
  destruct (autoResize _);
    unfold context_canvas_set_width, context_canvas_set_height, modify_canvas;
    frame; apply keeps_bound_set_element.
Qed.

(** [initialize] primes the context with the background colour it reads. *)
Lemma initialize_primed (w w1 : World) (bg : rgba) :
  cols w !! backgroundColor (this w) = Some bg ->
  ParticleSystem_initialize w = Returns (tt, w1) ->
  primed (rgbaToString bg) w1.
Proof.
  intros Hbg H. unfold ParticleSystem_initialize, get in H.
  unfold mbind at 1, M_bind at 1 in H.
  destruct (element (host w)) as [cv|] eqn:He; [|discriminate].
  apply bind_inv in H as ([] & wa & Ha & H). injection Ha as <-.
  apply bind_inv in H as ([] & wb & Hb & H).
  destruct (resize_same_store _ _ _ Hb) as (_ & Hcols & wd & hg & Hthis).
  destruct (resize_keeps_bound _ _ _ Hb) as (Hctx & Hel).
  simpl in Hctx, Hcols, Hthis.
  destruct Hel as [cvb Heb]; [simpl; by rewrite He|].
  unfold mbind at 1, M_bind at 1 in H.
  assert (Hbgb : cols wb !! backgroundColor (this wb) = Some bg)
    by (by rewrite Hcols, Hthis).
  rewrite (bind_Returns _ _ _ _ _ (read_rgba_Returns _ _ _ Hbgb)) in H.
  unfold context_set_fillStyle, context_save in H.
  rewrite (bind_Returns _ _ _ _ _ (modify_canvas_Returns _ wb cvb Hctx Heb)) in H.
  set (wc := set_host _ wb) in H.
  assert (Hec := element_set_element _ wb cvb Heb : element (host wc) = Some _).
  rewrite (modify_canvas_Returns _ wc _ Hctx Hec) in H.
  injection H as <-. split; [done|].
  eexists _, _, _. split; [by apply element_set_element|]. split; done.
Qed.

Lemma initialize_Returns (w : World) (cv : Canvas) :
  element (host w) = Some cv ->
  (backgroundColor (this w) < length (cols w))%nat ->
  exists w1 : World, ParticleSystem_initialize w = Returns (tt, w1).
Proof.
  intros He Hbg. unfold ParticleSystem_initialize, get.
  unfold mbind at 1, M_bind at 1. rewrite He.
  unfold modify at 1. unfold mbind at 1, M_bind at 1.
  set (wa := set_context true w).
  assert (Hea : element (host wa) = Some cv) by done.
  assert (Hca : context wa = true) by done.
  assert (Hres : exists wb cvb, ParticleSystem_resize wa = Returns (tt, wb) /\
            context wb = true /\ element (host wb) = Some cvb /\
            cols wb = cols w /\
            backgroundColor (this wb) = backgroundColor (this w)).
  { unfold ParticleSystem_resize, get. unfold mbind at 1, M_bind at 1.
    destruct (autoResize (this wa)).
    - unfold context_canvas_set_width, context_canvas_set_height.
      pose proof (modify_canvas_Returns
                    (fun c => mkCanvas
                       (Qfloor (inject_Z (innerWidth (host wa)) * 0.99))
                       (canvas_height c) (offsetLeft c) (offsetTop c)
                       default_state [] [] []) wa cv Hca Hea) as H2.
      set (w2 := set_host _ wa) in H2.
      assert (He2 := element_set_element _ wa cv Hea
                : element (host w2) = Some _).
      pose proof (modify_canvas_Returns
                    (fun c => mkCanvas (canvas_width c)
                       (Qfloor (inject_Z (innerHeight (host wa)) * 0.99))
                       (offsetLeft c) (offsetTop c)
                       default_state [] [] []) w2 _ Hca He2) as H3.
      set (w3 := set_host _ w2) in H3.
      assert (He3 := element_set_element _ w2 _ He2
                : element (host w3) = Some _).
      rewrite (bind_Returns _ _ wa w3 tt).
      2:{ by rewrite (bind_Returns _ _ _ _ _ H2). }
      unfold read_canvas, modify, mbind, M_bind.
      change (context w3) with (context wa). rewrite Hca, He3.
      eexists _, _. split; [reflexivity|]. split; [done|].
      split; [apply He3|]. done.
    - unfold mret, M_ret, read_canvas, modify, mbind, M_bind.
      rewrite Hca, Hea.
      eexists _, _. split; [reflexivity|]. split; [done|].
      split; [apply Hea|]. done. }
  destruct Hres as (wb & cvb & Hb & Hcb & Heb & Hcols & Hbgb).
  rewrite (bind_Returns _ _ _ _ _ Hb). unfold mbind at 1, M_bind at 1.
  destruct (lookup_lt_is_Some_2 _ _ Hbg) as [bg Hl].
  assert (Hlb : cols wb !! backgroundColor (this wb) = Some bg)
    by (by rewrite Hcols, Hbgb).
  rewrite (bind_Returns _ _ _ _ _ (read_rgba_Returns _ _ _ Hlb)).
  unfold context_set_fillStyle, context_save.
  rewrite (bind_Returns _ _ _ _ _ (modify_canvas_Returns _ wb cvb Hcb Heb)).
  set (wc := set_host _ wb).
  assert (Hec := element_set_element _ wb cvb Heb : element (host wc) = Some _).
  rewrite (modify_canvas_Returns _ wc _ Hcb Hec).
  by eexists.
Qed.

Lemma background_of_app (w w' : World) (cv cv' : Canvas) (p1 p2 : Paint)
    (rest : list Paint) :
  element (host w) = Some cv ->
  element (host w') = Some cv' ->
  painted cv' = painted cv ++ p1 :: p2 :: rest ->
  background_of w w' = Some (p1, p2).
Proof.
  intros He He' Hp. unfold background_of.
  by rewrite He, He', Hp, drop_app_length.
Qed.

(** C8, as the code has it.  [draw] never reads [backgroundColor]: it
    restores the drawing state that [initialize] saved and fills the
    surface with the fill style of that state.  So after [initialize] has
    read the colour [bg], every later [draw] first clears the whole
    surface and fills it with [bg], whatever the owner has assigned to
    [backgroundColor] or written into it in between, as long as
    [initialize] and [resize] are not called again. *)
Theorem background_fixed_by_initialize (w0 w1 w2 : World) (l : list Op)
    (bg : rgba) :
  cols w0 !! backgroundColor (this w0) = Some bg ->
  ParticleSystem_initialize w0 = Returns (tt, w1) ->
  Forall keeps_context l ->
  run_ops l w1 = Returns (tt, w2) ->
  exists (w3 : World) (op : Composite),
    repaint_background w2 = Returns (tt, w3) /\
    background_of w2 w3 =
      Some (ClearRect 0 0 (width (this w2)) (height (this w2)),
            FillRect (rgbaToString bg) op
              0 0 (width (this w2)) (height (this w2))) /\
    forall w4 : World,
      ParticleSystem_draw w2 = Returns (tt, w4) ->
      background_of w2 w4 =
        Some (ClearRect 0 0 (width (this w2)) (height (this w2)),
              FillRect (rgbaToString bg) op
                0 0 (width (this w2)) (height (this w2))).
Proof.
  intros Hbg Hinit Hl Hrun.
  pose proof (initialize_primed w0 w1 bg Hbg Hinit) as Hp1.
  pose proof (run_ops_primed _ l w1 w2 Hl Hp1 Hrun)
    as (Hc & cv & s & rest & He & Hs & Hf).
  pose proof (repaint_background_Returns w2 cv s rest Hc He Hs) as Hrep.
  set (w3 := set_host _ w2) in Hrep.
  assert (He3 := element_set_element _ w2 cv He : element (host w3) = Some _).
  exists w3, (globalCompositeOperation s). split; [done|]. split.
  - rewrite <- Hf. eapply background_of_app; [done|exact He3|].
    simpl. by rewrite <- app_assoc.
  - intros w4 Hdraw. unfold ParticleSystem_draw in Hdraw.
    rewrite (bind_Returns _ _ _ _ _ Hrep) in Hdraw.
    unfold get in Hdraw. unfold mbind at 1, M_bind at 1 in Hdraw.
    destruct (animator_draw_paints _ _ _ _ _ _ Hdraw) as (_ & _ & _ & _ & Hp).
    rewrite He3 in Hp.
    destruct (element (host w4)) as [cv4|] eqn:He4; [|done].
    destruct Hp as [_ [more Hmore]]. simpl in Hmore.
    rewrite <- Hf. eapply background_of_app; [done|exact He4|].
    rewrite Hmore, <- !app_assoc. reflexivity.
Qed.

Lemma initialize_example_world :
  ParticleSystem_initialize example_world_new = Returns (tt, example_world).
Proof. vm_compute. reflexivity. Qed.

Lemma example_ticks_Returns :
  run_ops example_ticks example_world = Returns (tt, example_after_ticks).
Proof. vm_compute. reflexivity. Qed.

Lemma background_fixed_by_initialize_witness :
  cols example_world_new !! backgroundColor (this example_world_new) =
    Some (Rgba 0 0 0 1) /\
  ParticleSystem_initialize example_world_new = Returns (tt, example_world) /\
  Forall keeps_context example_ticks /\
  run_ops example_ticks example_world = Returns (tt, example_after_ticks) /\
  exists (w3 : World) (op : Composite),
    repaint_background example_after_ticks = Returns (tt, w3) /\
    background_of example_after_ticks w3 =
      Some (ClearRect 0 0 (width (this example_after_ticks))
              (height (this example_after_ticks)),
            FillRect (rgbaToString (Rgba 0 0 0 1)) op
              0 0 (width (this example_after_ticks))
              (height (this example_after_ticks))).
Proof.
  assert (H1 : cols example_world_new !! backgroundColor (this example_world_new) =
               Some (Rgba 0 0 0 1)) by reflexivity.
  assert (Hk : Forall keeps_context example_ticks) by (repeat constructor).
  split; [exact H1|]. split; [exact initialize_example_world|].
  split; [exact Hk|]. split; [exact example_ticks_Returns|].
  destruct (background_fixed_by_initialize _ _ _ _ _ H1
              initialize_example_world Hk example_ticks_Returns)
    as (w3 & op & Hr & Hb & _).
  exists w3, op. split; [exact Hr|exact Hb].
Defined.

(** C8 does not hold as it is stated.  The owner's colour is not what
    [draw] paints: after [initialize] on a black background, assigning
    red to [backgroundColor], or writing red into the object, leaves the
    next [draw] filling the surface in black. *)
Lemma draw_ignores_new_background :
  run_ops [Initialize; Set_backgroundColor (Rgba 255 0 0 1)]
    (new_ParticleSystem example_page) = Returns (tt, example_red_assigned) /\
  cols example_red_assigned !! backgroundColor (this example_red_assigned) =
    Some (Rgba 255 0 0 1) /\
  background_of example_red_assigned
    (world_of (ParticleSystem_draw example_red_assigned)) =
    Some (ClearRect 0 0 200 100,
          FillRect (RgbaString 0 0 0 1) source_over 0 0 200 100) /\
  run_ops [Initialize; Write_backgroundColor (Rgba 255 0 0 1)]
    (new_ParticleSystem example_page) = Returns (tt, example_red_written) /\
  cols example_red_written !! backgroundColor (this example_red_written) =
    Some (Rgba 255 0 0 1) /\
  background_of example_red_written
    (world_of (ParticleSystem_draw example_red_written)) =
    Some (ClearRect 0 0 200 100,
          FillRect (RgbaString 0 0 0 1) source_over 0 0 200 100) /\
  ParticleSystem_draw example_red_assigned =
    Returns (tt, world_of (ParticleSystem_draw example_red_assigned)) /\
  ParticleSystem_draw example_red_written =
    Returns (tt, world_of (ParticleSystem_draw example_red_written)) /\
  rgbaToString (Rgba 255 0 0 1) = RgbaString 255 0 0 1 /\
  RgbaString 0 0 0 1 <> rgbaToString (Rgba 255 0 0 1).
Proof.
  repeat split; try (vm_compute; reflexivity).
  vm_compute. discriminate.
Qed.

(** * Help functions *)

Lemma quotient_Some (p q : Q) :
  ~ (q == 0)%Q -> quotient p q = Some (p / q)%Q.
Proof.
  intros Hq. unfold quotient.
  destruct (Qeq_bool q 0) eqn:E; [|done].
  by apply Qeq_bool_eq in E.
Qed.

Lemma quotient_None (p q : Q) : (q == 0)%Q -> quotient p q = None.
Proof.
  intros Hq. unfold quotient. by rewrite (Qeq_eq_bool _ _ Hq).
Qed.

Lemma unit_fraction (p q : Q) :
  (0 < q)%Q -> ((0 <= p / q /\ p / q <= 1) <-> (0 <= p /\ p <= q))%Q.
Proof.
  intros Hq.
  assert (Hne : ~ (q == 0)%Q) by (intros E; rewrite E in Hq; by apply Qlt_irrefl in Hq).
  assert (Hmul : (p / q * q == p)%Q)
    by (rewrite Qmult_comm; by apply Qmult_div_r).
  rewrite <- (Qmult_le_r 0 (p / q) q Hq).
  rewrite <- (Qmult_le_r (p / q) 1 q Hq).
  rewrite Hmul, Qmult_0_l, Qmult_1_l. done.
Qed.

(** C9, as the code has it.  On a canvas with positive dimensions
    [getCanvasPos] returns the fractions
    [(clientX - offsetLeft) / width] and [(clientY - offsetTop) / height];
    a fraction lies between 0 and 1 exactly when the event lies between
    the corresponding edges of the canvas.  Nothing clamps the result. *)
Theorem getCanvasPos_fraction (ev : MouseEvent) (cv : Canvas) :
  (0 < canvas_width cv)%Z ->
  (0 < canvas_height cv)%Z ->
  exists fx fy : Q,
    snd (getCanvasPos ev cv) = (Some fx, Some fy) /\
    fx = ((clientX ev - inject_Z (offsetLeft cv)) / inject_Z (canvas_width cv))%Q /\
    fy = ((clientY ev - inject_Z (offsetTop cv)) / inject_Z (canvas_height cv))%Q /\
    ((0 <= fx /\ fx <= 1)%Q <->
     (inject_Z (offsetLeft cv) <= clientX ev /\
      clientX ev <= inject_Z (offsetLeft cv + canvas_width cv))%Q) /\
    ((0 <= fy /\ fy <= 1)%Q <->
     (inject_Z (offsetTop cv) <= clientY ev /\
      clientY ev <= inject_Z (offsetTop cv + canvas_height cv))%Q).
Proof.
  intros Hw Hh.
  assert (Hwq : (0 < inject_Z (canvas_width cv))%Q)
    by (change 0%Q with (inject_Z 0); by rewrite <- Zlt_Qlt).
  assert (Hhq : (0 < inject_Z (canvas_height cv))%Q)
    by (change 0%Q with (inject_Z 0); by rewrite <- Zlt_Qlt).
  eexists _, _. split; [|split; [reflexivity|split; [reflexivity|]]].
  - unfold getCanvasPos. simpl.
    rewrite !quotient_Some; [done| |].
    + intros E. rewrite E in Hhq. by apply Qlt_irrefl in Hhq.
    + intros E. rewrite E in Hwq. by apply Qlt_irrefl in Hwq.
  - split.
    + rewrite (unit_fraction _ _ Hwq), inject_Z_plus. split; intros [H1 H2]; split; lra.
    + rewrite (unit_fraction _ _ Hhq), inject_Z_plus. split; intros [H1 H2]; split; lra.
Qed.

Lemma getCanvasPos_fraction_witness :
  (0 < canvas_width example_canvas)%Z /\
  (0 < canvas_height example_canvas)%Z /\
  exists fx fy : Q,
    snd (getCanvasPos (mkMouseEvent 110 60) example_canvas) = (Some fx, Some fy) /\
    (fx == 0.5)%Q /\ (fy == 0.5)%Q /\ (0 <= fx /\ fx <= 1)%Q /\ (0 <= fy /\ fy <= 1)%Q.
Proof.
  split; [reflexivity|]. split; [reflexivity|].
  destruct (getCanvasPos_fraction (mkMouseEvent 110 60) example_canvas)
    as (fx & fy & H1 & H2 & H3 & H4 & H5); [reflexivity|reflexivity|].
  exists fx, fy. split; [exact H1|].
  split; [rewrite H2; reflexivity|]. split; [rewrite H3; reflexivity|].
  split.
  - apply H4. simpl. split; unfold Qle; simpl; lia.
  - apply H5. simpl. split; unfold Qle; simpl; lia.
Defined.

(** C9 does not hold as it is stated: an event to the right of the
    canvas, at (500, 60) over the 200 x 100 canvas at (10, 10), has a first
    coordinate above 1. *)
Lemma getCanvasPos_outside :
  exists fx fy : Q,
    snd (getCanvasPos (mkMouseEvent 500 60) example_canvas) = (Some fx, Some fy) /\
    ~ (fx <= 1)%Q.
Proof.
  eexists _, _. split; [reflexivity|].
  unfold Qle. simpl. lia.
Qed.

(** The event of the specification's example. *)
Example getCanvasPos_centre :
  snd (getCanvasPos (mkMouseEvent 110 60) example_canvas) =
    (Some (100 # 200), Some (50 # 100)) /\
  (100 # 200 == 0.5)%Q /\ (50 # 100 == 0.5)%Q.
Proof. repeat split. Qed.

(** The function also writes the offsets into the fields [x] and [y] of
    its [this]. *)
Example getCanvasPos_this :
  fst (getCanvasPos (mkMouseEvent 110 60) example_canvas) = Vec2 (100 # 1) (50 # 1).
Proof. reflexivity. Qed.

(** On a canvas without width the first coordinate is no number. *)
Lemma getCanvasPos_no_width (ev : MouseEvent) (cv : Canvas) :
  canvas_width cv = 0%Z -> fst (snd (getCanvasPos ev cv)) = None.
Proof.
  intros H. unfold getCanvasPos. simpl. apply quotient_None. by rewrite H.
Qed.

(** * Runs of the example *)

(** [run()] on the example page, seen after two ticks of the timer: the
    first [draw] paints the background only, the second also the particle
    that the first [update] spawned at the centre of the surface. *)
Example run_two_ticks :
  observe (ParticleSystem_run 2 (new_ParticleSystem example_page)) =
    Some (2%Z,
          [ ClearRect 0 0 200 100;
            FillRect (RgbaString 0 0 0 1) source_over 0 0 200 100;
            ClearRect 0 0 200 100;
            FillRect (RgbaString 0 0 0 1) source_over 0 0 200 100;
            FillPath (RgbaString 255 255 255 1) source_over
              [ mkCircle (200 * 0.5 + 1 / 2) (100 * 0.5 + 1 / 2) (1 / 2) ] ]).
Proof. vm_compute. reflexivity. Qed.

(** Without a canvas element [initialize] throws, and so does [run]. *)
Example run_without_canvas :
  ParticleSystem_run 2
    (new_ParticleSystem (mkHost None 1000 800 (random_tape example_page) 0)) =
  Throws.
Proof. reflexivity. Qed.

(** With a negative cap the trimming loop of [update] never ends. *)
Example update_negative_cap :
  ParticleSystem_update (set_this (with_maxParticles (-1)) example_world) = Loops.
Proof. vm_compute. reflexivity. Qed.

(** Five particles are spawned against a cap of three: the two spawned
    first are evicted in the same call. *)
Example update_over_cap :
  particles (this (world_of (ParticleSystem_update example_world))) =
    [ mkParticle 10 11 4 12; mkParticle 13 14 5 15; mkParticle 16 17 6 18 ].
Proof. vm_compute. reflexivity. Qed.

(** The particles of the collection must not share objects for the closed
    forms of the animators: an array that holds one particle twice ages it
    twice in one pass. *)
Example default_animator_shared_particle :
  match DefaultParticleAnimator_update example_shared example_flock with
  | Returns (_, w) => vecs w !! 4%nat
  | _ => None
  end = Some (Vec2 (1 * 0.98 * 0.98) (1 * 0.98 * 0.98)).
Proof. reflexivity. Qed.

(** The example flock lives through a tick under the fancy animator: the
    run returns, and the two older particles have made room for the five
    that the first call of [update] spawned, of which three remain. *)
Example flock_ticks :
  option_map fst
    (observe (run_ops [Update; Set_particleAnimator FancyParticleAnimator;
                       Draw; Update; Draw] example_flock)) = Some 3%Z.
Proof. vm_compute. reflexivity. Qed.

(** * Help functions, continued *)

(** The integer part of a rational is the one integer just below it. *)
Lemma Qfloor_unique (q : Q) (n : Z) :
  (inject_Z n <= q)%Q -> (q < inject_Z (n + 1))%Q -> Qfloor q = n.
Proof.
  intros Hle Hlt.
  pose proof (Qfloor_le q) as H1. pose proof (Qlt_floor q) as H2.
  assert (G1 : (inject_Z n < inject_Z (Qfloor q + 1))%Q)
    by (eapply Qle_lt_trans; eassumption).
  assert (G2 : (inject_Z (Qfloor q) < inject_Z (n + 1))%Q)
    by (eapply Qle_lt_trans; eassumption).
  rewrite <- Zlt_Qlt in G1, G2. lia.
Qed.

(** [Math.round] yields the integer nearest to its argument, the upper one
    of the two when the argument lies half-way. *)
Lemma Math_round_nearest (q : Q) (n : Z) :
  Math_round q = n <-> (inject_Z n - 0.5 <= q /\ q < inject_Z n + 0.5)%Q.
Proof.
  unfold Math_round. split.
  - intros <-. pose proof (Qfloor_le (q + 0.5)) as H1.
    pose proof (Qlt_floor (q + 0.5)) as H2. rewrite inject_Z_plus in H2.
    change (inject_Z 1) with 1%Q in H2.
    set (z := inject_Z (Qfloor (q + 0.5))) in *. split; lra.
  - intros [H1 H2]. apply Qfloor_unique; [lra|]. rewrite inject_Z_plus.
    change (inject_Z 1) with 1%Q. lra.
Qed.

(** X16. [rgbaToString] prints each of the red, green and blue channels
    as the integer nearest to it, a half rounding up: the integer [n] is
    printed exactly when the channel lies in [n - 0.5, n + 0.5).  The alpha
    channel is printed as it is.  No channel is clamped. *)
Theorem rgbaToString_rounds (c : rgba) (n : Z) :
  (sr (rgbaToString c) = n <->
     (inject_Z n - 0.5 <= r c /\ r c < inject_Z n + 0.5)%Q) /\
  (sg (rgbaToString c) = n <->
     (inject_Z n - 0.5 <= g c /\ g c < inject_Z n + 0.5)%Q) /\
  (sb (rgbaToString c) = n <->
     (inject_Z n - 0.5 <= b c /\ b c < inject_Z n + 0.5)%Q) /\
  sa (rgbaToString c) = a c.
Proof.
  unfold rgbaToString. simpl.
  split; [apply Math_round_nearest|]. split; [apply Math_round_nearest|].
  split; [apply Math_round_nearest|done].
Qed.




(** * The constructor of a particle *)

(** [(t - 0.5) * speed] for [t] in [0, 1). *)
Lemma half_speed (t speed : Q) :
  (0 <= t)%Q -> (t < 1)%Q -> (Qabs ((t - 0.5) * speed) <= Qabs speed / 2)%Q.
Proof.
  intros H0 H1. rewrite Qabs_Qmult.
  assert (Ht : (Qabs (t - 0.5) <= 0.5)%Q)
    by (apply Qabs_Qle_condition; split; lra).
  pose proof (Qabs_nonneg speed) as Hs.
  setoid_replace (Qabs speed / 2)%Q with (0.5 * Qabs speed)%Q
    using relation Qeq by field.
  by apply Qmult_le_compat_r.
Qed.

(** X14. [new Particle(xypos, xysize, rgbacolor, speed)] keeps the three
    objects it is given, by reference, allocates one new object for the
    velocity and draws two random numbers, the first for [x]; when these
    lie in [0, 1), as the values of [Math.random()] do, each component of
    the velocity is at most [|speed| / 2] in absolute value. *)
Theorem new_Particle_velocity (w : World) (xypos xysize rgbacolor : loc)
    (speed : Q) :
  let n := random_next (host w) in
  (0 <= random_tape (host w) n)%Q -> (random_tape (host w) n < 1)%Q ->
  (0 <= random_tape (host w) (S n))%Q -> (random_tape (host w) (S n) < 1)%Q ->
  exists (p : Particle) (w' : World) (V : vec2),
    new_Particle xypos xysize rgbacolor speed w = Returns (p, w') /\
    pos p = xypos /\ size p = xysize /\ color p = rgbacolor /\
    velocity p = length (vecs w) /\
    vecs w' = vecs w ++ [V] /\
    cols w' = cols w /\ this w' = this w /\ context w' = context w /\
    host w' = consume 2 (host w) /\
    x V = ((random_tape (host w) n - 0.5) * speed)%Q /\
    y V = ((random_tape (host w) (S n) - 0.5) * speed)%Q /\
    (Qabs (x V) <= Qabs speed / 2)%Q /\
    (Qabs (y V) <= Qabs speed / 2)%Q.
Proof.
  intros n Hx0 Hx1 Hy0 Hy1.
  eexists _, _, _. split; [reflexivity|]. simpl.
  repeat split; try done.
  - by apply half_speed.
  - by apply half_speed.
Qed.

Lemma new_Particle_velocity_witness :
  (0 <= random_tape (host example_world) 0)%Q /\
  (random_tape (host example_world) 0 < 1)%Q /\
  (0 <= random_tape (host example_world) 1)%Q /\
  (random_tape (host example_world) 1 < 1)%Q /\
  exists (p : Particle) (w' : World) (V : vec2),
    new_Particle 3%nat 4%nat 2%nat 10 example_world = Returns (p, w') /\
    p = mkParticle 3 4 2 3 /\
    vecs w' = vecs example_world ++ [V] /\
    (Qabs (x V) <= Qabs 10 / 2)%Q /\ (Qabs (y V) <= Qabs 10 / 2)%Q.
Proof.
  split; [vm_compute; discriminate|]. split; [reflexivity|].
  split; [vm_compute; discriminate|]. split; [reflexivity|].
  destruct (new_Particle_velocity example_world 3%nat 4%nat 2%nat 10)
    as (p & w' & V & H1 & H2 & H3 & H4 & H5 & H6 & _ & _ & _ & _ & _ & _ &
        H7 & H8).
  - vm_compute. discriminate.
  - reflexivity.
  - vm_compute. discriminate.
  - reflexivity.
  - exists p, w', V. split; [exact H1|]. split.
    + destruct p. simpl in *. congruence.
    + split; [exact H6|]. split; [exact H7|exact H8].
Defined.

(** * What only [update] changes *)

(** A live particle of a well-formed world holds objects, none of which
    is a template. *)
Lemma live_particle_private (w : World) (p : Particle) :
  wf w -> p ∈ particles (this w) ->
  valid_particle w p /\
  (pos p <> particleSize (this w) /\ size p <> particleSize (this w) /\
   velocity p <> particleSize (this w)) /\
  (pos p <> particleOrigin (this w) /\ size p <> particleOrigin (this w) /\
   velocity p <> particleOrigin (this w)) /\
  color p <> particleColor (this w) /\ color p <> backgroundColor (this w).
Proof.
  intros Hwf Hp.
  pose proof (wf_valid w Hwf) as Hval. rewrite Forall_forall in Hval.
  destruct (elem_of_vec_locs _ p Hp) as (H1 & H2 & H3).
  pose proof (wf_size_private w Hwf) as Hs.
  pose proof (wf_origin_private w Hwf) as Ho.
  pose proof (wf_color_private w Hwf) as Hc.
  pose proof (wf_background_private w Hwf) as Hb.
  assert (Hcp : color p ∈ color <$> particles (this w))
    by (apply list_elem_of_fmap; by exists p).
  split; [by apply Hval|]. repeat split; intros E; rewrite E in *; done.
Qed.

(** An operation other than [update] leaves the array and the objects of
    the live particles alone. *)
Lemma step_keeps_particles (o : Op) (w w' : World) :
  wf w ->
  o <> Update ->
  step o w = Returns (tt, w') ->
  particles (this w') = particles (this w) /\
  forall p : Particle, p ∈ particles (this w) ->
    pos_of w' p = pos_of w p /\ size_of w' p = size_of w p /\
    velocity_of w' p = velocity_of w p /\ color_of w' p = color_of w p.
Proof.
  intros Hwf Ho H.
  assert (Hstore : same_store w w' ->
            particles (this w') = particles (this w) /\
            forall p : Particle, p ∈ particles (this w) ->
              pos_of w' p = pos_of w p /\ size_of w' p = size_of w p /\
              velocity_of w' p = velocity_of w p /\ color_of w' p = color_of w p).
  { intros (Hv & Hc & wd & hg & Ht). split; [by rewrite Ht|].
    intros p _. unfold pos_of, size_of, velocity_of, color_of.
    by rewrite Hv, Hc. }
  unfold pos_of, size_of, velocity_of, color_of.
  destruct o; simpl in H; try done.
  - apply Hstore. by eapply initialize_same_store.
  - apply Hstore. by eapply resize_same_store.
  - apply Hstore. by eapply draw_same_store.
  - injection H as <-. by split.
  - injection H as <-. by split.
  - injection H as <-. by split.
  - injection H as <-. by split.
  - injection H as <-. by split.
  - injection H as <-. by split.
  - injection H as <-. split; [done|]. intros p Hp.
    destruct (live_particle_private w p Hwf Hp) as ((?&?&?&?) & _).
    simpl. by rewrite lookup_app_l.
  - injection H as <-. split; [done|]. intros p Hp.
    destruct (live_particle_private w p Hwf Hp) as ((?&?&?&?) & _).
    simpl. by rewrite !lookup_app_l.
  - injection H as <-. split; [done|]. intros p Hp.
    destruct (live_particle_private w p Hwf Hp) as ((?&?&?&?) & _).
    simpl. by rewrite lookup_app_l.
  - injection H as <-. split; [done|]. intros p Hp.
    destruct (live_particle_private w p Hwf Hp) as ((?&?&?&?) & _).
    simpl. by rewrite !lookup_app_l.
  - unfold write_rgba, read_rgba, modify, get, mbind, M_bind in H.
    destruct (cols w !! backgroundColor (this w)); [|discriminate].
    injection H as <-. split; [done|]. intros p Hp.
    destruct (live_particle_private w p Hwf Hp) as (_ & _ & _ & _ & ?).
    simpl. by rewrite list_lookup_insert_ne.
  - unfold write_vec, read_vec, modify, get, mbind, M_bind in H.
    destruct (vecs w !! particleSize (this w)); [|discriminate].
    injection H as <-. split; [done|]. intros p Hp.
    destruct (live_particle_private w p Hwf Hp) as (_ & (?&?&?) & _).
    simpl. by rewrite !list_lookup_insert_ne.
  - unfold write_rgba, read_rgba, modify, get, mbind, M_bind in H.
    destruct (cols w !! particleColor (this w)); [|discriminate].
    injection H as <-. split; [done|]. intros p Hp.
    destruct (live_particle_private w p Hwf Hp) as (_ & _ & _ & ? & _).
    simpl. by rewrite list_lookup_insert_ne.
  - unfold write_vec, read_vec, modify, get, mbind, M_bind in H.
    destruct (vecs w !! particleOrigin (this w)); [|discriminate].
    injection H as <-. split; [done|]. intros p Hp.
    destruct (live_particle_private w p Hwf Hp) as (_ & _ & (?&?&?) & _).
    simpl. by rewrite !list_lookup_insert_ne.
Qed.

(** X7. In a reachable world no run of operations other than [update]
    changes the array of particles or any object of a live particle: not
    [initialize], [resize] or [draw], and no assignment of the owner, be it
    of a new object or into the fields of a template, since a particle holds
    copies of the templates. *)
Theorem only_update_ages_particles (l : list Op) (w w' : World) :
  reachable w ->
  Forall (fun o => o <> Update) l ->
  run_ops l w = Returns (tt, w') ->
  particles (this w') = particles (this w) /\
  forall p : Particle, p ∈ particles (this w) ->
    pos_of w' p = pos_of w p /\ size_of w' p = size_of w p /\
    velocity_of w' p = velocity_of w p /\ color_of w' p = color_of w p.
Proof.
  intros Hr. apply reachable_wf in Hr. revert w Hr.
  induction l as [|o l IH]; intros w Hwf Hl H.
  - by injection H as <-.
  - apply Forall_cons in Hl as [Ho Hl].
    apply bind_inv in H as ([] & w1 & H1 & H2).
    destruct (step_keeps_particles o w w1 Hwf Ho H1) as [Hps Hobj].
    destruct (IH w1 (step_wf o w w1 Hwf H1) Hl H2) as [Hps' Hobj'].
    split; [by rewrite Hps', Hps|].
    intros p Hp. destruct (Hobj p Hp) as (E1 & E2 & E3 & E4).
    destruct (Hobj' p) as (G1 & G2 & G3 & G4); [by rewrite Hps|].
    by rewrite G1, G2, G3, G4.
Qed.

Lemma reachable_example_populated : reachable example_populated.
Proof.
  exists example_page,
    [Set_particleSpeed 10; Set_particlesPerUpdate 5; Set_maxParticles 3;
     Initialize; Update].
  vm_compute. reflexivity.
Qed.

Lemma only_update_ages_particles_witness :
  reachable example_populated /\
  Forall (fun o => o <> Update)
    [Write_particleSize (Vec2 9 9); Set_particleColor (Rgba 255 0 0 1); Draw] /\
  run_ops [Write_particleSize (Vec2 9 9); Set_particleColor (Rgba 255 0 0 1); Draw]
    example_populated =
    Returns (tt, world_of (run_ops [Write_particleSize (Vec2 9 9);
                                    Set_particleColor (Rgba 255 0 0 1); Draw]
                             example_populated)) /\
  particles (this example_populated) =
    [ mkParticle 10 11 4 12; mkParticle 13 14 5 15; mkParticle 16 17 6 18 ] /\
  size_of (world_of (run_ops [Write_particleSize (Vec2 9 9);
                              Set_particleColor (Rgba 255 0 0 1); Draw]
                       example_populated))
    (mkParticle 10 11 4 12) = size_of example_populated (mkParticle 10 11 4 12).
Proof.
  assert (H : run_ops [Write_particleSize (Vec2 9 9);
                       Set_particleColor (Rgba 255 0 0 1); Draw]
                example_populated =
    Returns (tt, world_of (run_ops [Write_particleSize (Vec2 9 9);
                                    Set_particleColor (Rgba 255 0 0 1); Draw]
                             example_populated)))
    by (vm_compute; reflexivity).
  assert (Hps : particles (this example_populated) =
    [ mkParticle 10 11 4 12; mkParticle 13 14 5 15; mkParticle 16 17 6 18 ])
    by (vm_compute; reflexivity).
  assert (Hl : Forall (fun o => o <> Update)
                 [Write_particleSize (Vec2 9 9);
                  Set_particleColor (Rgba 255 0 0 1); Draw])
    by (repeat constructor; discriminate).
  split; [exact reachable_example_populated|]. split; [exact Hl|].
  split; [exact H|]. split; [exact Hps|].
  destruct (only_update_ages_particles _ _ _ reachable_example_populated Hl H)
    as [_ Hall].
  destruct (Hall (mkParticle 10 11 4 12)) as (_ & Hs & _).
  - rewrite Hps. apply elem_of_cons. by left.
  - exact Hs.
Defined.

(** X6. A call of [update] in a well-formed world paints nothing and
    changes no setting: the context, the canvas, the public fields and the
    cached dimensions are what they were, and two random numbers have been
    drawn for each particle of the batch. *)
Theorem update_leaves_canvas_and_settings (w w' : World) :
  wf w ->
  ParticleSystem_update w = Returns (tt, w') ->
  context w' = context w /\
  host w' = consume (2 * Z.to_nat (particlesPerUpdate (this w))) (host w) /\
  same_config (this w) (this w').
Proof.
  intros Hwf H. pose proof (update_Returns_cap w w' Hwf H) as Hcap.
  destruct (ParticleSystem_update_Returns w Hwf Hcap)
    as (wm & w2 & new & _ & _ & _ & Hupd & Hrel & _).
  rewrite Hupd in H. injection H as <-.
  split; [apply (updated_context _ _ _ Hrel)|]. split.
  - rewrite (updated_host _ _ _ Hrel). by rewrite (updated_batch _ _ _ Hrel).
  - apply (updated_config _ _ _ Hrel).
Qed.

Lemma update_leaves_canvas_and_settings_witness :
  wf example_flock /\
  ParticleSystem_update example_flock =
    Returns (tt, world_of (ParticleSystem_update example_flock)) /\
  element (host (world_of (ParticleSystem_update example_flock))) =
    element (host example_flock) /\
  random_next (host (world_of (ParticleSystem_update example_flock))) = 10%nat.
Proof.
  assert (H : ParticleSystem_update example_flock =
    Returns (tt, world_of (ParticleSystem_update example_flock)))
    by (vm_compute; reflexivity).
  split; [exact wf_example_flock|]. split; [exact H|].
  destruct (update_leaves_canvas_and_settings _ _ wf_example_flock H)
    as (_ & Hh & _).
  rewrite Hh. split; reflexivity.
Defined.

(** * When [update] returns *)

(** X5. In a reachable world [update] never throws; it returns when
    [maxParticles] is not negative, and otherwise it never returns: the
    trimming loop empties the array and goes on shifting the empty array. *)
Theorem update_returns_unless_cap_negative (w : World) :
  reachable w ->
  ((exists w' : World, ParticleSystem_update w = Returns (tt, w')) <->
   (0 <= maxParticles (this w))%Z) /\
  (ParticleSystem_update w = Loops <-> (maxParticles (this w) < 0)%Z) /\
  ParticleSystem_update w <> Throws.
Proof.
  intros Hr. apply reachable_wf in Hr as Hwf.
  destruct (Z.le_gt_cases 0 (maxParticles (this w))) as [Hcap|Hcap].
  - destruct (ParticleSystem_update_Returns w Hwf Hcap)
      as (wm & w' & new & _ & _ & _ & Hupd & _).
    rewrite Hupd. split; [|split].
    + split; [done|]. intros _. by exists w'.
    + split; [done|lia].
    + done.
  - rewrite (update_Loops w Hwf Hcap). split; [|split].
    + split; [|lia]. by intros [w' ?].
    + done.
    + done.
Qed.

Lemma reachable_example_uncapped : reachable example_uncapped.
Proof.
  exists example_page,
    [Set_particleSpeed 10; Set_particlesPerUpdate 5; Set_maxParticles 3;
     Initialize; Set_maxParticles (-1)].
  vm_compute. reflexivity.
Qed.

Lemma update_returns_unless_cap_negative_witness :
  reachable example_uncapped /\
  maxParticles (this example_uncapped) = (-1)%Z /\
  ParticleSystem_update example_uncapped = Loops.
Proof.
  split; [exact reachable_example_uncapped|]. split; [reflexivity|].
  destruct (update_returns_unless_cap_negative example_uncapped
              reachable_example_uncapped) as (_ & [_ H] & _).
  apply H. reflexivity.
Defined.

(** * The lifetime of a particle *)

(** Trimming to [c], appending, and trimming to [c] again. *)
Lemma drop_drop_app {A : Type} (c : nat) (L N : list A) :
  drop (length (drop (length L - c) L ++ N) - c) (drop (length L - c) L ++ N) =
  drop (length (L ++ N) - c) (L ++ N).
Proof.
  rewrite <- (drop_app_le L N) by lia.
  rewrite drop_drop, length_drop, !length_app. f_equal. lia.
Qed.

(** [k] calls of [update] in a row leave the last [maxParticles] of the
    particles that were there followed by the [k] batches. *)
Lemma updates_particles (k : nat) :
  forall w : World,
    wf w ->
    (0 <= maxParticles (this w))%Z ->
    (count w <= maxParticles (this w))%Z \/ (0 < k)%nat ->
    exists (wk : World) (news : list Particle),
      repeat_M k ParticleSystem_update w = Returns (tt, wk) /\
      length news = (k * Z.to_nat (particlesPerUpdate (this w)))%nat /\
      (forall q : Particle, q ∈ news -> (length (vecs w) <= pos q)%nat) /\
      particles (this wk) =
        drop (length (particles (this w) ++ news) -
              Z.to_nat (maxParticles (this w)))
          (particles (this w) ++ news).
Proof.
  induction k as [|k IH]; intros w Hwf Hcap Hc.
  - destruct Hc as [Hc|Hc]; [|lia]. unfold count in Hc.
    exists w, []. split; [done|]. split; [done|].
    split; [intros q Hq; by apply elem_of_nil in Hq|].
    rewrite app_nil_r.
    replace (length (particles (this w)) - Z.to_nat (maxParticles (this w)))%nat
      with 0%nat by lia.
    done.
  - destruct (ParticleSystem_update_Returns w Hwf Hcap)
      as (wm & w1 & new & _ & _ & _ & Hupd & Hrel & Hwf1).
    pose proof (updated_count w w1 new Hrel Hcap) as Hc1.
    destruct (updated_config _ _ _ Hrel)
      as (E1 & E2 & E3 & E4 & E5 & E6 & E7 & E8 & E9 & E10 & E11 & E12).
    destruct (IH w1 Hwf1) as (wk & news & Hrun & Hlen & Hfresh & Hps).
    { by rewrite E3. }
    { left. rewrite E3. lia. }
    exists wk, (new ++ news). split; [|split; [|split]].
    + simpl. by rewrite (bind_Returns _ _ _ _ _ Hupd).
    + rewrite length_app, Hlen, (updated_batch _ _ _ Hrel), E4. simpl. lia.
    + intros q Hq. apply elem_of_app in Hq as [Hq|Hq].
      * by destruct (updated_fresh _ _ _ Hrel q Hq).
      * pose proof (Hfresh q Hq).
        pose proof (updated_vecs_length _ _ _ Hrel). lia.
    + rewrite Hps, E3, (updated_particles _ _ _ Hrel), app_assoc.
      apply drop_drop_app.
Qed.

(** X8. A particle does not outlive the calls of [update] that it takes
    to spawn [maxParticles] others: after [k >= 1] calls in a row with
    [maxParticles <= k * particlesPerUpdate], no particle that was in the
    array before the first call is still there, and every particle in the
    array was spawned by one of these calls. *)
Theorem particle_lifetime (w : World) (k : nat) :
  wf w ->
  (0 <= maxParticles (this w))%Z ->
  (0 < k)%nat ->
  (maxParticles (this w) <= Z.of_nat k * particlesPerUpdate (this w))%Z ->
  exists wk : World,
    repeat_M k ParticleSystem_update w = Returns (tt, wk) /\
    (forall p : Particle, p ∈ particles (this w) -> p ∉ particles (this wk)) /\
    (forall q : Particle, q ∈ particles (this wk) ->
       (length (vecs w) <= pos q)%nat).
Proof.
  intros Hwf Hcap Hk Hfull.
  destruct (updates_particles k w Hwf Hcap)
    as (wk & news & Hrun & Hlen & Hfresh & Hps); [by right|].
  assert (Hnew : forall q : Particle, q ∈ particles (this wk) -> q ∈ news).
  { intros q Hq. rewrite Hps in Hq.
    rewrite drop_app_ge in Hq by (rewrite length_app; nia).
    by apply elem_of_drop_1 in Hq. }
  exists wk. split; [done|]. split.
  - intros p Hp Hpk. pose proof (Hfresh p (Hnew p Hpk)) as Hge.
    pose proof (wf_valid w Hwf) as Hval. rewrite Forall_forall in Hval.
    destruct (Hval p Hp) as (Hlt & _). lia.
  - intros q Hq. by apply Hfresh, Hnew.
Qed.

Lemma particle_lifetime_witness :
  wf example_flock /\
  (0 <= maxParticles (this example_flock))%Z /\
  (0 < 1)%nat /\
  (maxParticles (this example_flock) <=
     Z.of_nat 1 * particlesPerUpdate (this example_flock))%Z /\
  exists wk : World,
    repeat_M 1 ParticleSystem_update example_flock = Returns (tt, wk) /\
    (mkParticle 3 4 2 5 ∉ particles (this wk)) /\
    (mkParticle 6 7 3 8 ∉ particles (this wk)).
Proof.
  split; [exact wf_example_flock|]. split; [simpl; lia|]. split; [lia|].
  split; [simpl; lia|].
  destruct (particle_lifetime example_flock 1 wf_example_flock)
    as (wk & Hrun & Hold & _); [simpl; lia|lia|simpl; lia|].
  exists wk. split; [exact Hrun|]. split; apply Hold.
  - apply elem_of_cons. by left.
  - apply elem_of_cons. right. apply elem_of_cons. by left.
Defined.

(** * Survivors, on the example *)







(** * Painting *)

Lemma bind_Throws {A B : Type} (m : M A) (f : A -> M B) (w : World) :
  m w = Throws -> (m ≫= f) w = Throws.
Proof. intros H. unfold mbind, M_bind. by rewrite H. Qed.

(** A statement on the context, in a world whose context is bound to the
    canvas [cv]. *)
Lemma modify_canvas_with (f : Canvas -> Canvas) (w : World) (cv : Canvas) :
  context w = true ->
  element (host w) = Some cv ->
  modify_canvas f w = Returns (tt, with_canvas (f cv) w).
Proof.
  intros Hc He. rewrite (modify_canvas_Returns f w cv Hc He).
  unfold with_canvas, set_host, set_element. by rewrite He.
Qed.

Lemma with_canvas_twice (c c' : Canvas) (w : World) :
  with_canvas c' (with_canvas c w) = with_canvas c' w.
Proof.
  unfold with_canvas, set_host, set_element. simpl.
  by destruct (element (host w)).
Qed.

Lemma element_with_canvas (c : Canvas) (w : World) :
  is_Some (element (host w)) -> element (host (with_canvas c w)) = Some c.
Proof. intros [cv He]. simpl. by rewrite He. Qed.

Lemma with_canvas_id (w : World) (cv : Canvas) :
  element (host w) = Some cv -> with_canvas cv w = w.
Proof.
  intros He. unfold with_canvas, set_host, set_element. rewrite He.
  destruct w as [v c h ctx t]. destruct h. simpl in *. by rewrite He.
Qed.

(** The radius of the round renderer is not negative. *)
Lemma Math_max_nonneg (p q : Q) :
  Qle_bool 0 (Math_max p q / 2) = true <-> (0 <= p \/ 0 <= q)%Q.
Proof.
  rewrite Qle_bool_iff. unfold Math_max, Qdiv. change (/ 2)%Q with (1 # 2)%Q.
  destruct (Qle_bool p q) eqn:E.
  - apply Qle_bool_iff in E. split.
    + intros H. right. lra.
    + intros [H|H]; lra.
  - assert (Hlt : ~ (p <= q)%Q) by (rewrite <- Qle_bool_iff; congruence).
    apply Qnot_le_lt in Hlt. split.
    + intros H. left. lra.
    + intros [H|H]; lra.
Qed.

(** One call of a renderer. *)
Lemma renderer_draw_Returns (rd : Renderer) (w : World) (cv : Canvas)
    (p : Particle) (P S : vec2) (C : rgba) :
  context w = true ->
  element (host w) = Some cv ->
  vecs w !! pos p = Some P ->
  vecs w !! size p = Some S ->
  cols w !! color p = Some C ->
  (rd = RoundParticleRenderer -> (0 <= x S \/ 0 <= y S)%Q) ->
  renderer_draw rd p w = Returns (tt, with_canvas (rendered rd P S C cv) w).
Proof.
  intros Hc He HP HS HC Hok.
  assert (Hs : is_Some (element (host w))) by (by exists cv).
  destruct rd; simpl.
  - unfold SquareParticleRenderer_draw.
    rewrite (bind_Returns _ _ _ _ _ (read_rgba_Returns _ _ _ HC)).
    unfold context_set_fillStyle.
    rewrite (bind_Returns _ _ _ _ _ (modify_canvas_with _ w cv Hc He)).
    set (w1 := with_canvas _ w).
    assert (He1 : element (host w1) = Some _) by (by apply element_with_canvas).
    rewrite (bind_Returns _ _ _ _ _ (get_x_Returns w1 _ _ HP)).
    rewrite (bind_Returns _ _ _ _ _ (get_y_Returns w1 _ _ HP)).
    rewrite (bind_Returns _ _ _ _ _ (get_x_Returns w1 _ _ HS)).
    rewrite (bind_Returns _ _ _ _ _ (get_y_Returns w1 _ _ HS)).
    unfold context_fillRect.
    rewrite (modify_canvas_with _ w1 _ Hc He1).
    unfold w1. by rewrite with_canvas_twice.
  - unfold RoundParticleRenderer_draw, context_beginPath.
    rewrite (bind_Returns _ _ _ _ _ (modify_canvas_with _ w cv Hc He)).
    set (w1 := with_canvas _ w).
    assert (He1 : element (host w1) = Some _) by (by apply element_with_canvas).
    rewrite (bind_Returns _ _ _ _ _ (read_rgba_Returns w1 _ _ HC)).
    unfold context_set_fillStyle.
    rewrite (bind_Returns _ _ _ _ _ (modify_canvas_with _ w1 _ Hc He1)).
    set (w2 := with_canvas _ w1).
    assert (He2 : element (host w2) = Some _)
      by (apply element_with_canvas; by eexists).
    rewrite (bind_Returns _ _ _ _ _ (get_x_Returns w2 _ _ HS)).
    rewrite (bind_Returns _ _ _ _ _ (get_y_Returns w2 _ _ HS)).
    rewrite (bind_Returns _ _ _ _ _ (get_x_Returns w2 _ _ HP)).
    rewrite (bind_Returns _ _ _ _ _ (get_y_Returns w2 _ _ HP)).
    unfold context_arc.
    rewrite (proj2 (Math_max_nonneg (x S) (y S)) (Hok eq_refl)).
    rewrite (bind_Returns _ _ _ _ _ (modify_canvas_with _ w2 _ Hc He2)).
    set (w3 := with_canvas _ w2).
    assert (He3 : element (host w3) = Some _)
      by (apply element_with_canvas; by eexists).
    unfold context_fill.
    rewrite (modify_canvas_with _ w3 _ Hc He3).
    unfold w3, w2, w1. by rewrite !with_canvas_twice.
Qed.

(** The round renderer on a size that is negative on both axes. *)
Lemma round_renderer_Throws (w : World) (cv : Canvas)
    (p : Particle) (P S : vec2) (C : rgba) :
  context w = true ->
  element (host w) = Some cv ->
  vecs w !! pos p = Some P ->
  vecs w !! size p = Some S ->
  cols w !! color p = Some C ->
  (x S < 0)%Q -> (y S < 0)%Q ->
  RoundParticleRenderer_draw p w = Throws.
Proof.
  intros Hc He HP HS HC Hx Hy.
  assert (Hs : is_Some (element (host w))) by (by exists cv).
  unfold RoundParticleRenderer_draw, context_beginPath.
  rewrite (bind_Returns _ _ _ _ _ (modify_canvas_with _ w cv Hc He)).
  set (w1 := with_canvas _ w).
  assert (He1 : element (host w1) = Some _) by (by apply element_with_canvas).
  rewrite (bind_Returns _ _ _ _ _ (read_rgba_Returns w1 _ _ HC)).
  unfold context_set_fillStyle.
  rewrite (bind_Returns _ _ _ _ _ (modify_canvas_with _ w1 _ Hc He1)).
  set (w2 := with_canvas _ w1).
  rewrite (bind_Returns _ _ _ _ _ (get_x_Returns w2 _ _ HS)).
  rewrite (bind_Returns _ _ _ _ _ (get_y_Returns w2 _ _ HS)).
  rewrite (bind_Returns _ _ _ _ _ (get_x_Returns w2 _ _ HP)).
  rewrite (bind_Returns _ _ _ _ _ (get_y_Returns w2 _ _ HP)).
  unfold context_arc.
  destruct (Qle_bool 0 (Math_max (x S) (y S) / 2)) eqn:E; [|done].
  apply Math_max_nonneg in E as [E|E]; lra.
Qed.

(** X15. A renderer paints one shape for the particle and nothing else:
    the square renderer a rectangle with the position of the particle as
    its corner and its size as its sides, the round renderer a path that
    holds one circle only, whatever the path held before, of radius
    [max(size.x, size.y) / 2] and centred one radius right of and below the
    position.  The shape has the colour of the particle as [rgbaToString]
    prints it and the compositing operation that was current; the stack of
    saved states is untouched. *)
Theorem renderer_paints_one_shape (rd : Renderer) (w : World) (cv : Canvas)
    (p : Particle) (P S : vec2) (C : rgba) :
  context w = true ->
  element (host w) = Some cv ->
  pos_of w p = Some P -> size_of w p = Some S -> color_of w p = Some C ->
  drawable w rd p ->
  exists cv' : Canvas,
    renderer_draw rd p w = Returns (tt, with_canvas cv' w) /\
    painted cv' =
      painted cv ++
        [particle_paint rd (globalCompositeOperation (state cv)) P S C] /\
    fillStyle (state cv') = rgbaToString C /\
    globalCompositeOperation (state cv') =
      globalCompositeOperation (state cv) /\
    saved cv' = saved cv.
Proof.
  intros Hc He HP HS HC Hd. exists (rendered rd P S C cv).
  split; [|done]. apply renderer_draw_Returns; try done.
  intros ->. destruct Hd as (S' & HS' & Hd). rewrite HS in HS'.
  by injection HS' as <-.
Qed.

Lemma renderer_paints_one_shape_witness :
  drawable example_flock RoundParticleRenderer (mkParticle 3 4 2 5) /\
  exists cv' : Canvas,
    renderer_draw RoundParticleRenderer (mkParticle 3 4 2 5) example_flock =
      Returns (tt, with_canvas cv' example_flock) /\
    painted cv' =
      [ FillPath (RgbaString 255 255 255 1) source_over
          [ mkCircle (100 + 1 / 2) (50 + 1 / 2) (1 / 2) ] ].
Proof.
  assert (Hd : drawable example_flock RoundParticleRenderer (mkParticle 3 4 2 5)).
  { exists (Vec2 1 1). split; [reflexivity|]. left. by vm_compute. }
  split; [exact Hd|].
  destruct (renderer_paints_one_shape RoundParticleRenderer example_flock
              (mkCanvas 200 100 10 10 default_state [default_state] [] [])
              (mkParticle 3 4 2 5) (Vec2 100 50) (Vec2 1 1)
              (Rgba 255 255 255 1) eq_refl eq_refl eq_refl eq_refl eq_refl Hd)
    as (cv' & H1 & H2 & _).
  exists cv'. split; [exact H1|exact H2].
Defined.

(** The first four statements of [draw], whatever the stack of saved
    states holds. *)
Lemma repaint_background_with (w : World) (cv : Canvas) :
  context w = true ->
  element (host w) = Some cv ->
  repaint_background w =
    Returns (tt, with_canvas (repainted (width (this w)) (height (this w)) cv) w).
Proof.
  intros Hc He.
  assert (Hs : is_Some (element (host w))) by (by exists cv).
  unfold repaint_background.
  unfold context_restore, context_clearRect, context_fillRect, context_save.
  rewrite (bind_Returns _ _ _ _ _ (modify_canvas_with _ w cv Hc He)).
  set (w1 := with_canvas _ w).
  assert (He1 : element (host w1) = Some _) by (by apply element_with_canvas).
  unfold get. unfold mbind at 1, M_bind at 1.
  rewrite (bind_Returns _ _ _ _ _ (modify_canvas_with _ w1 _ Hc He1)).
  set (w2 := with_canvas _ w1).
  assert (He2 : element (host w2) = Some _)
    by (apply element_with_canvas; by eexists).
  rewrite (bind_Returns _ _ _ _ _ (modify_canvas_with _ w2 _ Hc He2)).
  set (w3 := with_canvas _ w2).
  assert (He3 : element (host w3) = Some _)
    by (apply element_with_canvas; by eexists).
  rewrite (modify_canvas_with _ w3 _ Hc He3).
  unfold w3, w2, w1. rewrite !with_canvas_twice.
  unfold repainted, restored.
  destruct (saved cv) eqn:E; simpl; rewrite ?E; by rewrite <- app_assoc.
Qed.

(** The loop of either [draw] of an animator, on the canvas [cv0]: one
    shape per particle, in the order of the array. *)
Lemma for_each_renderer_Returns (rd : Renderer) (w : World)
    (ps : list Particle) :
  context w = true ->
  is_Some (element (host w)) ->
  Forall (valid_particle w) ps ->
  Forall (drawable w rd) ps ->
  forall cv0 : Canvas,
    exists (cv' : Canvas) (shapes : list Paint),
      for_each (renderer_draw rd) ps (with_canvas cv0 w) =
        Returns (tt, with_canvas cv' w) /\
      painted cv' = painted cv0 ++ shapes /\
      Forall2 (fun p shape =>
                 paint_of w rd (globalCompositeOperation (state cv0)) p =
                   Some shape) ps shapes /\
      saved cv' = saved cv0 /\
      globalCompositeOperation (state cv') =
        globalCompositeOperation (state cv0) /\
      canvas_width cv' = canvas_width cv0 /\
      canvas_height cv' = canvas_height cv0.
Proof.
  intros Hc Hs. induction ps as [|p ps IH]; intros Hval Hdraw cv0.
  - exists cv0, []. split; [done|]. split; [by rewrite app_nil_r|].
    split; [constructor|done].
  - apply Forall_cons in Hval as [Hp Hval].
    apply Forall_cons in Hdraw as [Hd Hdraw].
    destruct (valid_particle_lookup w p Hp) as (P & S & V & C & HP & HS & HV & HC).
    assert (Hok : rd = RoundParticleRenderer -> (0 <= x S \/ 0 <= y S)%Q).
    { intros ->. destruct Hd as (S' & HS' & Hd). unfold size_of in HS'.
      rewrite HS in HS'. by injection HS' as <-. }
    pose proof (renderer_draw_Returns rd (with_canvas cv0 w) cv0 p P S C Hc
                  (element_with_canvas cv0 w Hs) HP HS HC Hok) as Hrun.
    rewrite with_canvas_twice in Hrun.
    destruct (IH Hval Hdraw (rendered rd P S C cv0))
      as (cv' & shapes & Hrest & Hpaint & Hall & Hsaved & Hop & Hcw & Hch).
    exists cv',
      (particle_paint rd (globalCompositeOperation (state cv0)) P S C :: shapes).
    split; [|split; [|split]].
    + cbn [for_each]. by rewrite (bind_Returns _ _ _ _ _ Hrun).
    + rewrite Hpaint. simpl. by rewrite <- app_assoc.
    + constructor; [|done]. unfold paint_of, pos_of, size_of, color_of.
      by rewrite HP, HS, HC.
    + done.
Qed.

(** The same loop under the round renderer, over an array that holds a
    particle it cannot draw. *)
Lemma for_each_renderer_Throws (w : World) (ps : list Particle)
    (p : Particle) (S : vec2) :
  context w = true ->
  is_Some (element (host w)) ->
  Forall (valid_particle w) ps ->
  p ∈ ps ->
  size_of w p = Some S -> (x S < 0)%Q -> (y S < 0)%Q ->
  forall cv0 : Canvas,
    for_each (renderer_draw RoundParticleRenderer) ps (with_canvas cv0 w) =
      Throws.
Proof.
  intros Hc Hs Hval Hp HS Hx Hy.
  induction ps as [|q ps IH]; intros cv0; [by apply elem_of_nil in Hp|].
  apply Forall_cons in Hval as [Hq Hval].
  destruct (valid_particle_lookup w q Hq)
    as (P' & S' & V' & C' & HP' & HS' & HV' & HC').
  cbn [for_each].
  destruct (Qlt_le_dec (x S') 0) as [Hx'|Hx'];
    [destruct (Qlt_le_dec (y S') 0) as [Hy'|Hy']|].
  - apply bind_Throws.
    apply (round_renderer_Throws (with_canvas cv0 w) cv0 q P' S' C'); try done.
    by apply element_with_canvas.
  - pose proof (renderer_draw_Returns RoundParticleRenderer (with_canvas cv0 w)
                  cv0 q P' S' C' Hc (element_with_canvas cv0 w Hs) HP' HS' HC'
                  (fun _ => or_intror Hy')) as Hrun.
    rewrite with_canvas_twice in Hrun.
    rewrite (bind_Returns _ _ _ _ _ Hrun). apply IH; [done|].
    apply elem_of_cons in Hp as [->|Hp]; [|done].
    unfold size_of in HS. rewrite HS' in HS. injection HS as <-. lra.
  - pose proof (renderer_draw_Returns RoundParticleRenderer (with_canvas cv0 w)
                  cv0 q P' S' C' Hc (element_with_canvas cv0 w Hs) HP' HS' HC'
                  (fun _ => or_introl Hx')) as Hrun.
    rewrite with_canvas_twice in Hrun.
    rewrite (bind_Returns _ _ _ _ _ Hrun). apply IH; [done|].
    apply elem_of_cons in Hp as [->|Hp]; [|done].
    unfold size_of in HS. rewrite HS' in HS. injection HS as <-. lra.
Qed.

(** [ParticleSystem.prototype.draw] on particles the renderer can draw. *)
Lemma draw_Returns (w : World) (cv : Canvas) :
  context w = true ->
  element (host w) = Some cv ->
  Forall (valid_particle w) (particles (this w)) ->
  Forall (drawable w (particleRenderer (this w))) (particles (this w)) ->
  exists (cv' : Canvas) (shapes : list Paint),
    ParticleSystem_draw w = Returns (tt, with_canvas cv' w) /\
    painted cv' =
      painted cv ++
        [ ClearRect 0 0 (width (this w)) (height (this w));
          FillRect (fillStyle (restored cv))
            (globalCompositeOperation (restored cv))
            0 0 (width (this w)) (height (this w)) ] ++ shapes /\
    Forall2 (fun p shape =>
               paint_of w (particleRenderer (this w))
                 (animator_composite (particleAnimator (this w))
                    (globalCompositeOperation (restored cv))) p = Some shape)
      (particles (this w)) shapes /\
    saved cv' = restored cv :: tail (saved cv) /\
    canvas_width cv' = canvas_width cv /\
    canvas_height cv' = canvas_height cv.
Proof.
  intros Hc He Hval Hdraw.
  assert (Hs : is_Some (element (host w))) by (by exists cv).
  unfold ParticleSystem_draw.
  rewrite (bind_Returns _ _ _ _ _ (repaint_background_with w cv Hc He)).
  unfold get. unfold mbind at 1, M_bind at 1.
  set (cvb := repainted _ _ cv).
  change (this (with_canvas cvb w)) with (this w).
  destruct (particleAnimator (this w)); simpl animator_draw.
  - unfold DefaultParticleAnimator_draw.
    destruct (for_each_renderer_Returns _ w _ Hc Hs Hval Hdraw cvb)
      as (cv' & shapes & Hrun & Hpaint & Hall & Hsaved & Hop & Hcw & Hch).
    exists cv', shapes. split; [done|]. split; [|split; [done|done]].
    rewrite Hpaint. unfold cvb, repainted. simpl. by rewrite <- app_assoc.
  - unfold FancyParticleAnimator_draw, context_set_globalCompositeOperation.
    rewrite (bind_Returns _ _ _ _ _
               (modify_canvas_with _ (with_canvas cvb w) cvb Hc
                  (element_with_canvas cvb w Hs))).
    rewrite with_canvas_twice.
    destruct (for_each_renderer_Returns _ w _ Hc Hs Hval Hdraw
                (set_state (fun d => mkDrawingState (fillStyle d) lighter) cvb))
      as (cv' & shapes & Hrun & Hpaint & Hall & Hsaved & Hop & Hcw & Hch).
    exists cv', shapes. split; [done|]. split; [|split; [done|done]].
    rewrite Hpaint. unfold cvb, repainted. simpl. by rewrite <- app_assoc.
Qed.

(** [ParticleSystem.prototype.draw] under the round renderer, when the
    array holds a particle it cannot draw. *)
Lemma draw_Throws (w : World) (cv : Canvas) (p : Particle) (S : vec2) :
  context w = true ->
  element (host w) = Some cv ->
  Forall (valid_particle w) (particles (this w)) ->
  particleRenderer (this w) = RoundParticleRenderer ->
  p ∈ particles (this w) ->
  size_of w p = Some S -> (x S < 0)%Q -> (y S < 0)%Q ->
  ParticleSystem_draw w = Throws.
Proof.
  intros Hc He Hval Hrd Hp HS Hx Hy.
  assert (Hs : is_Some (element (host w))) by (by exists cv).
  unfold ParticleSystem_draw.
  rewrite (bind_Returns _ _ _ _ _ (repaint_background_with w cv Hc He)).
  unfold get. unfold mbind at 1, M_bind at 1.
  set (cvb := repainted _ _ cv).
  change (this (with_canvas cvb w)) with (this w). rewrite Hrd.
  destruct (particleAnimator (this w)); simpl animator_draw.
  - unfold DefaultParticleAnimator_draw.
    by apply (for_each_renderer_Throws w _ p S).
  - unfold FancyParticleAnimator_draw, context_set_globalCompositeOperation.
    rewrite (bind_Returns _ _ _ _ _
               (modify_canvas_with _ (with_canvas cvb w) cvb Hc
                  (element_with_canvas cvb w Hs))).
    rewrite with_canvas_twice.
    by apply (for_each_renderer_Throws w _ p S).
Qed.

(** X11. [draw] in a well-formed world whose context is bound and whose
    particles the renderer can draw: it returns, changes nothing but the
    canvas, and paints, in this order, the clearing of the surface, the
    background rectangle in the style and compositing operation of the
    state that [restore()] brings back, and one shape per particle in the
    order of the array, oldest first, under that compositing operation
    (default animator) or under [lighter] (fancy animator).  The stack of
    saved states is as deep as before unless it was empty. *)
Theorem draw_paints_particles_in_order (w : World) (cv : Canvas) :
  wf w ->
  context w = true ->
  element (host w) = Some cv ->
  Forall (drawable w (particleRenderer (this w))) (particles (this w)) ->
  exists (cv' : Canvas) (shapes : list Paint),
    ParticleSystem_draw w = Returns (tt, with_canvas cv' w) /\
    painted cv' =
      painted cv ++
        [ ClearRect 0 0 (width (this w)) (height (this w));
          FillRect (fillStyle (restored cv))
            (globalCompositeOperation (restored cv))
            0 0 (width (this w)) (height (this w)) ] ++ shapes /\
    Forall2 (fun p shape =>
               paint_of w (particleRenderer (this w))
                 (animator_composite (particleAnimator (this w))
                    (globalCompositeOperation (restored cv))) p = Some shape)
      (particles (this w)) shapes /\
    saved cv' = restored cv :: tail (saved cv).
Proof.
  intros Hwf Hc He Hd.
  destruct (draw_Returns w cv Hc He (wf_valid w Hwf) Hd)
    as (cv' & shapes & H1 & H2 & H3 & H4 & _).
  by exists cv', shapes.
Qed.

Lemma drawable_example_flock :
  Forall (drawable example_flock (particleRenderer (this example_flock)))
    (particles (this example_flock)).
Proof.
  repeat constructor.
  - exists (Vec2 1 1). split; [reflexivity|]. left. by vm_compute.
  - exists (Vec2 0.98 0.98). split; [reflexivity|]. left. by vm_compute.
Qed.

Lemma draw_paints_particles_in_order_witness :
  wf example_flock /\
  context example_flock = true /\
  Forall (drawable example_flock (particleRenderer (this example_flock)))
    (particles (this example_flock)) /\
  exists (cv' : Canvas) (shapes : list Paint),
    ParticleSystem_draw example_flock =
      Returns (tt, with_canvas cv' example_flock) /\
    painted cv' =
      [ ClearRect 0 0 200 100;
        FillRect (RgbaString 0 0 0 1) source_over 0 0 200 100 ] ++ shapes /\
    length shapes = 2%nat /\
    saved cv' = [default_state].
Proof.
  split; [exact wf_example_flock|]. split; [reflexivity|].
  split; [exact drawable_example_flock|].
  destruct (draw_paints_particles_in_order example_flock
              (mkCanvas 200 100 10 10 default_state [default_state] [] [])
              wf_example_flock eq_refl eq_refl drawable_example_flock)
    as (cv' & shapes & H1 & H2 & H3 & H4).
  exists cv', shapes. split; [exact H1|]. split; [exact H2|].
  split; [|exact H4].
  symmetry. exact (Forall2_length _ _ _ H3).
Defined.

(** X12. When a live particle has a size that is negative on both axes,
    [draw] throws under the round renderer (the canvas refuses an arc of
    negative radius) and returns under the square renderer. *)
Theorem draw_throws_on_negative_size (w : World) (cv : Canvas) (p : Particle)
    (S : vec2) :
  wf w ->
  context w = true ->
  element (host w) = Some cv ->
  p ∈ particles (this w) ->
  size_of w p = Some S -> (x S < 0)%Q -> (y S < 0)%Q ->
  (particleRenderer (this w) = RoundParticleRenderer ->
   ParticleSystem_draw w = Throws) /\
  (particleRenderer (this w) = SquareParticleRenderer ->
   exists w' : World, ParticleSystem_draw w = Returns (tt, w')).
Proof.
  intros Hwf Hc He Hp HS Hx Hy. split.
  - intros Hrd. by apply (draw_Throws w cv p S Hc He (wf_valid w Hwf)).
  - intros Hrd.
    destruct (draw_Returns w cv Hc He (wf_valid w Hwf))
      as (cv' & shapes & H1 & _).
    + rewrite Hrd. by apply Forall_forall.
    + by eexists.
Qed.

Lemma example_negative_Returns :
  run_ops [Set_particleSize (Vec2 (-1) (-1)); Update] example_world =
    Returns (tt, example_negative).
Proof. vm_compute. reflexivity. Qed.

Lemma draw_throws_on_negative_size_witness :
  wf example_negative /\
  mkParticle 11 12 4 13 ∈ particles (this example_negative) /\
  size_of example_negative (mkParticle 11 12 4 13) = Some (Vec2 (-1) (-1)) /\
  particleRenderer (this example_negative) = RoundParticleRenderer /\
  ParticleSystem_draw example_negative = Throws.
Proof.
  assert (Hwf : wf example_negative).
  { apply (run_ops_wf _ example_world _ wf_example_world
             example_negative_Returns). }
  assert (Hp : mkParticle 11 12 4 13 ∈ particles (this example_negative)).
  { change (particles (this example_negative))
      with [mkParticle 11 12 4 13; mkParticle 14 15 5 16; mkParticle 17 18 6 19].
    apply elem_of_cons. by left. }
  split; [exact Hwf|]. split; [exact Hp|]. split; [reflexivity|].
  split; [reflexivity|].
  apply (draw_throws_on_negative_size example_negative
           (mkCanvas 200 100 10 10 default_state [default_state] [] [])
           (mkParticle 11 12 4 13) (Vec2 (-1) (-1)) Hwf eq_refl eq_refl Hp
           eq_refl); reflexivity.
Defined.

(** * The timer loop *)

(** Either renderer can draw a particle whose size is not negative. *)
Lemma nonneg_sizes_drawable (w : World) (rd : Renderer) :
  nonneg_sizes w -> Forall (drawable w rd) (particles (this w)).
Proof.
  intros [_ H]. apply Forall_forall. intros p Hp.
  destruct rd; [done|]. destruct (H p Hp) as (S & HS & Hx & Hy).
  exists S. split; [done|by left].
Qed.

Lemma nonneg_shrunk (S : vec2) : nonneg S -> nonneg (shrunk S).
Proof. intros [Hx Hy]. unfold nonneg, shrunk. simpl. split; lra. Qed.

(** [update] keeps sizes from being negative: it multiplies those of the
    old particles by 0.98 and copies the template for the new ones. *)
Lemma update_nonneg_sizes (w w' : World) (new : list Particle) :
  wf w -> updated w w' new -> nonneg_sizes w -> nonneg_sizes w'.
Proof.
  intros Hwf Hrel [(T & HT & HTn) Hold].
  destruct (updated_config _ _ _ Hrel)
    as (E1 & E2 & E3 & E4 & E5 & E6 & E7 & E8 & E9 & E10 & E11 & E12).
  split.
  - exists T. split; [|done]. rewrite E6, <- HT.
    apply (updated_vecs_frame _ _ _ Hrel).
    + apply (wf_size w Hwf).
    + apply template_not_aged, (wf_size_private w Hwf).
  - intros p Hp. rewrite (updated_particles _ _ _ Hrel) in Hp.
    apply elem_of_drop_1, elem_of_app in Hp as [Hp|Hp].
    + destruct (updated_old _ _ _ Hrel p Hp)
        as (P & S & V & C & _ & H2 & _ & _ & _ & H6 & _).
      destruct (Hold p Hp) as (S' & HS' & Hn). rewrite H2 in HS'.
      injection HS' as <-. exists (shrunk S). split; [done|].
      by apply nonneg_shrunk.
    + apply list_elem_of_lookup in Hp as [i Hi].
      destruct (updated_new _ _ _ Hrel i p Hi) as (O & _ & _ & N2 & _).
      exists T. split; [by rewrite N2|done].
Qed.

Lemma running_with_canvas (w : World) (cv : Canvas) :
  running w -> running (with_canvas cv w).
Proof.
  intros [H1 H2 H3 H4 H5]. split; try done.
  - apply (wf_same_store w); [apply same_store_set_host|done].
  - rewrite element_with_canvas; [by eexists|done].
Qed.

(** One tick of the timer. *)
Lemma loop_Returns (w : World) :
  running w ->
  exists w' : World,
    loop w = Returns (tt, w') /\ running w' /\
    same_config (this w) (this w') /\
    count w' =
      Z.min (count w + Z.max 0 (particlesPerUpdate (this w)))
        (maxParticles (this w)).
Proof.
  intros Hrun. pose proof Hrun as [Hwf Hc [cv He] Hsz Hcap].
  destruct (draw_Returns w cv Hc He (wf_valid w Hwf)
              (nonneg_sizes_drawable w _ Hsz))
    as (cv' & shapes & Hdraw & _).
  pose proof (running_with_canvas w cv' Hrun) as [Hwf1 Hc1 He1 Hsz1 Hcap1].
  set (w1 := with_canvas cv' w) in *.
  destruct (ParticleSystem_update_Returns w1 Hwf1 Hcap1)
    as (wm & w' & new & _ & _ & _ & Hupd & Hrel & Hwf').
  pose proof (updated_config _ _ _ Hrel) as Hcfg.
  destruct Hcfg as (E1 & E2 & E3 & E4 & E5 & E6 & E7 & E8 & E9 & E10 & E11 & E12).
  exists w'. split; [|split; [|split]].
  - unfold loop. rewrite (bind_Returns _ _ _ _ _ Hdraw). exact Hupd.
  - split.
    + done.
    + by rewrite (updated_context _ _ _ Hrel).
    + rewrite (updated_host _ _ _ Hrel). exact He1.
    + by apply (update_nonneg_sizes w1 w' new).
    + by rewrite E3.
  - exact (updated_config _ _ _ Hrel).
  - exact (updated_count w1 w' new Hrel Hcap1).
Qed.

(** [n] ticks of the timer. *)
Lemma loops_Returns (n : nat) :
  forall w : World,
    running w ->
    (count w <= maxParticles (this w))%Z ->
    exists w' : World,
      repeat_M n loop w = Returns (tt, w') /\ running w' /\
      same_config (this w) (this w') /\
      count w' =
        Z.min (count w + Z.of_nat n * Z.max 0 (particlesPerUpdate (this w)))
          (maxParticles (this w)).
Proof.
  induction n as [|n IH]; intros w Hrun Hc.
  - exists w. split; [done|]. split; [done|]. split; [apply same_config_refl|].
    change (Z.of_nat 0) with 0%Z. lia.
  - destruct (loop_Returns w Hrun) as (w1 & Hloop & Hrun1 & Hcfg1 & Hc1).
    pose proof Hcfg1
      as (E1 & E2 & E3 & E4 & E5 & E6 & E7 & E8 & E9 & E10 & E11 & E12).
    destruct (IH w1 Hrun1) as (w' & Hrest & Hrun' & Hcfg & Hc').
    { rewrite E3. lia. }
    exists w'. split; [|split; [done|split]].
    + simpl. by rewrite (bind_Returns _ _ _ _ _ Hloop).
    + by apply same_config_trans with (this w1).
    + rewrite Hc', Hc1, E3, E4, Nat2Z.inj_succ, Z.mul_succ_l.
      pose proof (running_cap w Hrun). lia.
Qed.

(** [initialize] leaves a world in which the timer can tick. *)
Lemma initialize_running (w w1 : World) :
  wf w -> nonneg_sizes w -> (0 <= maxParticles (this w))%Z ->
  ParticleSystem_initialize w = Returns (tt, w1) ->
  running w1 /\
  maxParticles (this w1) = maxParticles (this w) /\
  particlesPerUpdate (this w1) = particlesPerUpdate (this w) /\
  count w1 = count w.
Proof.
  intros Hwf Hsz Hcap Hinit.
  destruct (lookup_lt_is_Some_2 _ _ (wf_background w Hwf)) as [bg Hbg].
  destruct (initialize_primed w w1 bg Hbg Hinit)
    as (Hc & cv & s & rest & He & _).
  pose proof (initialize_same_store _ _ _ Hinit) as Hst.
  pose proof Hst as (Hv & Hcl & wd & hg & Ht).
  split; [split|].
  - by apply (wf_same_store w).
  - done.
  - by exists cv.
  - destruct Hsz as [(T & HT & HTn) Hold]. split.
    + exists T. split; [|done]. by rewrite Hv, Ht.
    + intros p Hp. rewrite Ht in Hp. destruct (Hold p Hp) as (S & HS & Hn).
      exists S. split; [|done]. unfold size_of. by rewrite Hv.
  - by rewrite Ht.
  - unfold count. by rewrite Ht.
Qed.

(** X13. [run()] on a page that has the canvas, for a well-formed system
    in which no size is negative and whose population is within a cap that
    is not negative: [initialize] and every tick of the timer return, under
    either animator and renderer, and after [ticks] ticks the array holds
    [min (count + ticks * max 0 particlesPerUpdate) maxParticles]
    particles. *)
Theorem run_returns (w : World) (cv : Canvas) (ticks : nat) :
  wf w ->
  element (host w) = Some cv ->
  nonneg_sizes w ->
  (0 <= maxParticles (this w))%Z ->
  (count w <= maxParticles (this w))%Z ->
  exists w' : World,
    ParticleSystem_run ticks w = Returns (tt, w') /\
    count w' =
      Z.min (count w + Z.of_nat ticks * Z.max 0 (particlesPerUpdate (this w)))
        (maxParticles (this w)).
Proof.
  intros Hwf He Hsz Hcap Hc.
  destruct (initialize_Returns w cv He (wf_background w Hwf)) as [w1 Hinit].
  destruct (initialize_running w w1 Hwf Hsz Hcap Hinit)
    as (Hrun1 & E3 & E4 & Hc1).
  destruct (loops_Returns ticks w1 Hrun1) as (w' & Hloops & _ & _ & Hc');
    [by rewrite Hc1, E3|].
  exists w'. split.
  - unfold ParticleSystem_run. by rewrite (bind_Returns _ _ _ _ _ Hinit).
  - by rewrite Hc', Hc1, E3, E4.
Qed.

Lemma nonneg_sizes_new_ParticleSystem (h : Host) :
  nonneg_sizes (new_ParticleSystem h).
Proof.
  split.
  - exists (Vec2 1 1). split; [reflexivity|]. split; simpl; lra.
  - intros p Hp. by apply elem_of_nil in Hp.
Qed.

Lemma run_returns_witness :
  wf (new_ParticleSystem example_page) /\
  element (host (new_ParticleSystem example_page)) = Some example_canvas /\
  nonneg_sizes (new_ParticleSystem example_page) /\
  (0 <= maxParticles (this (new_ParticleSystem example_page)))%Z /\
  (count (new_ParticleSystem example_page) <=
     maxParticles (this (new_ParticleSystem example_page)))%Z /\
  exists w' : World,
    ParticleSystem_run 600 (new_ParticleSystem example_page) = Returns (tt, w') /\
    count w' = 500%Z.
Proof.
  split; [apply wf_new_ParticleSystem|]. split; [reflexivity|].
  split; [apply nonneg_sizes_new_ParticleSystem|].
  split; [simpl; lia|]. split; [unfold count; simpl; lia|].
  destruct (run_returns (new_ParticleSystem example_page) example_canvas 600)
    as (w' & Hrun & Hc).
  - apply wf_new_ParticleSystem.
  - reflexivity.
  - apply nonneg_sizes_new_ParticleSystem.
  - simpl. lia.
  - unfold count. simpl. lia.
  - exists w'. split; [exact Hrun|]. rewrite Hc. reflexivity.
Defined.

(** * Resizing *)

(** Any use of the context throws when it is unbound, or bound to no
    canvas. *)
Lemma read_canvas_Throws {B : Type} (k : Canvas -> M B) (w : World) :
  context w = false \/ element (host w) = None ->
  (read_canvas ≫= k) w = Throws.
Proof.
  intros H. apply bind_Throws. unfold read_canvas.
  destruct H as [-> | ->]; [done|]. by destruct (context w).
Qed.

Lemma modify_canvas_Throws (f : Canvas -> Canvas) (w : World) :
  context w = false \/ element (host w) = None ->
  modify_canvas f w = Throws.
Proof. intros H. unfold modify_canvas. by apply read_canvas_Throws. Qed.

Lemma resize_Throws (w : World) :
  context w = false \/ element (host w) = None ->
  ParticleSystem_resize w = Throws.
Proof.
  intros H. unfold ParticleSystem_resize, get.
  unfold mbind at 1, M_bind at 1. destruct (autoResize (this w)).
  - apply bind_Throws, bind_Throws. unfold context_canvas_set_width.
    by apply modify_canvas_Throws.
  - unfold mret, M_ret. unfold mbind at 1, M_bind at 1.
    by apply read_canvas_Throws.
Qed.

Lemma draw_Throws_unbound (w : World) :
  context w = false \/ element (host w) = None ->
  ParticleSystem_draw w = Throws.
Proof.
  intros H. unfold ParticleSystem_draw, repaint_background, context_restore.
  apply bind_Throws, bind_Throws. by apply modify_canvas_Throws.
Qed.

(** [ParticleSystem.prototype.resize] in a world whose context is bound. *)
Lemma resize_Returns (w : World) (cv : Canvas) :
  context w = true ->
  element (host w) = Some cv ->
  ParticleSystem_resize w = Returns (tt, after_resize w cv).
Proof.
  intros Hc He.
  assert (Hs : is_Some (element (host w))) by (by exists cv).
  unfold ParticleSystem_resize, get, after_resize, resized.
  unfold mbind at 1, M_bind at 1. destruct (autoResize (this w)).
  - unfold context_canvas_set_width, context_canvas_set_height.
    pose proof (modify_canvas_with
                  (fun c => mkCanvas
                     (Qfloor (inject_Z (innerWidth (host w)) * 0.99))
                     (canvas_height c) (offsetLeft c) (offsetTop c)
                     default_state [] [] []) w cv Hc He) as H2.
    set (w2 := with_canvas _ w) in H2.
    assert (He2 : element (host w2) = Some _) by (by apply element_with_canvas).
    pose proof (modify_canvas_with
                  (fun c => mkCanvas (canvas_width c)
                     (Qfloor (inject_Z (innerHeight (host w)) * 0.99))
                     (offsetLeft c) (offsetTop c)
                     default_state [] [] []) w2 _ Hc He2) as H3.
    unfold w2 in H3 at 2. rewrite with_canvas_twice in H3.
    cbn [canvas_width canvas_height offsetLeft offsetTop] in H3.
    match type of H3 with
    | _ = Returns (_, ?w3) => rewrite (bind_Returns _ _ w w3 tt)
    end.
    2:{ by rewrite (bind_Returns _ _ _ _ _ H2). }
    unfold read_canvas, modify, mbind, M_bind.
    change (context (with_canvas ?c w)) with (context w). rewrite Hc.
    by rewrite element_with_canvas.
  - unfold mret, M_ret, read_canvas, modify, mbind, M_bind.
    rewrite Hc, He. by rewrite (with_canvas_id w cv He).
Qed.

(** [resize] returns in no other world. *)
Lemma resize_inv (w w1 : World) :
  ParticleSystem_resize w = Returns (tt, w1) ->
  context w = true /\
  exists cv : Canvas, element (host w) = Some cv /\ w1 = after_resize w cv.
Proof.
  intros H. destruct (context w) eqn:Hc.
  - destruct (element (host w)) as [cv|] eqn:He.
    + rewrite (resize_Returns w cv Hc He) in H. injection H as <-.
      split; [done|]. by exists cv.
    + rewrite resize_Throws in H by (by right). discriminate.
  - rewrite resize_Throws in H by (by left). discriminate.
Qed.

(** X3. A call of [resize] that returns leaves a world on which [resize]
    changes nothing more; in it the cached [width] and [height] are the
    dimensions of the canvas; the store and the particles are untouched,
    and so is the canvas unless [autoResize] is set. *)
Theorem resize_is_idempotent (w w1 : World) :
  ParticleSystem_resize w = Returns (tt, w1) ->
  ParticleSystem_resize w1 = Returns (tt, w1) /\
  vecs w1 = vecs w /\ cols w1 = cols w /\
  particles (this w1) = particles (this w) /\
  exists cv1 : Canvas,
    element (host w1) = Some cv1 /\
    width (this w1) = inject_Z (canvas_width cv1) /\
    height (this w1) = inject_Z (canvas_height cv1) /\
    (autoResize (this w) = false -> element (host w1) = element (host w)).
Proof.
  intros H. apply resize_inv in H as (Hc & cv & He & ->).
  assert (Hs : is_Some (element (host w))) by (by exists cv).
  assert (He1 : element (host (after_resize w cv)) = Some (resized w cv))
    by (by apply (element_with_canvas (resized w cv) w)).
  split; [|split; [done|split; [done|split; [done|]]]].
  - rewrite (resize_Returns (after_resize w cv) (resized w cv) Hc He1).
    f_equal. f_equal.
    unfold after_resize at 1.
    assert (Hr : resized (after_resize w cv) (resized w cv) = resized w cv).
    { unfold resized. simpl. by destruct (autoResize (this w)). }
    rewrite Hr. unfold after_resize, with_canvas, set_this, set_host, set_element.
    simpl. by destruct (element (host w)).
  - exists (resized w cv). split; [done|]. split; [done|]. split; [done|].
    intros Hauto. rewrite He1, He. unfold resized. by rewrite Hauto.
Qed.

Lemma resize_is_idempotent_witness :
  ParticleSystem_resize example_world =
    Returns (tt, world_of (ParticleSystem_resize example_world)) /\
  ParticleSystem_resize (world_of (ParticleSystem_resize example_world)) =
    Returns (tt, world_of (ParticleSystem_resize example_world)) /\
  width (this (world_of (ParticleSystem_resize example_world))) = inject_Z 200.
Proof.
  assert (H : ParticleSystem_resize example_world =
    Returns (tt, world_of (ParticleSystem_resize example_world)))
    by (vm_compute; reflexivity).
  split; [exact H|].
  destruct (resize_is_idempotent _ _ H) as (H1 & _).
  split; [exact H1|reflexivity].
Defined.

(** X4. With [autoResize] set, [resize] gives the canvas 99% of the
    window, rounded down, caches these dimensions, and in doing so resets
    the context: the bitmap is cleared and no state is saved any more.
    The next [draw] therefore fills the background in the default style,
    opaque black, whatever colour [initialize] had read. *)
Theorem resize_auto_resets_background (w : World) (cv : Canvas) :
  context w = true ->
  element (host w) = Some cv ->
  autoResize (this w) = true ->
  exists (w1 w2 : World) (cv1 : Canvas),
    ParticleSystem_resize w = Returns (tt, w1) /\
    element (host w1) = Some cv1 /\
    canvas_width cv1 = Qfloor (inject_Z (innerWidth (host w)) * 0.99) /\
    canvas_height cv1 = Qfloor (inject_Z (innerHeight (host w)) * 0.99) /\
    width (this w1) = inject_Z (canvas_width cv1) /\
    height (this w1) = inject_Z (canvas_height cv1) /\
    painted cv1 = [] /\ saved cv1 = [] /\
    repaint_background w1 = Returns (tt, w2) /\
    background_of w1 w2 =
      Some (ClearRect 0 0 (width (this w1)) (height (this w1)),
            FillRect (RgbaString 0 0 0 1) source_over
              0 0 (width (this w1)) (height (this w1))).
Proof.
  intros Hc He Hauto.
  assert (Hs : is_Some (element (host w))) by (by exists cv).
  assert (He1 : element (host (after_resize w cv)) = Some (resized w cv))
    by (by apply (element_with_canvas (resized w cv) w)).
  assert (Hs1 : is_Some (element (host (after_resize w cv)))) by (by eexists).
  assert (Hcv1 : resized w cv =
            mkCanvas (Qfloor (inject_Z (innerWidth (host w)) * 0.99))
              (Qfloor (inject_Z (innerHeight (host w)) * 0.99))
              (offsetLeft cv) (offsetTop cv) default_state [] [] [])
    by (unfold resized; by rewrite Hauto).
  eexists (after_resize w cv), _, (resized w cv).
  split; [by apply resize_Returns|]. split; [done|].
  split; [by rewrite Hcv1|]. split; [by rewrite Hcv1|].
  split; [done|]. split; [done|].
  split; [by rewrite Hcv1|]. split; [by rewrite Hcv1|].
  split; [by apply (repaint_background_with (after_resize w cv) (resized w cv))|].
  eapply background_of_app; [exact He1|by apply element_with_canvas|].
  unfold repainted, restored. rewrite Hcv1. reflexivity.
Qed.

Lemma example_red_auto_Returns :
  run_ops [Set_backgroundColor (Rgba 255 0 0 1); Set_autoResize true;
           Initialize] (new_ParticleSystem example_page) =
    Returns (tt, example_red_auto).
Proof. vm_compute. reflexivity. Qed.

Lemma resize_auto_resets_background_witness :
  context example_red_auto = true /\
  autoResize (this example_red_auto) = true /\
  (exists cv : Canvas,
     element (host example_red_auto) = Some cv /\
     fillStyle (restored cv) = RgbaString 255 0 0 1) /\
  exists (w1 w2 : World) (cv1 : Canvas),
    ParticleSystem_resize example_red_auto = Returns (tt, w1) /\
    element (host w1) = Some cv1 /\
    canvas_width cv1 = 990%Z /\ canvas_height cv1 = 792%Z /\
    repaint_background w1 = Returns (tt, w2) /\
    background_of w1 w2 =
      Some (ClearRect 0 0 (width (this w1)) (height (this w1)),
            FillRect (RgbaString 0 0 0 1) source_over
              0 0 (width (this w1)) (height (this w1))).
Proof.
  split; [reflexivity|]. split; [reflexivity|].
  split; [eexists; split; vm_compute; reflexivity|].
  destruct (resize_auto_resets_background example_red_auto
              (mkCanvas 990 792 10 10
                 (mkDrawingState (RgbaString 255 0 0 1) source_over)
                 [mkDrawingState (RgbaString 255 0 0 1) source_over] [] []))
    as (w1 & w2 & cv1 & H1 & H2 & H3 & H4 & _ & _ & _ & _ & H9 & H10).
  - reflexivity.
  - vm_compute. reflexivity.
  - reflexivity.
  - exists w1, w2, cv1. split; [exact H1|]. split; [exact H2|].
    split; [rewrite H3; vm_compute; reflexivity|].
    split; [rewrite H4; vm_compute; reflexivity|].
    split; [exact H9|exact H10].
Defined.

(** * Before and at [initialize] *)

(** No operation other than [initialize] binds the context. *)
Lemma step_unbound (o : Op) (w w' : World) :
  not_Initialize o -> context w = false ->
  step o w = Returns (tt, w') -> context w' = false.
Proof.
  intros Ho Hc H. destruct o; simpl in H; try done.
  - rewrite resize_Throws in H by (by left). discriminate.
  - rewrite draw_Throws_unbound in H by (by left). discriminate.
  - destruct (update_same_canvas _ _ _ H) as [-> _]. done.
  - by injection H as <-.
  - by injection H as <-.
  - by injection H as <-.
  - by injection H as <-.
  - by injection H as <-.
  - by injection H as <-.
  - by injection H as <-.
  - by injection H as <-.
  - by injection H as <-.
  - by injection H as <-.
  - unfold write_rgba, read_rgba, modify, get, mbind, M_bind in H.
    destruct (cols w !! backgroundColor (this w)); [|discriminate].
    by injection H as <-.
  - unfold write_vec, read_vec, modify, get, mbind, M_bind in H.
    destruct (vecs w !! particleSize (this w)); [|discriminate].
    by injection H as <-.
  - unfold write_rgba, read_rgba, modify, get, mbind, M_bind in H.
    destruct (cols w !! particleColor (this w)); [|discriminate].
    by injection H as <-.
  - unfold write_vec, read_vec, modify, get, mbind, M_bind in H.
    destruct (vecs w !! particleOrigin (this w)); [|discriminate].
    by injection H as <-.
Qed.

Lemma run_ops_unbound (l : list Op) :
  forall w w' : World,
    Forall not_Initialize l -> context w = false ->
    run_ops l w = Returns (tt, w') -> context w' = false.
Proof.
  induction l as [|o l IH]; intros w w' Hl Hc H.
  - by injection H as <-.
  - apply Forall_cons in Hl as [Ho Hl].
    apply bind_inv in H as ([] & w1 & H1 & H2).
    apply (IH w1 w'); [done|by apply (step_unbound o w)|done].
Qed.

(** X2. As long as [initialize] has not been called the global [context]
    is unbound: whatever else has been done to a new system, [draw] and
    [resize] throw, and so does the callback of the timer. *)
Theorem methods_throw_before_initialize (h : Host) (l : list Op) (w : World) :
  Forall not_Initialize l ->
  run_ops l (new_ParticleSystem h) = Returns (tt, w) ->
  ParticleSystem_draw w = Throws /\
  ParticleSystem_resize w = Throws /\
  loop w = Throws.
Proof.
  intros Hl Hrun.
  assert (Hc : context w = false)
    by (by apply (run_ops_unbound l (new_ParticleSystem h) w)).
  split; [apply draw_Throws_unbound; by left|].
  split; [apply resize_Throws; by left|].
  unfold loop. apply bind_Throws, draw_Throws_unbound. by left.
Qed.

Lemma methods_throw_before_initialize_witness :
  Forall not_Initialize [Set_particlesPerUpdate 5; Update] /\
  run_ops [Set_particlesPerUpdate 5; Update] (new_ParticleSystem example_page) =
    Returns (tt, world_of (run_ops [Set_particlesPerUpdate 5; Update]
                             (new_ParticleSystem example_page))) /\
  count (world_of (run_ops [Set_particlesPerUpdate 5; Update]
                     (new_ParticleSystem example_page))) = 5%Z /\
  ParticleSystem_draw
    (world_of (run_ops [Set_particlesPerUpdate 5; Update]
                 (new_ParticleSystem example_page))) = Throws.
Proof.
  assert (Hl : Forall not_Initialize [Set_particlesPerUpdate 5; Update])
    by (repeat constructor).
  assert (H : run_ops [Set_particlesPerUpdate 5; Update]
                (new_ParticleSystem example_page) =
    Returns (tt, world_of (run_ops [Set_particlesPerUpdate 5; Update]
                             (new_ParticleSystem example_page))))
    by (vm_compute; reflexivity).
  split; [exact Hl|]. split; [exact H|]. split; [vm_compute; reflexivity|].
  exact (proj1 (methods_throw_before_initialize _ _ _ Hl H)).
Defined.

(** [ParticleSystem.prototype.initialize] on a page that has the canvas. *)
Lemma initialize_with (w : World) (cv : Canvas) (bg : rgba) :
  element (host w) = Some cv ->
  cols w !! backgroundColor (this w) = Some bg ->
  ParticleSystem_initialize w = Returns (tt, after_initialize w cv bg).
Proof.
  intros He Hbg. unfold ParticleSystem_initialize, get.
  unfold mbind at 1, M_bind at 1. rewrite He.
  unfold modify at 1. unfold mbind at 1, M_bind at 1.
  set (wa := set_context true w).
  assert (Hs : is_Some (element (host wa))) by (by exists cv).
  rewrite (bind_Returns _ _ _ _ _ (resize_Returns wa cv eq_refl He)).
  unfold mbind at 1, M_bind at 1.
  set (wb := after_resize wa cv).
  assert (Heb : element (host wb) = Some (resized wa cv))
    by (by apply (element_with_canvas (resized wa cv) wa)).
  rewrite (bind_Returns _ _ _ _ _ (read_rgba_Returns wb _ _ Hbg)).
  unfold context_set_fillStyle, context_save.
  rewrite (bind_Returns _ _ _ _ _ (modify_canvas_with _ wb _ eq_refl Heb)).
  set (wc := with_canvas _ wb).
  assert (Hec : element (host wc) = Some _)
    by (apply element_with_canvas; by eexists).
  rewrite (modify_canvas_with _ wc _ eq_refl Hec).
  unfold wc. by rewrite with_canvas_twice.
Qed.

(** X1. In a well-formed world [initialize] throws exactly when the page
    has no canvas element.  Otherwise it returns: the context is bound,
    [width] and [height] are the dimensions of the canvas, the current fill
    style is the background colour as [rgbaToString] prints it, the
    compositing operation is the one [resize] left, one more state is
    saved on top of those [resize] left, and the store and the particles
    are untouched. *)
Theorem initialize_needs_the_canvas (w : World) :
  wf w ->
  (ParticleSystem_initialize w = Throws <-> element (host w) = None) /\
  forall cv : Canvas,
    element (host w) = Some cv ->
    exists (w1 : World) (cv1 : Canvas) (bg : rgba),
      ParticleSystem_initialize w = Returns (tt, w1) /\
      context w1 = true /\
      element (host w1) = Some cv1 /\
      width (this w1) = inject_Z (canvas_width cv1) /\
      height (this w1) = inject_Z (canvas_height cv1) /\
      cols w !! backgroundColor (this w) = Some bg /\
      fillStyle (state cv1) = rgbaToString bg /\
      globalCompositeOperation (state cv1) =
        globalCompositeOperation (state (resized w cv)) /\
      saved cv1 = state cv1 :: saved (resized w cv) /\
      vecs w1 = vecs w /\ cols w1 = cols w /\
      particles (this w1) = particles (this w).
Proof.
  intros Hwf.
  destruct (lookup_lt_is_Some_2 _ _ (wf_background w Hwf)) as [bg Hbg].
  split.
  - destruct (element (host w)) as [cv|] eqn:He.
    + rewrite (initialize_with w cv bg He Hbg). done.
    + unfold ParticleSystem_initialize, get. unfold mbind, M_bind.
      by rewrite He.
  - intros cv He.
    exists (after_initialize w cv bg), (initialized bg (resized w cv)), bg.
    split; [by apply initialize_with|]. split; [done|].
    split; [apply element_with_canvas; simpl; by rewrite He|].
    done.
Qed.

Lemma initialize_needs_the_canvas_witness :
  wf example_world_new /\
  element (host example_world_new) = Some example_canvas /\
  exists (w1 : World) (cv1 : Canvas),
    ParticleSystem_initialize example_world_new = Returns (tt, w1) /\
    element (host w1) = Some cv1 /\
    width (this w1) = inject_Z (canvas_width cv1) /\
    ParticleSystem_initialize
      (set_host (fun h => mkHost None (innerWidth h) (innerHeight h)
                            (random_tape h) (random_next h))
         example_world_new) = Throws.
Proof.
  assert (Hwf : wf example_world_new).
  { apply (run_ops_wf [Set_particleSpeed 10; Set_particlesPerUpdate 5;
                       Set_maxParticles 3] (new_ParticleSystem example_page));
      [apply wf_new_ParticleSystem|reflexivity]. }
  split; [exact Hwf|]. split; [reflexivity|].
  destruct (initialize_needs_the_canvas example_world_new Hwf) as (_ & H).
  destruct (H example_canvas eq_refl)
    as (w1 & cv1 & bg & H1 & _ & H3 & H4 & _).
  exists w1, cv1. split; [exact H1|]. split; [exact H3|]. split; [exact H4|].
  reflexivity.
Defined.

(** * No negative size, no exception *)

Lemma nonneg_sizes_change (w w' : World) (T : vec2) :
  particles (this w') = particles (this w) ->
  (forall p : Particle, p ∈ particles (this w) -> size_of w' p = size_of w p) ->
  vecs w' !! particleSize (this w') = Some T -> nonneg T ->
  nonneg_sizes w -> nonneg_sizes w'.
Proof.
  intros Hps Hsz HT HTn [_ Hold]. split; [by exists T|].
  intros p Hp. rewrite Hps in Hp. destruct (Hold p Hp) as (S & HS & Hn).
  exists S. split; [|done]. by rewrite (Hsz p Hp).
Qed.

(** [draw] returns with the context bound to a canvas. *)
Lemma draw_bound (w w' : World) :
  ParticleSystem_draw w = Returns (tt, w') ->
  context w' = true /\ is_Some (element (host w')).
Proof.
  intros H. destruct (context w) eqn:Hc.
  2:{ rewrite draw_Throws_unbound in H by (by left). discriminate. }
  destruct (element (host w)) as [cv|] eqn:He.
  2:{ rewrite draw_Throws_unbound in H by (by right). discriminate. }
  unfold ParticleSystem_draw in H.
  rewrite (bind_Returns _ _ _ _ _ (repaint_background_with w cv Hc He)) in H.
  unfold get in H. unfold mbind at 1, M_bind at 1 in H.
  destruct (animator_draw_paints _ _ _ _ _ _ H) as (_ & _ & _ & Hc' & Hp).
  split; [by rewrite Hc'|].
  rewrite element_with_canvas in Hp by (by exists cv).
  destruct (element (host w')) as [cv'|]; [by eexists|done].
Qed.

(** Soundness is kept by every operation that assigns no negative
    size. *)
Lemma step_sound (o : Op) (w w' : World) :
  keeps_sizes o -> sound w -> step o w = Returns (tt, w') -> sound w'.
Proof.
  intros Ho [Hwf Hsz Hne Hb] H.
  pose proof (step_wf o w w' Hwf H) as Hwf'.
  pose proof Hsz as [(T & HT & HTn) _].
  assert (Hstore : same_store w w' ->
            nonneg_sizes w' /\
            particleSize (this w') <> particleOrigin (this w')).
  { intros (Hv & Hc & wd & hg & Ht). split; [|by rewrite Ht].
    apply (nonneg_sizes_change w w' T); try done.
    - by rewrite Ht.
    - intros p _. unfold size_of. by rewrite Hv.
    - by rewrite Hv, Ht. }
  assert (Hdec : o = Update \/ o <> Update)
    by (destruct o; first [by left|right; discriminate]).
  destruct Hdec as [->|Hnu].
  - simpl in H. pose proof (update_Returns_cap w w' Hwf H) as Hcap.
    destruct (ParticleSystem_update_Returns w Hwf Hcap)
      as (wm & w2 & new & _ & _ & _ & Hupd & Hrel & _).
    rewrite Hupd in H. injection H as <-.
    destruct (updated_config _ _ _ Hrel)
      as (E1 & E2 & E3 & E4 & E5 & E6 & E7 & E8 & E9 & E10 & E11 & E12).
    split; [done| |by rewrite E6, E8|].
    + by apply (update_nonneg_sizes w w2 new).
    + rewrite (updated_context _ _ _ Hrel), (updated_host _ _ _ Hrel). exact Hb.
  - destruct (step_keeps_particles o w w' Hwf Hnu H) as [Hps Hobj].
    assert (Hsame : forall p : Particle, p ∈ particles (this w) ->
                      size_of w' p = size_of w p)
      by (intros p Hp; by destruct (Hobj p Hp) as (_ & ? & _)).
    destruct o; simpl in H, Ho; try done.
    + destruct (Hstore (initialize_same_store _ _ _ H)) as [Hs' Hn'].
      split; [done|done|done|]. intros _.
      destruct (lookup_lt_is_Some_2 _ _ (wf_background w Hwf)) as [bg Hbg].
      destruct (initialize_primed w w' bg Hbg H) as (_ & cv & _ & _ & He & _).
      by exists cv.
    + destruct (Hstore (resize_same_store _ _ _ H)) as [Hs' Hn'].
      split; [done|done|done|].
      apply resize_inv in H as (Hc & cv & He & ->). intros _.
      exists (resized w cv). apply (element_with_canvas (resized w cv) w).
      by exists cv.
    + destruct (Hstore (draw_same_store _ _ _ H)) as [Hs' Hn'].
      split; [done|done|done|]. intros _. by destruct (draw_bound w w' H).
    + injection H as <-. by split.
    + injection H as <-. by split.
    + injection H as <-. by split.
    + injection H as <-. by split.
    + injection H as <-. by split.
    + injection H as <-. by split.
    + injection H as <-. split; [done| |done|done].
      by apply (nonneg_sizes_change w _ T).
    + injection H as <-. split; [done| | |done].
      * apply (nonneg_sizes_change w _ v); try done.
        simpl. by rewrite lookup_app_r, Nat.sub_diag.
      * simpl. pose proof (wf_origin w Hwf). lia.
    + injection H as <-. split; [done| |done|done].
      by apply (nonneg_sizes_change w _ T).
    + injection H as <-. split; [done| | |done].
      * apply (nonneg_sizes_change w _ T); try done.
        simpl. rewrite lookup_app_l; [done|apply (wf_size w Hwf)].
      * simpl. pose proof (wf_size w Hwf). lia.
    + unfold write_rgba, read_rgba, modify, get, mbind, M_bind in H.
      destruct (cols w !! backgroundColor (this w)); [|discriminate].
      injection H as <-. split; [done| |done|done].
      by apply (nonneg_sizes_change w _ T).
    + unfold write_vec, read_vec, modify, get, mbind, M_bind in H.
      destruct (vecs w !! particleSize (this w)) eqn:E; [|discriminate].
      injection H as <-. split; [done| |done|done].
      apply (nonneg_sizes_change w _ v); try done.
      simpl. apply list_lookup_insert_eq. by apply lookup_lt_Some in E.
    + unfold write_rgba, read_rgba, modify, get, mbind, M_bind in H.
      destruct (cols w !! particleColor (this w)); [|discriminate].
      injection H as <-. split; [done| |done|done].
      by apply (nonneg_sizes_change w _ T).
    + unfold write_vec, read_vec, modify, get, mbind, M_bind in H.
      destruct (vecs w !! particleOrigin (this w)); [|discriminate].
      injection H as <-. split; [done| |done|done].
      apply (nonneg_sizes_change w _ T); try done.
      simpl. by rewrite list_lookup_insert_ne.
Qed.

Lemma run_ops_sound (l : list Op) :
  forall w w' : World,
    Forall keeps_sizes l -> sound w ->
    run_ops l w = Returns (tt, w') -> sound w'.
Proof.
  induction l as [|o l IH]; intros w w' Hl Hs H.
  - by injection H as <-.
  - apply Forall_cons in Hl as [Ho Hl].
    apply bind_inv in H as ([] & w1 & H1 & H2).
    apply (IH w1 w'); [done|by apply (step_sound o w)|done].
Qed.

Lemma sound_new_ParticleSystem (h : Host) : sound (new_ParticleSystem h).
Proof.
  split.
  - apply wf_new_ParticleSystem.
  - apply nonneg_sizes_new_ParticleSystem.
  - simpl. lia.
  - simpl. discriminate.
Qed.

(** X19. [draw] never throws once [initialize] has run, as long as the
    owner has never assigned a size that is negative on an axis: in every
    world that a new system reaches by such operations and in which the
    context is bound, [draw] returns, under either renderer and animator,
    and so does the callback of the timer when the cap is not negative. *)
Theorem draw_returns_with_nonneg_sizes (h : Host) (l : list Op) (w : World) :
  Forall keeps_sizes l ->
  run_ops l (new_ParticleSystem h) = Returns (tt, w) ->
  context w = true ->
  (exists w' : World, ParticleSystem_draw w = Returns (tt, w')) /\
  ((0 <= maxParticles (this w))%Z ->
   exists w' : World, loop w = Returns (tt, w')).
Proof.
  intros Hl Hrun Hc.
  destruct (run_ops_sound l _ w Hl (sound_new_ParticleSystem h) Hrun)
    as [Hwf Hsz _ Hb].
  destruct (Hb Hc) as [cv He]. split.
  - destruct (draw_Returns w cv Hc He (wf_valid w Hwf)
                (nonneg_sizes_drawable w _ Hsz)) as (cv' & shapes & H & _).
    by eexists.
  - intros Hcap. destruct (loop_Returns w) as (w' & H & _); [|by exists w'].
    split; first [done|by exists cv].
Qed.

Lemma draw_returns_with_nonneg_sizes_witness :
  Forall keeps_sizes
    [Set_particleSize (Vec2 4 0); Initialize; Update;
     Write_particleSize (Vec2 0 2); Update; Resize] /\
  run_ops [Set_particleSize (Vec2 4 0); Initialize; Update;
           Write_particleSize (Vec2 0 2); Update; Resize]
    (new_ParticleSystem example_page) =
    Returns (tt, world_of
      (run_ops [Set_particleSize (Vec2 4 0); Initialize; Update;
                Write_particleSize (Vec2 0 2); Update; Resize]
         (new_ParticleSystem example_page))) /\
  exists w' : World,
    ParticleSystem_draw
      (world_of
         (run_ops [Set_particleSize (Vec2 4 0); Initialize; Update;
                   Write_particleSize (Vec2 0 2); Update; Resize]
            (new_ParticleSystem example_page))) = Returns (tt, w').
Proof.
  assert (Hl : Forall keeps_sizes
                 [Set_particleSize (Vec2 4 0); Initialize; Update;
                  Write_particleSize (Vec2 0 2); Update; Resize]).
  { repeat constructor; unfold Qle; simpl; lia. }
  assert (H : run_ops [Set_particleSize (Vec2 4 0); Initialize; Update;
                       Write_particleSize (Vec2 0 2); Update; Resize]
                (new_ParticleSystem example_page) =
    Returns (tt, world_of
      (run_ops [Set_particleSize (Vec2 4 0); Initialize; Update;
                Write_particleSize (Vec2 0 2); Update; Resize]
         (new_ParticleSystem example_page))))
    by (vm_compute; reflexivity).
  split; [exact Hl|]. split; [exact H|].
  refine (proj1 (draw_returns_with_nonneg_sizes _ _ _ Hl H _)).
  vm_compute. reflexivity.
Defined.
